(** * simpleDDP: the local synchronisation and reactive dispatch engine

    A shallow embedding of [src/simpleDDP.ts] and of [ddpCollection.fetch]
    ([src/classes/ddpCollection.ts]), with the properties the specification
    states about them.

    Conventions of the embedding.
    - A JavaScript object used as a record of named fields (a Document, a
      [fields] payload, the [collections] table) is a [gmap] keyed by
      strings; reading an absent property yields [VUndefined].
    - A JavaScript array is a [list]; [splice(i, 1)] is [delete i],
      [push] appends at the end, an in-place update of element [i] is
      [<[i:=x]>].
    - Numbers are the integers ([Z]); floating point values and [NaN] are
      outside the model.
    - Callbacks handed to the client ([l.f], predicates, comparators) are
      pure observers: they neither throw nor touch the store.  A call of a
      listener's callback is recorded in a trace, in the order of the calls. *)

From Stdlib Require Import ZArith Sorted.
From stdpp Require Import gmap strings list fin_maps pretty.

Local Open Scope string_scope.
Local Open Scope list_scope.
Set Warnings "-register-all".

(** ** Values *)

(** EJSON-like values.  [VObj] lists an object's own enumerable
    properties in enumeration order. *)
Inductive value :=
| VUndefined
| VNull
| VBool (b : bool)
| VNum (n : Z)
| VStr (s : string)
| VArr (items : list value)
| VObj (props : list (string * value)).

(** Structural equality of values, as a boolean function. *)
Fixpoint value_eqb (a b : value) : bool :=
  match a, b with
  | VUndefined, VUndefined | VNull, VNull => true
  | VBool x, VBool y => bool_decide (x = y)
  | VNum x, VNum y => bool_decide (x = y)
  | VStr x, VStr y => bool_decide (x = y)
  | VArr xs, VArr ys =>
      (fix go (xs ys : list value) : bool :=
         match xs, ys with
         | [], [] => true
         | x :: xs, y :: ys => value_eqb x y && go xs ys
         | _, _ => false
         end) xs ys
  | VObj ps, VObj qs =>
      (fix go (ps qs : list (string * value)) : bool :=
         match ps, qs with
         | [], [] => true
         | (k, x) :: ps, (l, y) :: qs =>
             bool_decide (k = l) && value_eqb x y && go ps qs
         | _, _ => false
         end) ps qs
  | _, _ => false
  end.

(** The induction principle that reaches below arrays and objects. *)
Lemma value_ind_nested (P : value → Prop) :
  P VUndefined → P VNull → (∀ b, P (VBool b)) → (∀ n, P (VNum n)) →
  (∀ s, P (VStr s)) →
  (∀ items, Forall P items → P (VArr items)) →
  (∀ props, Forall (λ kv, P kv.2) props → P (VObj props)) →
  ∀ v, P v.
Proof.
  intros HU HN HB HZ HS HA HO.
  fix IH 1. intros [ | | b | n | s | items | props].
  - exact HU.
  - exact HN.
  - apply HB.
  - apply HZ.
  - apply HS.
  - apply HA. induction items as [|x xs IHxs]; constructor; [apply IH | exact IHxs].
  - apply HO. induction props as [|[k x] ps IHps]; constructor; [apply IH | exact IHps].
Qed.

Lemma value_eqb_eq (a b : value) : value_eqb a b = true ↔ a = b.
Proof.
  revert b. induction a as [ | | x | x | x | xs IHxs | ps IHps] using value_ind_nested;
    intros [ | | y | y | y | ys | qs]; simpl;
    try (split; [discriminate | congruence]); try tauto;
    try (rewrite bool_decide_eq_true; split; congruence).
  - revert ys. induction IHxs as [|x xs Hx _ IH]; intros [|y ys];
      try (split; [discriminate | congruence]); [tauto|].
    rewrite andb_true_iff, Hx.
    specialize (IH ys). split.
    + intros [-> H]. apply IH in H. congruence.
    + intros [= -> ->]. split; [done|]. apply IH. done.
  - revert qs. induction IHps as [|[k x] ps Hx _ IH]; intros [|[l y] qs];
      try (split; [discriminate | congruence]); [tauto|].
    rewrite !andb_true_iff, bool_decide_eq_true. simpl in Hx. rewrite Hx.
    specialize (IH qs). split.
    + intros [[-> ->] H]. apply IH in H. congruence.
    + intros [= -> -> ->]. split; [done|]. apply IH. done.
Qed.

#[global] Instance value_eq_dec : EqDecision value.
Proof.
  intros a b. destruct (value_eqb a b) eqn:E.
  - left. by apply value_eqb_eq.
  - right. intros H. apply value_eqb_eq in H. congruence.
Defined.

(** A Document as the store holds it: an object whose identifier sits under
    the key ["_id"]. *)
Abbreviation doc := (gmap string value).

(** Property read [o.k]: an absent property reads as [undefined]. *)
Definition prop (o : doc) (k : string) : value := default VUndefined (o !! k).

(** Modelled from the spec: the helper [fullCopy] of [helpers/fullCopy.js]
    is not among the sources; the specification calls it a deep copy.  It
    rebuilds every array and object it meets and keeps the primitives. *)
Fixpoint fullCopy (v : value) : value :=
  match v with
  | VArr items => VArr (map fullCopy items)
  | VObj props => VObj (map (λ kv, let '(k, x) := kv in (k, fullCopy x)) props)
  | _ => v
  end.

Definition fullCopy_doc (d : doc) : doc := fullCopy <$> d.

Section LooseEquality.
(** [coerce x y] stands for the cases of JavaScript's [x == y] that are
    settled by a conversion (a number against a string, a boolean against
    anything else) or by object identity.  The development holds for
    every such function. *)
Variable coerce : value → value → bool.

(** [x == y]. *)
Definition loose_eq (x y : value) : bool :=
  match x, y with
  | VUndefined, VUndefined | VUndefined, VNull
  | VNull, VUndefined | VNull, VNull => true
  | VUndefined, _ | VNull, _ | _, VUndefined | _, VNull => false
  | VBool a, VBool b => bool_decide (a = b)
  | VNum a, VNum b => bool_decide (a = b)
  | VStr a, VStr b => bool_decide (a = b)
  | _, _ => coerce x y
  end.
End LooseEquality.

(** ** Messages, listeners and notifications *)

(** The part of [DDPMessage] a diff carries.  [m_fields] and [m_cleared]
    are [None] when the property is absent (falsy). *)
Record DDPMessage := {
  m_collection : string;
  m_id : value;
  m_fields : option (gmap string value);
  m_cleared : option (list string);
}.

(** A listener predicate: [(document, index, collection array)]. *)
Definition predicate := doc → nat → list doc → bool.

(** An entry of [onChangeFuncs].  [l_filter] is [Some p] when the entry
    has an own property [filter] that holds the function [p], and [None]
    when it has no own property [filter].  An entry whose [filter]
    property holds something else makes [l.filter(...)] throw; like a
    callback that throws, it is outside the model.  ([ddpCollection.onChange]
    always sets the property, to [undefined] when neither a predicate nor
    a filter of the collection is given: of the entries it builds, the
    model covers those with a predicate.) *)
Record listener := {
  l_collection : string;
  l_filter : option predicate;
}.

(** The object [{prev, next, fields, fieldsChanged, fieldsRemoved,
    predicatePassed}]; [None] is [false] for [prev] and [next] and an absent
    property for the others. *)
Record change := {
  prev : option doc;
  next : option doc;
  fields : option (gmap string Z);
  fieldsChanged : option (gmap string value);
  fieldsRemoved : option (list string);
  predicatePassed : option (bool * bool);
}.

(** What a listener's callback receives: [{changed, added, removed}]
    ([None] is [false]) for a listener without a predicate, the bare
    [change] object for a listener with one. *)
Inductive payload :=
| Envelope (changed : option change) (added removed : option doc)
| Bare (c : change).

(** A trace of callback invocations: the position of the listener in
    [onChangeFuncs] and the argument of [l.f]. *)
Abbreviation trace := (list (nat * payload)).

(** [onChangeFuncs.forEach]: the listeners of collection [col] in
    registration order; [plain] is delivered to a listener without a
    predicate, [filtered p] decides for a listener with predicate [p]. *)
Definition forEach_listener (ls : list listener) (col : string)
    (plain : payload) (filtered : predicate → option payload) : trace :=
  omap id (imap (λ k l,
    if bool_decide (l_collection l = col) then
      match l_filter l with
      | None => Some (k, plain)
      | Some p => (λ pl, (k, pl)) <$> filtered p
      end
    else None) ls).

(** The listener at position [k] of [onChangeFuncs] is called. *)
Definition invoked (k : nat) (tr : trace) : Prop := k ∈ tr.*1.

(** ** The store and its three dispatchers *)

(** [collections] and [onChangeFuncs] of the client. *)
Record store := {
  collections : gmap string (list doc);
  onChangeFuncs : list listener;
}.

Definition set_collections (c : gmap string (list doc)) (st : store) : store :=
  {| collections := c; onChangeFuncs := onChangeFuncs st |}.

(** [if (!this.collections.hasOwnProperty(c)) this.collections[c] = []]. *)
Definition ensure (c : string) (cols : gmap string (list doc)) : gmap string (list doc) :=
  match cols !! c with
  | Some _ => cols
  | None => <[c := []]> cols
  end.

(** [Object.keys(fields).map(p => flags[p] = 1)]. *)
Definition flag_fields (f : option (gmap string value)) : gmap string Z :=
  match f with
  | Some f => (λ _, 1%Z) <$> f
  | None => ∅
  end.

(** [Object.assign(target, fields)]: the keys of [fields] win. *)
Definition assign (target : doc) (f : option (gmap string value)) : doc :=
  match f with
  | Some f => f ∪ target
  | None => target
  end.

(** [cleared.forEach(name => { flags[name] = 0; delete d[name] })]. *)
Definition clear_fields (cleared : list string) (fd : gmap string Z * doc) : gmap string Z * doc :=
  foldl (λ acc name, (<[name := 0%Z]> acc.1, delete name acc.2)) fd cleared.

(** [Object.assign({ _id: m.id }, m.fields)]: the Document an [added]
    message describes. *)
Definition newObj (m : DDPMessage) : doc := assign {[ "_id" := m_id m ]} (m_fields m).

(** A diff message as the transport delivers it, by event name. *)
Inductive diff :=
| Added (m : DDPMessage)
| Changed (m : DDPMessage)
| Removed (m : DDPMessage).

Section Dispatch.
Variable coerce : value → value → bool.

(** [docs.findIndex(obj => obj._id == id)] together with the element
    found; [None] is [-1]. *)
Definition findIndex (id : value) (docs : list doc) : option (nat * doc) :=
  list_find (λ obj : doc, Is_true (loose_eq coerce (prop obj "_id") id)) docs.

Definition dispatchAdded (st : store) (m : DDPMessage) : store * trace :=
  let c := m_collection m in
  let cols1 :=
    match collections st !! c with
    | Some docs =>
        match findIndex (m_id m) docs with
        | Some (i, _) => <[c := delete i docs]> (collections st)
        | None => collections st
        end
    | None => collections st
    end in
  let cols2 := ensure c cols1 in
  let newObj := newObj m in
  let docs := default [] (cols2 !! c) ++ [newObj] in
  let i := length docs in
  let flags := flag_fields (m_fields m) in
  let newObjFullCopy := fullCopy_doc newObj in
  (set_collections (<[c := docs]> cols2) st,
   forEach_listener (onChangeFuncs st) c
     (Envelope None (Some newObjFullCopy) None)
     (λ p, if p newObjFullCopy (i - 1) docs
           then Some (Bare {| prev := None; next := Some newObjFullCopy;
                              fields := Some flags;
                              fieldsChanged := Some newObjFullCopy;
                              fieldsRemoved := Some [];
                              predicatePassed := None |})
           else None)).

Definition dispatchChanged (st : store) (m : DDPMessage) : store * trace :=
  let c := m_collection m in
  let cols1 := ensure c (collections st) in
  let docs := default [] (cols1 !! c) in
  match findIndex (m_id m) docs with
  | Some (i, t) =>
      let prev_ := fullCopy_doc t in
      let '(flags, next_) :=
        clear_fields (default [] (m_cleared m))
                     (flag_fields (m_fields m), assign t (m_fields m)) in
      let docs' := <[i := next_]> docs in
      let fieldsChanged_ := default ∅ (m_fields m) in
      let fieldsRemoved_ := default [] (m_cleared m) in
      (set_collections (<[c := docs']> cols1) st,
       forEach_listener (onChangeFuncs st) c
         (Envelope (Some {| prev := Some prev_; next := Some (fullCopy_doc next_);
                            fields := Some flags;
                            fieldsChanged := Some fieldsChanged_;
                            fieldsRemoved := Some fieldsRemoved_;
                            predicatePassed := None |}) None None)
         (λ p, let fCopyNext := fullCopy_doc next_ in
               let prevFilter := p prev_ i docs' in
               let nextFilter := p fCopyNext i docs' in
               if prevFilter || nextFilter
               then Some (Bare {| prev := Some prev_; next := Some fCopyNext;
                                  fields := Some flags;
                                  fieldsChanged := Some fieldsChanged_;
                                  fieldsRemoved := Some fieldsRemoved_;
                                  predicatePassed := Some (prevFilter, nextFilter) |})
               else None))
  | None => dispatchAdded (set_collections cols1 st) m
  end.

Definition dispatchRemoved (st : store) (m : DDPMessage) : store * trace :=
  let c := m_collection m in
  let cols1 := ensure c (collections st) in
  let docs := default [] (cols1 !! c) in
  match findIndex (m_id m) docs with
  | Some (i, removedObj) =>
      let docs' := delete i docs in
      (set_collections (<[c := docs']> cols1) st,
       forEach_listener (onChangeFuncs st) c
         (Envelope None None (Some removedObj))
         (λ p, if p removedObj i docs'
               then Some (Bare {| prev := Some removedObj; next := None;
                                  fields := None; fieldsChanged := None;
                                  fieldsRemoved := None;
                                  predicatePassed := None |})
               else None))
  | None => (set_collections cols1 st, [])
  end.

Definition apply_diff (st : store) (d : diff) : store * trace :=
  match d with
  | Added m => dispatchAdded st m
  | Changed m => dispatchChanged st m
  | Removed m => dispatchRemoved st m
  end.

(** Diffs applied in the order of their arrival; the store that results. *)
Definition apply_diffs (st : store) (ds : list diff) : store :=
  foldl (λ st d, (apply_diff st d).1) st ds.
End Dispatch.

(** [docs.splice(i, 1)] at the first Document whose identifier [==] [id],
    if any: what [dispatchAdded] does before it appends. *)
Definition evict (coerce : value → value → bool) (id : value) (docs : list doc) : list doc :=
  match findIndex coerce id docs with
  | Some (i, _) => delete i docs
  | None => docs
  end.

(** The Document a [changed] message leaves in place of [t]. *)
Definition changedObj (m : DDPMessage) (t : doc) : doc :=
  (clear_fields (default [] (m_cleared m))
                (flag_fields (m_fields m), assign t (m_fields m))).2.

(** The change flags a [changed] message reports: 1 for a key of
    [fields], 0 for a cleared key. *)
Definition changedFlags (m : DDPMessage) (t : doc) : gmap string Z :=
  (clear_fields (default [] (m_cleared m))
                (flag_fields (m_fields m), assign t (m_fields m))).1.

(** The change object a predicate-bearing listener receives on [added]. *)
Definition addedChange (m : DDPMessage) : change :=
  {| prev := None; next := Some (fullCopy_doc (newObj m));
     fields := Some (flag_fields (m_fields m));
     fieldsChanged := Some (fullCopy_doc (newObj m));
     fieldsRemoved := Some [];
     predicatePassed := None |}.

(** The Documents of collection [c]; none when the store has no such key. *)
Definition docs_of (st : store) (c : string) : list doc :=
  default [] (collections st !! c).

(** ** The identifier invariant *)

(** The identifiers of a collection, in order. *)
Definition ids (docs : list doc) : list value := (λ d, prop d "_id") <$> docs.

(** No two Documents of the collection share an identifier, and every
    identifier belongs to the class [is_id]. *)
Definition unique_ids (is_id : value → bool) (docs : list doc) : Prop :=
  NoDup (ids docs) ∧ Forall (λ v, is_id v = true) (ids docs).

Definition store_unique (is_id : value → bool) (st : store) : Prop :=
  ∀ c docs, collections st !! c = Some docs → unique_ids is_id docs.

(** The payloads of a message leave the key ["_id"] alone. *)
Definition keeps_id (m : DDPMessage) : Prop :=
  default ∅ (m_fields m) !! "_id" = None ∧ "_id" ∉ default [] (m_cleared m).

Definition diff_message (d : diff) : DDPMessage :=
  match d with Added m | Changed m | Removed m => m end.

Definition diff_ok (is_id : value → bool) (d : diff) : Prop :=
  is_id (m_id (diff_message d)) = true ∧ keeps_id (diff_message d).

(** Identifiers that are strings, as DDP sends them. *)
Definition is_string (v : value) : bool :=
  match v with VStr _ => true | _ => false end.

(** The coercing cases of [==] never arise between strings, or between a
    string and [undefined]; the examples below fix them arbitrarily. *)
Definition no_coerce (x y : value) : bool := false.

(** [undefined] and [null], the two values that [==] [undefined]. *)
Definition nullish (v : value) : bool :=
  match v with VUndefined | VNull => true | _ => false end.

(** ** Concrete stores and messages used in the examples *)

Definition task_a : doc := {[ "_id" := VStr "a"; "title" := VStr "x" ]}.
Definition task_b : doc := {[ "_id" := VStr "b" ]}.

Definition tasks_store : store :=
  {| collections := {[ "tasks" := [task_a; task_b] ]}; onChangeFuncs := [] |}.

(** [changed] for Document "a" whose [fields] payload names ["_id"]. *)
Definition rename_a_to_b : DDPMessage :=
  {| m_collection := "tasks"; m_id := VStr "a";
     m_fields := Some {[ "_id" := VStr "b" ]}; m_cleared := None |}.

(** [changed] for Document "a" that names ["title"] in both payloads. *)
Definition set_and_clear_title : DDPMessage :=
  {| m_collection := "tasks"; m_id := VStr "a";
     m_fields := Some {[ "title" := VStr "y" ]}; m_cleared := Some ["title"] |}.

Definition retitle_a : DDPMessage :=
  {| m_collection := "tasks"; m_id := VStr "a";
     m_fields := Some {[ "title" := VStr "y"; "done" := VBool true ]};
     m_cleared := Some ["due"] |}.

Definition add_a_again : DDPMessage :=
  {| m_collection := "tasks"; m_id := VStr "a";
     m_fields := Some {[ "title" := VStr "z" ]}; m_cleared := None |}.

Definition remove_b : DDPMessage :=
  {| m_collection := "tasks"; m_id := VStr "b"; m_fields := None; m_cleared := None |}.

(** A listener without a predicate and one that watches the Documents
    titled "z", both on "tasks". *)
Definition titled_z : predicate := λ d _ _, bool_decide (prop d "title" = VStr "z").

Definition plain_listener : listener :=
  {| l_collection := "tasks"; l_filter := None |}.

Definition z_listener : listener :=
  {| l_collection := "tasks"; l_filter := Some titled_z |}.

Definition watched_store : store :=
  {| collections := {[ "tasks" := [task_a; task_b] ]};
     onChangeFuncs := [plain_listener; z_listener] |}.

(** * ddpCollection.fetch *)

(** A number that may be infinite: [skip] and [limit] "are numbers or
    Infinity". *)
Inductive num :=
| NFin (z : Z)
| PosInf
| NegInf.

(** A property declared [boolean | function] (or left undefined): [Off] is
    [false] or [undefined], [On] is [true]. *)
Inductive switch (A : Type) :=
| Off
| On
| Fn (f : A).
Arguments Off {A}.
Arguments On {A}.
Arguments Fn {A} f.

(** A call either returns or throws. *)
Inductive outcome (A : Type) :=
| Returns (a : A)
| Throws (e : string).
Arguments Returns {A} a.
Arguments Throws {A} e.

Definition comparator := doc → doc → Z.

(** [Array.prototype.filter]: the callback sees the element, its index and
    the array being filtered. *)
Definition array_filter (p : predicate) (l : list doc) : list doc :=
  omap id (imap (λ i d, if p d i l then Some d else None) l).

(** A consistent comparator, as ECMAScript defines it: it splits the
    values into classes of equals, and orders the classes. *)
Record consistent (cmp : comparator) : Prop := {
  cmp_refl : ∀ a, cmp a a = 0%Z;
  cmp_sym : ∀ a b, cmp a b = 0%Z → cmp b a = 0%Z;
  cmp_eq_trans : ∀ a b c, cmp a b = 0%Z → cmp b c = 0%Z → cmp a c = 0%Z;
  cmp_lt_trans : ∀ a b c, (cmp a b < 0)%Z → (cmp b c < 0)%Z → (cmp a c < 0)%Z;
  cmp_gt_trans : ∀ a b c, (0 < cmp a b)%Z → (0 < cmp b c)%Z → (0 < cmp a c)%Z;
}.

(** [Array.prototype.sort] with a comparator.  For a consistent comparator
    ECMAScript fixes the result: the stable sort, which is what insertion
    computes ([insert_sorted] puts [x] in front of the first element it
    does not exceed).  For a comparator that is not consistent the order
    is implementation-defined, and this definition gives one permutation
    among those an engine may return; the statements about the order of
    the result assume a consistent comparator. *)
Fixpoint insert_sorted (cmp : comparator) (x : doc) (l : list doc) : list doc :=
  match l with
  | [] => [x]
  | y :: l' => if (cmp x y <=? 0)%Z then x :: y :: l' else y :: insert_sorted cmp x l'
  end.

Definition array_sort (cmp : comparator) (l : list doc) : list doc :=
  foldr (insert_sorted cmp) [] l.

(** [Array.prototype.splice(start, deleteCount)] without inserted items, as
    ECMAScript defines it: the start is taken from the end when negative and
    clamped into the array, the count is clamped into what follows the
    start, and a missing count means "to the end".  The result is the array
    as [splice] leaves it. *)
Definition splice_start (len : nat) (start : num) : nat :=
  match start with
  | NegInf => 0
  | PosInf => len
  | NFin z => if (z <? 0)%Z then Z.to_nat (Z.max (Z.of_nat len + z) 0)
              else Z.to_nat (Z.min z (Z.of_nat len))
  end.

Definition splice_count (room : nat) (deleteCount : option num) : nat :=
  match deleteCount with
  | None => room
  | Some NegInf => 0
  | Some PosInf => room
  | Some (NFin z) => Z.to_nat (Z.min (Z.max z 0) (Z.of_nat room))
  end.

Definition splice {A} (l : list A) (start : num) (deleteCount : option num) : list A :=
  let s := splice_start (length l) start in
  let n := splice_count (length l - s) deleteCount in
  take s l ++ drop (s + n) l.

Record fetch_settings := {
  skip : option num;
  limit : option num;
  sort : switch comparator;
}.

Record ddpCollection := {
  _name : string;
  _filter : switch predicate;
  _server : store;
}.

(** The comparator or switch a call of [fetch] sorts by. *)
Definition sort_of (settings : option fetch_settings) : switch comparator :=
  match settings with Some s => sort s | None => Off end.

(** [ddpCollection.fetch(settings)].  Passing [true] where a function is
    expected makes [filter] or [sort] throw a [TypeError].
    [this._server.collections[this._name]] is modelled by the table's own
    keys: a name that is no key but that every object inherits (such as
    ["constructor"]) reads as a function in the source, and what [fetch]
    then does depends on the helper [fullCopy], which is not among the
    sources; the statements about collections that are not stored exclude
    those names. *)
Definition fetch (col : ddpCollection) (settings : option fetch_settings)
    : outcome (list doc) :=
  let skip_ := settings ≫= skip in
  let limit_ := settings ≫= limit in
  let sort_ := match settings with Some s => sort s | None => Off end in
  let collectionCopy :=
    match collections (_server col) !! _name col with
    | Some c => fullCopy_doc <$> c
    | None => []
    end in
  match _filter col with
  | On => Throws "TypeError"
  | filter_ =>
      let collectionCopy :=
        match filter_ with Fn p => array_filter p collectionCopy | _ => collectionCopy end in
      match sort_ with
      | On => Throws "TypeError"
      | _ =>
          let collectionCopy :=
            match sort_ with Fn cmp => array_sort cmp collectionCopy | _ => collectionCopy end in
          let collectionCopy :=
            match skip_ with
            | Some n => splice collectionCopy (NFin 0) (Some n)
            | None => collectionCopy
            end in
          let collectionCopy :=
            match limit_ with
            | Some n => splice collectionCopy n None
            | None => collectionCopy
            end in
          Returns collectionCopy
      end
  end.

(** The filter stage as the specification words it: the Documents for
    which the predicate holds (it sees the Document, its position and the
    whole sequence), in their order. *)
Definition matching (f : switch predicate) (l : list doc) : list doc :=
  match f with
  | Fn p => (filter (λ id : nat * doc, p id.2 id.1 l = true) (imap pair l)).*2
  | _ => l
  end.

(** The sort stage as the specification words it: [s] is [l] sorted by
    [cmp], stably.  It holds the same Documents, each is followed by one it
    does not exceed, and Documents that compare equal keep their order. *)
Definition stably_sorted (cmp : comparator) (l s : list doc) : Prop :=
  s ≡ₚ l ∧
  Sorted (λ a b, (cmp a b ≤ 0)%Z) s ∧
  ∀ x, filter (λ y, cmp x y = 0%Z) s = filter (λ y, cmp x y = 0%Z) l.

Definition in_order (s : switch comparator) (l sorted : list doc) : Prop :=
  match s with
  | Fn cmp => stably_sorted cmp l sorted
  | _ => sorted = l
  end.

(** The four stages as functions. *)
Definition keep_matching (f : switch predicate) (l : list doc) : list doc :=
  match f with Fn p => array_filter p l | _ => l end.

Definition order_by (s : switch comparator) (l : list doc) : list doc :=
  match s with Fn cmp => array_sort cmp l | _ => l end.

(** Discard the first [skip] elements, if [skip] is a number. *)
Definition discard_first (skip : option num) (l : list doc) : list doc :=
  match skip with
  | None | Some NegInf => l
  | Some PosInf => []
  | Some (NFin z) => drop (Z.to_nat z) l
  end.

(** Truncate to [limit] elements: a number, or unbounded. *)
Definition truncate_to (limit : option num) (l : list doc) : list doc :=
  match limit with
  | None | Some PosInf => l
  | Some (NFin z) => take (Z.to_nat z) l
  | Some NegInf => []
  end.

(** A [limit] that is a count of elements. *)
Definition is_count (limit : option num) : Prop :=
  match limit with
  | Some (NFin z) => (0 ≤ z)%Z
  | Some NegInf => False
  | _ => True
  end.

(** The example of the specification. *)
Definition v_docs : list doc :=
  [ {[ "id" := VNum 1; "v" := VNum 3 ]};
    {[ "id" := VNum 2; "v" := VNum 1 ]};
    {[ "id" := VNum 3; "v" := VNum 2 ]} ].

Definition num_of (x : value) : Z := match x with VNum z => z | _ => 0%Z end.

Definition ascending_by_v : comparator :=
  λ a b, (num_of (prop a "v") - num_of (prop b "v"))%Z.

Definition v_collection : ddpCollection :=
  {| _name := "vs"; _filter := Off;
     _server := {| collections := {[ "vs" := v_docs ]}; onChangeFuncs := [] |} |}.

Definition v_settings : fetch_settings :=
  {| skip := Some (NFin 1); limit := Some (NFin 1); sort := Fn ascending_by_v |}.

(** The same collection behind a filter that keeps the Documents with a
    [v] above 1. *)
Definition above_one : predicate := λ d _ _, (1 <? num_of (prop d "v"))%Z.

Definition filtered_collection : ddpCollection :=
  {| _name := "vs"; _filter := Fn above_one;
     _server := {| collections := {[ "vs" := v_docs ]}; onChangeFuncs := [] |} |}.

(** Settings with a limit of -1 and nothing else, and settings whose
    [sort] is [true]. *)
Definition all_but_last : fetch_settings :=
  {| skip := None; limit := Some (NFin (-1)); sort := Off |}.

Definition sort_true : fetch_settings :=
  {| skip := None; limit := None; sort := On |}.

(** * The client: connection, subscriptions, remote calls, bulk operations *)

(** ** The collaborators that are not among the sources *)

(** Modelled from the spec: the class [ddpSubscription]
    ([classes/ddpSubscription.js]) is not among the sources.  A Subscription
    has a name, an argument sequence and a state in {active, stopped}; it
    is created active, [start] resumes a stopped one, and starting or
    restarting asks the transport to subscribe. *)
Inductive sub_state := Active | Stopped.

Record ddpSubscription := {
  pubname : string;
  args : list value;
  status : sub_state;
}.

Definition isOn (s : ddpSubscription) : bool :=
  match status s with Active => true | Stopped => false end.

Definition isStopped (s : ddpSubscription) : bool := negb (isOn s).

(** Modelled from the spec: the transport [DDP] ([ddp/ddp]) is not among
    the sources.  Its contract: [connect()], [disconnect()],
    [method(name, args, atBeginning)] returning a fresh correlation id,
    [sub(name, args)], [emit(event, payload, tag)] to inject a synthetic
    message that is delivered later, like one of the server's, and
    [on(event, handler)], whose handlers are called in registration
    order. *)
Inductive transport_call :=
| TConnect
| TDisconnect
| TMethod (name : string) (params : list value) (atBeginning : bool)
| TSub (name : string) (params : list value).

Inductive event_name :=
| Connected | Disconnected | AddedEv | ChangedEv | RemovedEv | ResultEv | ClientReady.

#[global] Instance event_name_eq_dec : EqDecision event_name.
Proof. solve_decision. Defined.

Inductive message :=
| MDiff (m : DDPMessage)
| MResult (id : string) (error : option value) (result : value)
| MNone.

Record event := {
  ev_name : event_name;
  ev_msg : message;
  ev_tag : option string;
}.

Record DDP := {
  calls : list transport_call;  (* the requests made of the transport, oldest first *)
  nextId : nat;                 (* the next correlation id *)
  emitted : list event;         (* synthetic messages not yet delivered *)
}.

(** A future. *)
Inductive promise_state :=
| Pending
| Resolved (v : value)
| Rejected (e : value).

(** The one callback the client attaches with [then]:
    [() => { this.ddpConnection.emit('clientReady'); this.restartSubs(); }]. *)
Inductive continuation := ReadyAndRestart.

(** The closures the client registers with [on], by what they do. *)
Inductive handler :=
| OnConnected                                       (* in [connect] *)
| OnDisconnected                                    (* in [disconnect] *)
| OnTagged (uniqueId : string) (totalDocuments : nat)  (* in [clearData], [importData] *)
| OnMethodResult (methodId : string).               (* in [apply] *)

(** A registered listener.  [el_counter] is the closure's [counter];
    [el_promise] is the future whose [resolve] the closure holds, which
    also identifies the listener and its timer. *)
Record eventListener := {
  el_event : event_name;
  el_handler : handler;
  el_counter : nat;
  el_promise : nat;
}.

Record SimpleDDPConnectOptions := {
  autoConnect : option bool;
  autoReconnect : option bool;
  opt_clearDataOnReconnection : option bool;
  opt_maxTimeout : option Z;
}.

(** ** The client's state *)

Record simpleDDP := {
  _id : nat;  (* the instance number [simpleDDPcounter()] gave *)
  _opGenId : nat;  (* [idCounter] of this instance's [_opGenId] *)
  _opts : SimpleDDPConnectOptions;
  ddpConnection : DDP;
  subs : list ddpSubscription;
  data : store;  (* [collections] and [onChangeFuncs] *)
  connected : bool;
  maxTimeout : option Z;
  clearDataOnReconnection : bool;
  tryingToConnect : bool;
  tryingToDisconnect : bool;
  willTryToReconnect : bool;
  listeners : list eventListener;  (* listeners registered since the constructor, oldest first *)
  promises : list promise_state;  (* the futures handed out, by number *)
  timers : list nat;  (* the futures whose timeout is pending *)
  thens : list (nat * continuation);  (* callbacks attached with [then] *)
  microtasks : list continuation;  (* callbacks of fulfilled futures, not yet run *)
  notified : trace;  (* every call of a change listener's callback, oldest first *)
}.

Definition set_opGenId (x : nat) (c : simpleDDP) : simpleDDP :=
  {| _id := _id c; _opGenId := x; _opts := _opts c; ddpConnection := ddpConnection c;
  subs := subs c; data := data c; connected := connected c; maxTimeout := maxTimeout c;
  clearDataOnReconnection := clearDataOnReconnection c; tryingToConnect :=
  tryingToConnect c; tryingToDisconnect := tryingToDisconnect c; willTryToReconnect :=
  willTryToReconnect c; listeners := listeners c; promises := promises c; timers :=
  timers c; thens := thens c; microtasks := microtasks c; notified := notified c |}.

Definition set_ddpConnection (x : DDP) (c : simpleDDP) : simpleDDP :=
  {| _id := _id c; _opGenId := _opGenId c; _opts := _opts c; ddpConnection := x; subs :=
  subs c; data := data c; connected := connected c; maxTimeout := maxTimeout c;
  clearDataOnReconnection := clearDataOnReconnection c; tryingToConnect :=
  tryingToConnect c; tryingToDisconnect := tryingToDisconnect c; willTryToReconnect :=
  willTryToReconnect c; listeners := listeners c; promises := promises c; timers :=
  timers c; thens := thens c; microtasks := microtasks c; notified := notified c |}.

Definition set_subs (x : list ddpSubscription) (c : simpleDDP) : simpleDDP :=
  {| _id := _id c; _opGenId := _opGenId c; _opts := _opts c; ddpConnection :=
  ddpConnection c; subs := x; data := data c; connected := connected c; maxTimeout :=
  maxTimeout c; clearDataOnReconnection := clearDataOnReconnection c; tryingToConnect :=
  tryingToConnect c; tryingToDisconnect := tryingToDisconnect c; willTryToReconnect :=
  willTryToReconnect c; listeners := listeners c; promises := promises c; timers :=
  timers c; thens := thens c; microtasks := microtasks c; notified := notified c |}.

Definition set_data (x : store) (c : simpleDDP) : simpleDDP :=
  {| _id := _id c; _opGenId := _opGenId c; _opts := _opts c; ddpConnection :=
  ddpConnection c; subs := subs c; data := x; connected := connected c; maxTimeout :=
  maxTimeout c; clearDataOnReconnection := clearDataOnReconnection c; tryingToConnect :=
  tryingToConnect c; tryingToDisconnect := tryingToDisconnect c; willTryToReconnect :=
  willTryToReconnect c; listeners := listeners c; promises := promises c; timers :=
  timers c; thens := thens c; microtasks := microtasks c; notified := notified c |}.

Definition set_connected (x : bool) (c : simpleDDP) : simpleDDP :=
  {| _id := _id c; _opGenId := _opGenId c; _opts := _opts c; ddpConnection :=
  ddpConnection c; subs := subs c; data := data c; connected := x; maxTimeout :=
  maxTimeout c; clearDataOnReconnection := clearDataOnReconnection c; tryingToConnect :=
  tryingToConnect c; tryingToDisconnect := tryingToDisconnect c; willTryToReconnect :=
  willTryToReconnect c; listeners := listeners c; promises := promises c; timers :=
  timers c; thens := thens c; microtasks := microtasks c; notified := notified c |}.

Definition set_tryingToConnect (x : bool) (c : simpleDDP) : simpleDDP :=
  {| _id := _id c; _opGenId := _opGenId c; _opts := _opts c; ddpConnection :=
  ddpConnection c; subs := subs c; data := data c; connected := connected c; maxTimeout
  := maxTimeout c; clearDataOnReconnection := clearDataOnReconnection c; tryingToConnect
  := x; tryingToDisconnect := tryingToDisconnect c; willTryToReconnect :=
  willTryToReconnect c; listeners := listeners c; promises := promises c; timers :=
  timers c; thens := thens c; microtasks := microtasks c; notified := notified c |}.

Definition set_tryingToDisconnect (x : bool) (c : simpleDDP) : simpleDDP :=
  {| _id := _id c; _opGenId := _opGenId c; _opts := _opts c; ddpConnection :=
  ddpConnection c; subs := subs c; data := data c; connected := connected c; maxTimeout
  := maxTimeout c; clearDataOnReconnection := clearDataOnReconnection c; tryingToConnect
  := tryingToConnect c; tryingToDisconnect := x; willTryToReconnect :=
  willTryToReconnect c; listeners := listeners c; promises := promises c; timers :=
  timers c; thens := thens c; microtasks := microtasks c; notified := notified c |}.

Definition set_willTryToReconnect (x : bool) (c : simpleDDP) : simpleDDP :=
  {| _id := _id c; _opGenId := _opGenId c; _opts := _opts c; ddpConnection :=
  ddpConnection c; subs := subs c; data := data c; connected := connected c; maxTimeout
  := maxTimeout c; clearDataOnReconnection := clearDataOnReconnection c; tryingToConnect
  := tryingToConnect c; tryingToDisconnect := tryingToDisconnect c; willTryToReconnect
  := x; listeners := listeners c; promises := promises c; timers := timers c; thens :=
  thens c; microtasks := microtasks c; notified := notified c |}.

Definition set_listeners (x : list eventListener) (c : simpleDDP) : simpleDDP :=
  {| _id := _id c; _opGenId := _opGenId c; _opts := _opts c; ddpConnection :=
  ddpConnection c; subs := subs c; data := data c; connected := connected c; maxTimeout
  := maxTimeout c; clearDataOnReconnection := clearDataOnReconnection c; tryingToConnect
  := tryingToConnect c; tryingToDisconnect := tryingToDisconnect c; willTryToReconnect
  := willTryToReconnect c; listeners := x; promises := promises c; timers := timers c;
  thens := thens c; microtasks := microtasks c; notified := notified c |}.

Definition set_promises (x : list promise_state) (c : simpleDDP) : simpleDDP :=
  {| _id := _id c; _opGenId := _opGenId c; _opts := _opts c; ddpConnection :=
  ddpConnection c; subs := subs c; data := data c; connected := connected c; maxTimeout
  := maxTimeout c; clearDataOnReconnection := clearDataOnReconnection c; tryingToConnect
  := tryingToConnect c; tryingToDisconnect := tryingToDisconnect c; willTryToReconnect
  := willTryToReconnect c; listeners := listeners c; promises := x; timers := timers c;
  thens := thens c; microtasks := microtasks c; notified := notified c |}.

Definition set_timers (x : list nat) (c : simpleDDP) : simpleDDP :=
  {| _id := _id c; _opGenId := _opGenId c; _opts := _opts c; ddpConnection :=
  ddpConnection c; subs := subs c; data := data c; connected := connected c; maxTimeout
  := maxTimeout c; clearDataOnReconnection := clearDataOnReconnection c; tryingToConnect
  := tryingToConnect c; tryingToDisconnect := tryingToDisconnect c; willTryToReconnect
  := willTryToReconnect c; listeners := listeners c; promises := promises c; timers :=
  x; thens := thens c; microtasks := microtasks c; notified := notified c |}.

Definition set_thens (x : list (nat * continuation)) (c : simpleDDP) : simpleDDP :=
  {| _id := _id c; _opGenId := _opGenId c; _opts := _opts c; ddpConnection :=
  ddpConnection c; subs := subs c; data := data c; connected := connected c; maxTimeout
  := maxTimeout c; clearDataOnReconnection := clearDataOnReconnection c; tryingToConnect
  := tryingToConnect c; tryingToDisconnect := tryingToDisconnect c; willTryToReconnect
  := willTryToReconnect c; listeners := listeners c; promises := promises c; timers :=
  timers c; thens := x; microtasks := microtasks c; notified := notified c |}.

Definition set_microtasks (x : list continuation) (c : simpleDDP) : simpleDDP :=
  {| _id := _id c; _opGenId := _opGenId c; _opts := _opts c; ddpConnection :=
  ddpConnection c; subs := subs c; data := data c; connected := connected c; maxTimeout
  := maxTimeout c; clearDataOnReconnection := clearDataOnReconnection c; tryingToConnect
  := tryingToConnect c; tryingToDisconnect := tryingToDisconnect c; willTryToReconnect
  := willTryToReconnect c; listeners := listeners c; promises := promises c; timers :=
  timers c; thens := thens c; microtasks := x; notified := notified c |}.

Definition set_notified (x : trace) (c : simpleDDP) : simpleDDP :=
  {| _id := _id c; _opGenId := _opGenId c; _opts := _opts c; ddpConnection :=
  ddpConnection c; subs := subs c; data := data c; connected := connected c; maxTimeout
  := maxTimeout c; clearDataOnReconnection := clearDataOnReconnection c; tryingToConnect
  := tryingToConnect c; tryingToDisconnect := tryingToDisconnect c; willTryToReconnect
  := willTryToReconnect c; listeners := listeners c; promises := promises c; timers :=
  timers c; thens := thens c; microtasks := microtasks c; notified := x |}.

(** [new simpleDDP(opts)], as instance number [n]. *)
Definition construct (n : nat) (opts : SimpleDDPConnectOptions) : simpleDDP :=
  {| _id := n; _opGenId := 0; _opts := opts;
     ddpConnection := {| calls := []; nextId := 0; emitted := [] |};
     subs := [];
     data := {| collections := ∅; onChangeFuncs := [] |};
     connected := false;
     maxTimeout := opt_maxTimeout opts;
     clearDataOnReconnection := default true (opt_clearDataOnReconnection opts);
     tryingToConnect := default true (autoConnect opts);
     tryingToDisconnect := false;
     willTryToReconnect := default true (autoReconnect opts);
     listeners := []; promises := []; timers := []; thens := [];
     microtasks := []; notified := [] |}.

(** ** Futures, listeners, timers, the transport *)

Definition truthy (t : option Z) : bool :=
  match t with Some z => negb (z =? 0)%Z | None => false end.

(** [new Promise(...)]: a fresh pending future and its number. *)
Definition new_promise (c : simpleDDP) : simpleDDP * nat :=
  (set_promises (promises c ++ [Pending]) c, length (promises c)).

(** [resolve]/[reject]: a future settles once; when it is fulfilled the
    callbacks attached to it become microtasks. *)
Definition settle (p : nat) (s : promise_state) (c : simpleDDP) : simpleDDP :=
  match promises c !! p with
  | Some Pending =>
      let c := set_promises (<[p := s]> (promises c)) c in
      match s with
      | Resolved _ =>
          set_thens (filter (λ pk, pk.1 ≠ p) (thens c))
            (set_microtasks
               (microtasks c ++ (filter (λ pk, pk.1 = p) (thens c)).*2) c)
      | _ => c
      end
  | _ => c
  end.

Definition resolve (p : nat) (c : simpleDDP) : simpleDDP := settle p (Resolved VUndefined) c.

Definition MAX_TIMEOUT_REACHED : value := VStr "MAX_TIMEOUT_REACHED".

(** [promise.then(k)]. *)
Definition then_ (p : nat) (k : continuation) (c : simpleDDP) : simpleDDP :=
  match promises c !! p with
  | Some Pending => set_thens (thens c ++ [(p, k)]) c
  | Some (Resolved _) => set_microtasks (microtasks c ++ [k]) c
  | _ => c
  end.

(** Modelled from the spec: [on(event, f)] goes through [ddpEventListener]
    ([classes/ddpEventListener.js]), which is not among the sources; it
    registers [f] with the transport, after the listeners already there,
    and returns a handle with [stop()].  Here: for the closure of future
    [p]. *)
Definition on (e : event_name) (h : handler) (p : nat) (c : simpleDDP) : simpleDDP :=
  set_listeners
    (listeners c ++ [ {| el_event := e; el_handler := h; el_counter := 0; el_promise := p |} ]) c.

(** [listener.stop()] / [removeListener]. *)
Definition stop (p : nat) (c : simpleDDP) : simpleDDP :=
  set_listeners (filter (λ el, el_promise el ≠ p) (listeners c)) c.

Definition setTimeout (p : nat) (c : simpleDDP) : simpleDDP := set_timers (timers c ++ [p]) c.

Definition clearTimeout (p : nat) (c : simpleDDP) : simpleDDP :=
  set_timers (filter (λ q, q ≠ p) (timers c)) c.

Definition request (t : transport_call) (c : simpleDDP) : simpleDDP :=
  set_ddpConnection
    {| calls := calls (ddpConnection c) ++ [t]; nextId := nextId (ddpConnection c);
       emitted := emitted (ddpConnection c) |} c.

(** [ddpConnection.method(name, args, atBeginning)]: the request and the
    correlation id of the call. *)
Definition method (name : string) (params : list value) (atBeginning : bool)
    (c : simpleDDP) : simpleDDP * string :=
  (set_ddpConnection
     {| calls := calls (ddpConnection c) ++ [TMethod name params atBeginning];
        nextId := S (nextId (ddpConnection c));
        emitted := emitted (ddpConnection c) |} c,
   pretty (nextId (ddpConnection c))).

(** [ddpConnection.emit(event, payload, tag)]. *)
Definition emit (e : event) (c : simpleDDP) : simpleDDP :=
  set_ddpConnection
    {| calls := calls (ddpConnection c); nextId := nextId (ddpConnection c);
       emitted := emitted (ddpConnection c) ++ [e] |} c.

(** [this._id + "-" + this._opGenId()]: the tag, and the counter moved on. *)
Definition uniqueId (c : simpleDDP) : simpleDDP * string :=
  (set_opGenId (S (_opGenId c)) c, pretty (_id c) +:+ "-" +:+ pretty (_opGenId c)).

(** ** The public operations *)

(** [connect()]: the state it leaves and the future it returns. *)
Definition connect (c : simpleDDP) : simpleDDP * nat :=
  let c := set_willTryToReconnect (default true (autoReconnect (_opts c))) c in
  let '(c, p) := new_promise c in
  let c := if negb (tryingToConnect c)
           then set_tryingToConnect true (request TConnect c)
           else c in
  if negb (connected c) then
    let c := on Connected OnConnected p c in
    let c := if truthy (maxTimeout c) then setTimeout p c else c in
    (c, p)
  else (resolve p c, p).

(** [disconnect()]. *)
Definition disconnect (c : simpleDDP) : simpleDDP * nat :=
  let c := set_willTryToReconnect false c in
  let '(c, p) := new_promise c in
  let c := if negb (tryingToDisconnect c)
           then set_tryingToDisconnect true (request TDisconnect c)
           else c in
  if connected c then (on Disconnected OnDisconnected p c, p)
  else (resolve p c, p).

(** [apply(method, args, atBeginning)]; [params] is [None] when [args] is
    not given. *)
Definition apply (name : string) (params : option (list value)) (atBeginning : bool)
    (c : simpleDDP) : simpleDDP * nat :=
  let '(c, p) := new_promise c in
  let '(c, methodId) := method name (default [] params) atBeginning c in
  let c := on ResultEv (OnMethodResult methodId) p c in
  let c := if truthy (maxTimeout c) then setTimeout p c else c in
  (c, p).

(** [s.start()] on a Subscription: it is active afterwards. *)
Definition activate (s : ddpSubscription) : ddpSubscription :=
  {| pubname := pubname s; args := args s; status := Active |}.

(** [Array.isArray(args) ? args : []]. *)
Definition array_or_empty (a : value) : list value :=
  match a with VArr items => items | _ => [] end.

Section Subscriptions.
(** The helper [isEqual] ([helpers/isEqual.js]) is not among the sources;
    it is a parameter here. *)
Variable isEqual : list value → list value → bool.

(** [sub(pubname, args)]: the state it leaves and the Subscription it
    returns, named by its position in [subs] (every element of [subs] is
    an object of its own, made by one [new]). *)
Definition same_sub (name : string) (a : value) (s : ddpSubscription) : bool :=
  bool_decide (pubname s = name) && isEqual (args s) (array_or_empty a).

Definition sub (name : string) (a : value) (c : simpleDDP) : simpleDDP * nat :=
  let '(c, k) := apply "foo" (Some [VNum 123; VNum 2]) false c in
  match list_find (λ s, Is_true (same_sub name a s)) (subs c) with
  | None =>
      let s := {| pubname := name; args := array_or_empty a; status := Active |} in
      let c := request (TSub name (array_or_empty a)) c in
      let c := set_subs (subs c ++ [s]) c in
      (c, length (subs c) - 1)
  | Some (i, hasSuchSub) =>
      if isStopped hasSuchSub
      then (set_subs (<[i := activate hasSuchSub]> (subs c))
              (request (TSub (pubname hasSuchSub) (args hasSuchSub)) c), i)
      else (c, i)
  end.

(** [subscribe(pubname, ...args)]. *)
Definition subscribe (name : string) (a : list value) (c : simpleDDP) : simpleDDP * nat :=
  sub name (VArr a) c.
End Subscriptions.

(** [restartSubs()]: every Subscription that is on asks the transport to
    subscribe again ([restart] is modelled from the spec, see
    [ddpSubscription]). *)
Definition restartSubs (c : simpleDDP) : simpleDDP :=
  foldl (λ c s, if isOn s then request (TSub (pubname s) (args s)) c else c) c (subs c).

(** The [removed] message [clearData] makes for a stored Document. *)
Definition removed_message (collection : string) (d : doc) : DDPMessage :=
  {| m_collection := collection; m_id := prop d "id"; m_fields := None; m_cleared := None |}.

(** The [added] message [importData] makes for a Document of the data. *)
Definition added_message (collection : string) (d : doc) : DDPMessage :=
  {| m_collection := collection; m_id := prop d "id";
     m_fields := Some (delete "id" d); m_cleared := None |}.

(** One message per Document, collection by collection:
    [Object.keys(cs).forEach(collection => cs[collection].forEach(doc => ...))]. *)
Definition bulk_messages (make : string → doc → DDPMessage)
    (cs : list (string * list doc)) : list DDPMessage :=
  cs ≫= λ '(collection, docs), make collection <$> docs.

Definition tagged_event (e : event_name) (tag : string) (m : DDPMessage) : event :=
  {| ev_name := e; ev_msg := MDiff m; ev_tag := Some tag |}.

Definition bulk_events (e : event_name) (make : string → doc → DDPMessage)
    (tag : string) (cs : list (string * list doc)) : list event :=
  tagged_event e tag <$> bulk_messages make cs.

Definition totalDocuments (cs : list (string * list doc)) : nat :=
  foldl (λ n cd, n + length cd.2) 0 cs.

(** [clearData()].  [Object.keys(this.collections)] enumerates the
    collections in the order in which they were created, which the table
    does not record; [map_to_list] stands for it.  The messages of one
    collection are in the order of its Documents; across collections the
    order of the messages may differ from the source's, and no statement
    depends on it. *)
Definition clearData (c : simpleDDP) : simpleDDP * nat :=
  let '(c, p) := new_promise c in
  let cs := map_to_list (collections (data c)) in
  let total := totalDocuments cs in
  if Nat.eqb total 0 then (resolve p c, p)
  else
    let '(c, tag) := uniqueId c in
    let c := on RemovedEv (OnTagged tag total) p c in
    (foldl (λ c e, emit e c) c (bulk_events RemovedEv removed_message tag cs), p).

(** A data set: collection names with their Document arrays, in the order
    of [Object.keys]. *)
Abbreviation dataset := (list (string * list doc)).

Section BulkImport.
(** [EJSON.parse]; [None] when it throws. *)
Variable EJSON_parse : string → option dataset.

(** [importData(data)], [data] a text or a raw mapping.  An exception in
    the executor rejects the future. *)
Definition importData (data_ : string + dataset) (c : simpleDDP) : simpleDDP * nat :=
  let '(c, p) := new_promise c in
  match (match data_ with inl s => EJSON_parse s | inr d => Some d end) with
  | None => (settle p (Rejected (VStr "SyntaxError")) c, p)
  | Some cs =>
      let total := totalDocuments cs in
      let '(c, tag) := uniqueId c in
      let c := on AddedEv (OnTagged tag total) p c in
      (foldl (λ c e, emit e c) c (bulk_events AddedEv added_message tag cs), p)
  end.
End BulkImport.

(** ** Delivery of an event *)

Definition run_continuation (k : continuation) (c : simpleDDP) : simpleDDP :=
  match k with
  | ReadyAndRestart =>
      restartSubs (emit {| ev_name := ClientReady; ev_msg := MNone; ev_tag := None |} c)
  end.

(** The microtasks queued by the handlers run when the handlers are done. *)
Definition run_microtasks (c : simpleDDP) : simpleDDP :=
  foldl (λ c k, run_continuation k c) (set_microtasks [] c) (microtasks c).

(** [ToBoolean]: what [!x] and [if (x)] make of a value.  (The numbers of
    the model are integers, so [NaN] does not occur.) *)
Definition to_boolean (v : value) : bool :=
  match v with
  | VUndefined | VNull => false
  | VBool b => b
  | VNum z => negb (z =? 0)%Z
  | VStr s => negb (bool_decide (s = ""))
  | VArr _ | VObj _ => true
  end.

(** The closure of future [p] sets its [counter] to [n]. *)
Definition recount (p n : nat) (el : eventListener) : eventListener :=
  if bool_decide (el_promise el = p)
  then {| el_event := el_event el; el_handler := el_handler el;
          el_counter := n; el_promise := p |}
  else el.

Definition set_counter (p n : nat) (c : simpleDDP) : simpleDDP :=
  set_listeners (recount p n <$> listeners c) c.

(** What the closure of future [p] does with event [e], if it is still
    registered and [e] is its event. *)
Definition run_listener (e : event) (c : simpleDDP) (p : nat) : simpleDDP :=
  match list_find (λ el, el_promise el = p) (listeners c) with
  | Some (_, el) =>
      if bool_decide (el_event el = ev_name e) then
        match el_handler el with
        | OnConnected =>
            resolve p (set_tryingToConnect false (stop p (clearTimeout p c)))
        | OnDisconnected =>
            resolve p (set_tryingToDisconnect false (stop p c))
        | OnTagged tag total =>
            if bool_decide (ev_tag e = Some tag) then
              let counter := S (el_counter el) in
              let c := set_counter p counter c in
              if Nat.eqb counter total then resolve p (stop p c) else c
            else c
        | OnMethodResult methodId =>
            match ev_msg e with
            | MResult id error result =>
                if bool_decide (id = methodId) then
                  let c := clearTimeout p c in
                  let c := match error with
                           | Some err =>
                               if to_boolean err then settle p (Rejected err) c
                               else settle p (Resolved result) c
                           | None => settle p (Resolved result) c
                           end in
                  stop p c
                else c
            | _ => c
            end
        end
      else c
  | None => c
  end.

Section Deliver.
Variable coerce : value → value → bool.

Definition dispatch (f : store → DDPMessage → store * trace) (m : message)
    (c : simpleDDP) : simpleDDP :=
  match m with
  | MDiff m =>
      let '(st, tr) := f (data c) m in
      set_notified (notified c ++ tr) (set_data st c)
  | _ => c
  end.

(** The listeners the constructor registers, in its order. *)
Definition constructor_listeners (e : event) (c : simpleDDP) : simpleDDP :=
  match ev_name e with
  | Connected =>
      let c := set_tryingToConnect false (set_connected true c) in
      if clearDataOnReconnection c then
        let '(c, p) := clearData c in then_ p ReadyAndRestart c
      else run_continuation ReadyAndRestart c
  | Disconnected =>
      set_tryingToConnect (willTryToReconnect c)
        (set_tryingToDisconnect false (set_connected false c))
  | AddedEv => dispatch (dispatchAdded coerce) (ev_msg e) c
  | ChangedEv => dispatch (dispatchChanged coerce) (ev_msg e) c
  | RemovedEv => dispatch (dispatchRemoved coerce) (ev_msg e) c
  | _ => c
  end.

(** Modelled from the spec: the event emitter of the transport is not
    among the sources.  The transport delivers event [e] to the listeners
    in registration order: the constructor's, then those registered since
    (as they stood when the delivery began); the microtasks run when the
    listeners are done. *)
Definition deliver (c : simpleDDP) (e : event) : simpleDDP :=
  let snapshot := el_promise <$> listeners c in
  let c := constructor_listeners e c in
  let c := foldl (run_listener e) c snapshot in
  run_microtasks c.

Definition deliver_all (c : simpleDDP) (es : list event) : simpleDDP :=
  foldl deliver c es.

(** Modelled from the spec: the synthetic messages queued by [emit] come
    back as events, oldest first. *)
Definition take_emitted (c : simpleDDP) : simpleDDP * list event :=
  (set_ddpConnection
     {| calls := calls (ddpConnection c); nextId := nextId (ddpConnection c);
        emitted := [] |} c,
   emitted (ddpConnection c)).

Definition deliver_emitted (c : simpleDDP) : simpleDDP :=
  let '(c, es) := take_emitted c in deliver_all c es.
End Deliver.

(** The dispatcher the constructor registers for an event, if it is a diff. *)
Definition dispatcher (coerce : value → value → bool) (n : event_name)
    : option (store → DDPMessage → store * trace) :=
  match n with
  | AddedEv => Some (dispatchAdded coerce)
  | ChangedEv => Some (dispatchChanged coerce)
  | RemovedEv => Some (dispatchRemoved coerce)
  | _ => None
  end.

(** An added, changed or removed event that carries a diff message. *)
Definition is_diff_event (e : event) : Prop :=
  (ev_name e = AddedEv ∨ ev_name e = ChangedEv ∨ ev_name e = RemovedEv) ∧
  ∃ m, ev_msg e = MDiff m.

(** The listener a bulk operation registers, when its closure's counter
    stands at [k]. *)
Definition tagged_listener (n : event_name) (tag : string) (total k p : nat)
    : eventListener :=
  {| el_event := n; el_handler := OnTagged tag total; el_counter := k; el_promise := p |}.

(** What belongs to future [p]: its listeners and its state. *)
Definition mine (p : nat) (c : simpleDDP) : list eventListener * option promise_state :=
  (filter (λ el, el_promise el = p) (listeners c), promises c !! p).

(** Event [e] is a notification of kind [n] tagged [tag]. *)
Definition is_tagged (n : event_name) (tag : string) (e : event) : Prop :=
  ev_name e = n ∧ ev_tag e = Some tag.

#[global] Instance is_tagged_dec n tag e : Decision (is_tagged n tag e).
Proof. unfold is_tagged. apply _. Defined.

Definition tagged_count (n : event_name) (tag : string) (es : list event) : nat :=
  length (filter (is_tagged n tag) es).

(** What the counting listener of future [p] makes of an event. *)
Definition counted (n : event_name) (tag : string) (total k p : nat) (e : event)
    : list eventListener * option promise_state :=
  if decide (is_tagged n tag e) then
    if decide (S k = total) then ([], Some (Resolved VUndefined))
    else ([tagged_listener n tag total (S k) p], Some Pending)
  else ([tagged_listener n tag total k p], Some Pending).

(** Every registered listener belongs to a future already handed out. *)
Definition listeners_known (c : simpleDDP) : Prop :=
  Forall (λ el, el_promise el < length (promises c)) (listeners c).

(** The timeout of future [p] fires. *)
Definition fire_timeout (p : nat) (c : simpleDDP) : simpleDDP :=
  if bool_decide (p ∈ timers c) then
    let c := clearTimeout p c in
    match list_find (λ el, el_promise el = p) (listeners c) with
    | Some (_, el) =>
        match el_handler el with
        | OnConnected =>
            settle p (Rejected MAX_TIMEOUT_REACHED)
                   (set_tryingToConnect false (stop p c))
        | OnMethodResult _ =>
            settle p (Rejected MAX_TIMEOUT_REACHED) (stop p c)
        | _ => c
        end
    | None => c
    end
  else c.

(** ** Concrete clients used in the examples *)

(** Deep equality as structural equality of the argument sequences. *)
Definition structural_eq (a b : list value) : bool := bool_decide (a = b).

Definition default_opts : SimpleDDPConnectOptions :=
  {| autoConnect := None; autoReconnect := None;
     opt_clearDataOnReconnection := None; opt_maxTimeout := None |}.

Definition connected_event : event :=
  {| ev_name := Connected; ev_msg := MNone; ev_tag := None |}.

(** A client as the constructor leaves it, and the same once the transport
    has reported the connection and the [clientReady] event this sets off
    has come back. *)
Definition fresh_client : simpleDDP := construct 0 default_opts.

Definition online_client : simpleDDP :=
  deliver_emitted no_coerce (deliver no_coerce fresh_client connected_event).

Definition added_event (m : DDPMessage) : event :=
  {| ev_name := AddedEv; ev_msg := MDiff m; ev_tag := None |}.

(** The online client after the server has published Documents "a" and "b"
    of "tasks". *)
Definition stocked_client : simpleDDP :=
  deliver_all no_coerce online_client
    [ added_event {| m_collection := "tasks"; m_id := VStr "a";
                     m_fields := Some {[ "title" := VStr "x" ]}; m_cleared := None |};
      added_event {| m_collection := "tasks"; m_id := VStr "b";
                     m_fields := None; m_cleared := None |} ].

(** A data set of one collection with one Document. *)
Definition task_c : doc := {[ "id" := VStr "c"; "title" := VStr "t" ]}.

Definition tasks_data : dataset := [ ("tasks", [task_c]) ].

(** A decoder that accepts nothing: the examples import raw mappings. *)
Definition no_parse (s : string) : option dataset := None.

(** * Further operations of the two classes *)

(** [stopChangeListeners()]: [this.onChangeFuncs = []]. *)
Definition stopChangeListeners (st : store) : store :=
  {| collections := collections st; onChangeFuncs := [] |}.

(** A [removed] message for the Document an [added] message brought. *)
Definition removal_of (m : DDPMessage) : DDPMessage :=
  {| m_collection := m_collection m; m_id := m_id m; m_fields := None; m_cleared := None |}.

(** A [removed] message for a Document nobody has. *)
Definition remove_z : DDPMessage :=
  {| m_collection := "tasks"; m_id := VStr "z"; m_fields := None; m_cleared := None |}.

(** A [changed] message for a Document nobody has. *)
Definition change_z : DDPMessage :=
  {| m_collection := "tasks"; m_id := VStr "z";
     m_fields := Some {[ "title" := VStr "new" ]}; m_cleared := Some ["due"] |}.

(** The property names a plain object inherits from [Object.prototype]:
    [o[name]] for such a name is not [undefined] even when [o] has no key
    [name] of its own. *)
Definition inherited (name : string) : bool :=
  bool_decide (name ∈ [ "constructor"; "hasOwnProperty"; "isPrototypeOf";
                        "propertyIsEnumerable"; "toLocaleString"; "toString";
                        "valueOf"; "__proto__"; "__defineGetter__";
                        "__defineSetter__"; "__lookupGetter__"; "__lookupSetter__" ]).

(** [o[name]] is decided by the keys of [o] itself: [name] is one of them,
    or a name no object inherits. *)
Definition own_lookup {A} (o : gmap string A) (name : string) : Prop :=
  is_Some (o !! name) ∨ inherited name = false.

(** A collection the server has never published. *)
Definition unknown_collection : ddpCollection :=
  {| _name := "nothing"; _filter := Off;
     _server := {| collections := {[ "vs" := v_docs ]}; onChangeFuncs := [] |} |}.

(** What belongs to future [p], with its timer: [mine] and whether the
    timeout of [p] is still pending. *)
Definition owned (p : nat) (c : simpleDDP)
    : (list eventListener * option promise_state) * bool :=
  (mine p c, bool_decide (p ∈ timers c)).

Definition disconnected_event : event :=
  {| ev_name := Disconnected; ev_msg := MNone; ev_tag := None |}.

(** A [result] message of the server. *)
Definition result_event (id : string) (error : option value) (result : value) : event :=
  {| ev_name := ResultEv; ev_msg := MResult id error result; ev_tag := None |}.

(** How a result message settles the future of a call: [!message.error]
    decides, so an error that is [0], the empty text, [false] or [null]
    counts as none. *)
Definition outcome_of (error : option value) (result : value) : promise_state :=
  match error with
  | Some err => if to_boolean err then Rejected err else Resolved result
  | None => Resolved result
  end.

(** A client configured with a maximum wait of 5000. *)
Definition timed_opts : SimpleDDPConnectOptions :=
  {| autoConnect := Some false; autoReconnect := None;
     opt_clearDataOnReconnection := None; opt_maxTimeout := Some 5000%Z |}.

Definition timed_client : simpleDDP := construct 1 timed_opts.

(** The listeners [connect], [disconnect] and [apply] register for the
    future [p]. *)
Definition connectionHandler (p : nat) : eventListener :=
  {| el_event := Connected; el_handler := OnConnected; el_counter := 0; el_promise := p |}.

Definition disconnectionHandler (p : nat) : eventListener :=
  {| el_event := Disconnected; el_handler := OnDisconnected; el_counter := 0;
     el_promise := p |}.

Definition onMethodResult (methodId : string) (p : nat) : eventListener :=
  {| el_event := ResultEv; el_handler := OnMethodResult methodId; el_counter := 0;
     el_promise := p |}.

(** What an event does to the pending future of the call [methodId]. *)
Definition answer (methodId : string) (e : event) : promise_state :=
  match ev_name e, ev_msg e with
  | ResultEv, MResult id error result =>
      if bool_decide (id = methodId) then outcome_of error result else Pending
  | _, _ => Pending
  end.

Definition removed_event (m : DDPMessage) : event :=
  {| ev_name := RemovedEv; ev_msg := MDiff m; ev_tag := None |}.

(** The online client after Document "a" of "tasks" has been published and
    withdrawn: the collection is there, and empty. *)
Definition emptied_client : simpleDDP :=
  deliver_all no_coerce online_client
    [ added_event {| m_collection := "tasks"; m_id := VStr "a";
                     m_fields := None; m_cleared := None |};
      removed_event {| m_collection := "tasks"; m_id := VStr "a";
                       m_fields := None; m_cleared := None |} ].

(** The character "-" (code 45), and a text without it. *)
Definition dash : Ascii.ascii := Ascii.Ascii true false true true false true false false.

Fixpoint dashless (s : string) : bool :=
  match s with
  | EmptyString => true
  | String a s => negb (Ascii.eqb a dash) && dashless s
  end.

(** The data set without Documents: one collection, empty. *)
Definition no_documents : dataset := [ ("tasks", []) ].

(** ** exportData *)

(** What [exportData] returns: an EJSON text, a raw mapping, or nothing
    ([undefined]) for a format it does not know. *)
Inductive exported :=
| ExString (s : string)
| ExRaw (cs : gmap string (list doc))
| ExUndefined.

Section Exporting.
(** [EJSON.stringify]. *)
Variable EJSON_stringify : gmap string (list doc) → string.

(** [simpleDDP.exportData(format)]; [format] is [None] when not given. *)
Definition exportData (format : option string) (c : simpleDDP) : exported :=
  if bool_decide (format = None ∨ format = Some "string")
  then ExString (EJSON_stringify (collections (data c)))
  else if bool_decide (format = Some "raw")
  then ExRaw ((λ docs : list doc, fullCopy_doc <$> docs) <$> collections (data c))
  else ExUndefined.
End Exporting.

(** The Documents a data set holds for collection [col], in the order in
    which a bulk operation goes through them. *)
Definition imported (cs : dataset) (col : string) : list doc :=
  cs ≫= λ '(c, docs), if decide (c = col) then docs else [].

(** A Document as the dispatchers store it: identified under ["_id"], and
    without a key ["id"]. *)
Definition stored_shape (d : doc) : Prop :=
  d !! "id" = None ∧ nullish (prop d "_id") = false.

(** ** ddpCollection.importData and ddpCollection.exportData *)

Module Collection.

(** [!this._filter || (this._filter && typeof this._filter === 'function'
    && this._filter(doc, i, arr))]. *)
Definition passes (f : switch predicate) (d : doc) (i : nat) (arr : list doc) : bool :=
  match f with
  | Off => true
  | On => false
  | Fn p => p d i arr
  end.

(** [this.ddpConnection.emit(...)] in [ddpCollection]: the class declares
    the field [ddpConnection] and assigns it nowhere (the constructor sets
    [_name] and [_server] only), so the field reads as [undefined] and the
    property access throws a [TypeError] before the message is built. *)
Definition ddpConnection_emit : outcome unit := Throws "TypeError".

(** [arr.forEach(callback)] with a callback that may throw: the elements in
    order, up to the first that throws. *)
Fixpoint forEach (callback : doc → nat → outcome unit) (i : nat) (arr : list doc)
    : outcome unit :=
  match arr with
  | [] => Returns tt
  | d :: rest =>
      match callback d i with
      | Throws e => Throws e
      | Returns _ => forEach callback (S i) rest
      end
  end.

Section Importing.
(** [EJSON.parse]; [None] when it throws. *)
Variable EJSON_parse : string → option (gmap string (list doc)).

(** [ddpCollection.importData(data)].  [c[this._name]] goes through the
    prototype chain of the data: under a name that is no key of [c] but
    that every object inherits it is a function (or [Object.prototype]),
    which is truthy and has no [forEach], so the call throws a
    [TypeError]; under any other name that is no key it is [undefined]. *)
Definition importData (data_ : string + gmap string (list doc)) (col : ddpCollection)
    : outcome unit :=
  match (match data_ with inl s => EJSON_parse s | inr d => Some d end) with
  | None => Throws "SyntaxError"
  | Some c =>
      match c !! _name col with
      | Some arr =>
          forEach (λ d i, if passes (_filter col) d i arr
                          then ddpConnection_emit else Returns tt) 0 arr
      | None => if inherited (_name col) then Throws "TypeError" else Returns tt
      end
  end.
End Importing.

Section Exporting.
Variable EJSON_stringify : gmap string (list doc) → string.

(** [ddpCollection.exportData(format)]: [fetch()] runs first, whatever the
    format. *)
Definition exportData (format : option string) (col : ddpCollection) : outcome exported :=
  match fetch col None with
  | Throws e => Throws e
  | Returns docs =>
      let collectionCopy : gmap string (list doc) := {[ _name col := docs ]} in
      Returns (if bool_decide (format = None ∨ format = Some "string")
               then ExString (EJSON_stringify collectionCopy)
               else if bool_decide (format = Some "raw")
               then ExRaw collectionCopy
               else ExUndefined)
  end.
End Exporting.

End Collection.

(** A collection handle on the stocked client's store that lets every
    Document pass, and a data set for it. *)
Definition tasks_collection : ddpCollection :=
  {| _name := "tasks"; _filter := Off; _server := data stocked_client |}.

Definition tasks_import : gmap string (list doc) :=
  {[ "tasks" := [ {[ "id" := VStr "c"; "fields" := VObj [("title", VStr "t")] ]} ] ]}.

Definition no_parse_map (s : string) : option (gmap string (list doc)) := None.

Definition no_stringify (cs : gmap string (list doc)) : string := "".

(** * Properties *)

(** ** Deep copies and lookups *)

Lemma fullCopy_id (v : value) : fullCopy v = v.
Proof.
  induction v as [ | | b | n | s | xs IH | ps IH] using value_ind_nested;
    simpl; try reflexivity; f_equal.
  - induction IH as [|x xs Hx _ IHxs]; simpl; [done | by rewrite Hx, IHxs].
  - induction IH as [|[k x] ps Hx _ IHps]; simpl; [done|].
    simpl in Hx. by rewrite Hx, IHps.
Qed.

(** In a model of values a deep copy is the value itself: what the copy
    buys in the source is that later mutation of one does not show in the
    other. *)
Lemma fullCopy_doc_id (d : doc) : fullCopy_doc d = d.
Proof.
  unfold fullCopy_doc. apply map_eq. intros k.
  rewrite lookup_fmap. destruct (d !! k); simpl; [by rewrite fullCopy_id | done].
Qed.

Section FindIndex.
Variable coerce : value → value → bool.

Lemma findIndex_Some id docs i t :
  findIndex coerce id docs = Some (i, t) ↔
  docs !! i = Some t ∧ loose_eq coerce (prop t "_id") id = true ∧
  ∀ j y, docs !! j = Some y → j < i → loose_eq coerce (prop y "_id") id = false.
Proof.
  unfold findIndex. rewrite list_find_Some. split.
  - intros (Hi & Ht & Hlt). split; [done|]. split; [by apply Is_true_true|].
    intros j y Hj Hji. specialize (Hlt j y Hj Hji).
    destruct (loose_eq coerce (prop y "_id") id); [by destruct Hlt | done].
  - intros (Hi & Ht & Hlt). split; [done|]. split; [by apply Is_true_true|].
    intros j y Hj Hji. rewrite (Hlt j y Hj Hji). simpl. tauto.
Qed.

Lemma findIndex_None id docs :
  findIndex coerce id docs = None ↔
  ∀ y, y ∈ docs → loose_eq coerce (prop y "_id") id = false.
Proof.
  unfold findIndex. rewrite list_find_None, Forall_forall. split.
  - intros H y Hy. specialize (H y Hy).
    destruct (loose_eq coerce (prop y "_id") id); [by destruct H | done].
  - intros H y Hy. rewrite (H y Hy). simpl. tauto.
Qed.

Lemma findIndex_lt id docs i t :
  findIndex coerce id docs = Some (i, t) → i < length docs.
Proof. rewrite findIndex_Some. intros (Hi & _). by eapply lookup_lt_Some. Qed.
End FindIndex.

(** ** Which listeners a dispatch calls *)

Lemma forEach_listener_elem ls col plain filtered k pl :
  (k, pl) ∈ forEach_listener ls col plain filtered ↔
  ∃ l, ls !! k = Some l ∧ l_collection l = col ∧
       match l_filter l with
       | None => pl = plain
       | Some p => filtered p = Some pl
       end.
Proof.
  unfold forEach_listener. rewrite list_elem_of_omap. split.
  - intros (o & Ho & Hid). simpl in Hid. subst o.
    apply elem_of_lookup_imap in Ho as (i & l & Heq & Hl).
    case_bool_decide as Hc; [|done].
    destruct (l_filter l) as [p|] eqn:Hf.
    + destruct (filtered p) as [pl'|] eqn:Hp; simpl in Heq; [|done].
      injection Heq as -> ->. exists l. by rewrite Hf.
    + injection Heq as -> ->. exists l. by rewrite Hf.
  - intros (l & Hl & Hc & Hpl). exists (Some (k, pl)). split; [|done].
    apply elem_of_lookup_imap. exists k, l. split; [|done].
    rewrite bool_decide_eq_true_2 by done.
    destruct (l_filter l) as [p|]; [by rewrite Hpl | by subst].
Qed.

Lemma invoked_forEach ls col plain filtered k l p :
  ls !! k = Some l → l_collection l = col → l_filter l = Some p →
  invoked k (forEach_listener ls col plain filtered) ↔ is_Some (filtered p).
Proof.
  intros Hl Hc Hf. unfold invoked. rewrite list_elem_of_fmap. split.
  - intros ([k' pl] & -> & Hin). simpl in *.
    apply forEach_listener_elem in Hin as (l' & Hl' & _ & Hpl).
    rewrite Hl in Hl'. injection Hl' as <-. rewrite Hf in Hpl. by eexists.
  - intros [pl Hpl]. exists (k, pl). split; [done|].
    apply forEach_listener_elem. exists l. by rewrite Hf.
Qed.

(** ** What the dispatchers leave in the store *)

Lemma ensure_lookup c c' cols :
  default [] (ensure c cols !! c') = default [] (cols !! c').
Proof.
  unfold ensure. destruct (cols !! c) eqn:E; [done|].
  destruct (decide (c = c')) as [->|Hne].
  - by rewrite lookup_insert_eq, E.
  - by rewrite lookup_insert_ne.
Qed.

Lemma ensure_is_Some c cols : is_Some (ensure c cols !! c).
Proof.
  unfold ensure. destruct (cols !! c) eqn:E; [by rewrite E|].
  rewrite lookup_insert_eq. by eexists.
Qed.

Lemma clear_fields_doc cleared fl (d : doc) k :
  (clear_fields cleared (fl, d)).2 !! k =
  if decide (k ∈ cleared) then None else d !! k.
Proof.
  unfold clear_fields. revert fl d.
  induction cleared as [|name cl IH]; intros fl d; cbn [foldl fst snd].
  - rewrite decide_False; [done | apply not_elem_of_nil].
  - rewrite IH. destruct (decide (k = name)) as [->|Hne].
    + rewrite lookup_delete_eq. rewrite (decide_True (P := name ∈ name :: cl)) by left.
      by case_decide.
    + rewrite lookup_delete_ne by done. apply decide_ext.
      rewrite elem_of_cons. tauto.
Qed.

Lemma clear_fields_flags cleared (fl : gmap string Z) (d : doc) k :
  (clear_fields cleared (fl, d)).1 !! k =
  if decide (k ∈ cleared) then Some 0%Z else fl !! k.
Proof.
  unfold clear_fields. revert fl d.
  induction cleared as [|name cl IH]; intros fl d; cbn [foldl fst snd].
  - rewrite decide_False; [done | apply not_elem_of_nil].
  - rewrite IH. destruct (decide (k = name)) as [->|Hne].
    + rewrite lookup_insert_eq. rewrite (decide_True (P := name ∈ name :: cl)) by left.
      by case_decide.
    + rewrite lookup_insert_ne by done. apply decide_ext.
      rewrite elem_of_cons. tauto.
Qed.

Section StoreAfter.
Variable coerce : value → value → bool.

Lemma dispatchAdded_docs st m :
  docs_of (dispatchAdded coerce st m).1 (m_collection m) =
  evict coerce (m_id m) (docs_of st (m_collection m)) ++ [newObj m].
Proof.
  unfold docs_of, dispatchAdded, evict. simpl.
  rewrite lookup_insert_eq. simpl. f_equal. rewrite ensure_lookup.
  destruct (collections st !! m_collection m) as [docs|] eqn:E; simpl.
  - destruct (findIndex coerce (m_id m) docs) as [[i t]|].
    + by rewrite lookup_insert_eq.
    + by rewrite E.
  - by rewrite E.
Qed.

Lemma dispatchAdded_other st m c :
  c ≠ m_collection m →
  collections (dispatchAdded coerce st m).1 !! c = collections st !! c.
Proof.
  intros Hne. unfold dispatchAdded. simpl.
  rewrite lookup_insert_ne by done.
  assert (∀ cols : gmap string (list doc),
            ensure (m_collection m) cols !! c = cols !! c) as Hens.
  { intros cols. unfold ensure. destruct (cols !! m_collection m); [done|].
    by rewrite lookup_insert_ne. }
  rewrite Hens.
  destruct (collections st !! m_collection m) as [docs|]; [|done].
  destruct (findIndex coerce (m_id m) docs) as [[i t]|]; [|done].
  by rewrite lookup_insert_ne.
Qed.

Lemma dispatchAdded_is_Some st m :
  is_Some (collections (dispatchAdded coerce st m).1 !! m_collection m).
Proof. unfold dispatchAdded. simpl. rewrite lookup_insert_eq. by eexists. Qed.

Lemma dispatchAdded_listeners st m :
  onChangeFuncs (dispatchAdded coerce st m).1 = onChangeFuncs st.
Proof. done. Qed.

Lemma docs_of_ensure st c c' :
  docs_of (set_collections (ensure c (collections st)) st) c' = docs_of st c'.
Proof. unfold docs_of. simpl. apply ensure_lookup. Qed.

(** A [changed] message whose identifier matches Document [t] at index
    [i]: the store and the trace it leaves. *)
Lemma dispatchChanged_found st m i t :
  findIndex coerce (m_id m) (docs_of st (m_collection m)) = Some (i, t) →
  (dispatchChanged coerce st m).1 =
    set_collections
      (<[m_collection m := <[i := changedObj m t]> (docs_of st (m_collection m))]>
         (ensure (m_collection m) (collections st))) st.
Proof.
  intros Hf. unfold dispatchChanged. unfold docs_of in Hf.
  rewrite ensure_lookup, Hf. unfold changedObj, docs_of.
  by destruct (clear_fields _ _) as [flags next_].
Qed.

Lemma dispatchChanged_found_trace st m i t :
  findIndex coerce (m_id m) (docs_of st (m_collection m)) = Some (i, t) →
  let next_ := changedObj m t in
  let docs' := <[i := next_]> (docs_of st (m_collection m)) in
  let c := {| prev := Some (fullCopy_doc t); next := Some (fullCopy_doc next_);
              fields := Some (changedFlags m t);
              fieldsChanged := Some (default ∅ (m_fields m));
              fieldsRemoved := Some (default [] (m_cleared m));
              predicatePassed := None |} in
  (dispatchChanged coerce st m).2 =
    forEach_listener (onChangeFuncs st) (m_collection m)
      (Envelope (Some c) None None)
      (λ p, if p (fullCopy_doc t) i docs' || p (fullCopy_doc next_) i docs'
            then Some (Bare {| prev := prev c; next := next c; fields := fields c;
                               fieldsChanged := fieldsChanged c;
                               fieldsRemoved := fieldsRemoved c;
                               predicatePassed :=
                                 Some (p (fullCopy_doc t) i docs',
                                       p (fullCopy_doc next_) i docs') |})
            else None).
Proof.
  intros Hf. unfold dispatchChanged. unfold docs_of in Hf.
  rewrite ensure_lookup, Hf. unfold changedObj, changedFlags, docs_of.
  by destruct (clear_fields _ _) as [flags next_].
Qed.

Lemma dispatchChanged_docs st m i t :
  findIndex coerce (m_id m) (docs_of st (m_collection m)) = Some (i, t) →
  docs_of (dispatchChanged coerce st m).1 (m_collection m) =
    <[i := changedObj m t]> (docs_of st (m_collection m)).
Proof.
  intros Hf. rewrite (dispatchChanged_found _ _ _ _ Hf).
  unfold docs_of at 1. simpl. by rewrite lookup_insert_eq.
Qed.

(** A [changed] message whose identifier matches no Document is handled
    as an [added] one. *)
Lemma dispatchChanged_fallback st m :
  findIndex coerce (m_id m) (docs_of st (m_collection m)) = None →
  dispatchChanged coerce st m =
    dispatchAdded coerce (set_collections (ensure (m_collection m) (collections st)) st) m.
Proof.
  intros Hf. unfold dispatchChanged. unfold docs_of in Hf.
  by rewrite ensure_lookup, Hf.
Qed.

Lemma dispatchRemoved_found st m i t :
  findIndex coerce (m_id m) (docs_of st (m_collection m)) = Some (i, t) →
  (dispatchRemoved coerce st m).1 =
    set_collections
      (<[m_collection m := delete i (docs_of st (m_collection m))]>
         (ensure (m_collection m) (collections st))) st.
Proof.
  intros Hf. unfold dispatchRemoved. unfold docs_of in Hf.
  by rewrite ensure_lookup, Hf.
Qed.

Lemma dispatchRemoved_absent st m :
  findIndex coerce (m_id m) (docs_of st (m_collection m)) = None →
  dispatchRemoved coerce st m =
    (set_collections (ensure (m_collection m) (collections st)) st, []).
Proof.
  intros Hf. unfold dispatchRemoved. unfold docs_of in Hf.
  by rewrite ensure_lookup, Hf.
Qed.
End StoreAfter.

(** ** Identifiers stay unique *)

Lemma prop_newObj_id m :
  default ∅ (m_fields m) !! "_id" = None → prop (newObj m) "_id" = m_id m.
Proof.
  unfold newObj, assign, prop. destruct (m_fields m) as [f|]; simpl; intros Hf.
  - by rewrite lookup_union_r, lookup_singleton_eq.
  - by rewrite lookup_singleton_eq.
Qed.

Lemma changedObj_lookup m t k :
  changedObj m t !! k =
  if decide (k ∈ default [] (m_cleared m)) then None
  else match default ∅ (m_fields m) !! k with
       | Some v => Some v
       | None => t !! k
       end.
Proof.
  unfold changedObj. rewrite clear_fields_doc. case_decide; [done|].
  unfold assign. destruct (m_fields m) as [f|]; simpl.
  - rewrite lookup_union. destruct (f !! k), (t !! k); done.
  - by rewrite lookup_empty.
Qed.

Lemma prop_changedObj_id m t :
  keeps_id m → prop (changedObj m t) "_id" = prop t "_id".
Proof.
  intros [Hf Hc]. unfold prop. rewrite changedObj_lookup.
  rewrite decide_False by done. by rewrite Hf.
Qed.

Lemma ids_app docs1 docs2 : ids (docs1 ++ docs2) = ids docs1 ++ ids docs2.
Proof. apply fmap_app. Qed.

Lemma ids_delete i docs : ids (delete i docs) = delete i (ids docs).
Proof.
  unfold ids. revert i. induction docs as [|d docs IH]; intros [|i]; simpl; try done.
  by rewrite IH.
Qed.

Lemma unique_ids_nil is_id : unique_ids is_id [].
Proof. split; [apply NoDup_nil_2 | apply Forall_nil_2]. Qed.

Lemma unique_ids_delete is_id i docs :
  unique_ids is_id docs → unique_ids is_id (delete i docs).
Proof.
  intros [Hnd Hall]. unfold unique_ids. rewrite ids_delete. split.
  - eapply sublist_NoDup; [done | apply sublist_delete].
  - by apply Forall_delete.
Qed.

Lemma NoDup_delete_not_elem {A} (l : list A) i x :
  NoDup l → l !! i = Some x → x ∉ delete i l.
Proof.
  intros Hnd Hi [j Hj]%list_elem_of_lookup_1.
  destruct (decide (j < i)) as [Hlt|Hge].
  - rewrite list_lookup_delete_lt in Hj by done.
    pose proof (NoDup_lookup _ _ _ _ Hnd Hi Hj). lia.
  - rewrite list_lookup_delete_ge in Hj by lia.
    pose proof (NoDup_lookup _ _ _ _ Hnd Hi Hj). lia.
Qed.

Section Uniqueness.
Variable coerce : value → value → bool.
(** The class the identifiers are drawn from: one on which [==] is
    identity, such as the strings. *)
Variable is_id : value → bool.
Hypothesis is_id_eq :
  ∀ a b, is_id a = true → is_id b = true → (loose_eq coerce a b = true ↔ a = b).

Lemma evict_fresh id docs :
  is_id id = true → unique_ids is_id docs → id ∉ ids (evict coerce id docs).
Proof.
  intros Hid [Hnd Hall]. unfold evict.
  destruct (findIndex coerce id docs) as [[i t]|] eqn:Hf.
  - apply findIndex_Some in Hf as (Hi & Heq & _).
    assert (ids docs !! i = Some (prop t "_id")) as Hi'.
    { unfold ids. by rewrite list_lookup_fmap, Hi. }
    assert (prop t "_id" = id) as Ht.
    { apply is_id_eq; [|done..].
      eapply (Forall_lookup_1 _ _ _ _ Hall Hi'). }
    rewrite ids_delete. apply NoDup_delete_not_elem; [done | by rewrite <- Ht].
  - intros (y & Hy & Hin)%list_elem_of_fmap.
    rewrite findIndex_None in Hf. specialize (Hf y Hin).
    rewrite <- Hy in Hf.
    assert (loose_eq coerce id id = true) by (by apply is_id_eq).
    congruence.
Qed.

Lemma unique_ids_evict id docs :
  unique_ids is_id docs → unique_ids is_id (evict coerce id docs).
Proof.
  intros H. unfold evict. destruct (findIndex coerce id docs) as [[i t]|]; [|done].
  by apply unique_ids_delete.
Qed.

Lemma unique_ids_added m docs :
  is_id (m_id m) = true → keeps_id m → unique_ids is_id docs →
  unique_ids is_id (evict coerce (m_id m) docs ++ [newObj m]).
Proof.
  intros Hid [Hk _] Hu. pose proof (evict_fresh _ _ Hid Hu) as Hfresh.
  destruct (unique_ids_evict (m_id m) _ Hu) as [Hnd Hall].
  unfold unique_ids. rewrite ids_app. unfold ids at 2 4. simpl.
  rewrite (prop_newObj_id _ Hk). split.
  - apply NoDup_app. split; [done|]. split; [|apply NoDup_singleton].
    intros x Hx ->%list_elem_of_singleton. done.
  - apply Forall_app. split; [done|]. by apply Forall_singleton.
Qed.

Lemma unique_ids_changed m i t docs :
  keeps_id m → docs !! i = Some t → unique_ids is_id docs →
  unique_ids is_id (<[i := changedObj m t]> docs).
Proof.
  intros Hk Hi Hu. unfold unique_ids, ids.
  rewrite list_fmap_insert, (prop_changedObj_id _ _ Hk).
  rewrite list_insert_id; [done|]. by rewrite list_lookup_fmap, Hi.
Qed.

Lemma store_unique_docs_of st c :
  store_unique is_id st → unique_ids is_id (docs_of st c).
Proof.
  intros Hst. unfold docs_of. destruct (collections st !! c) eqn:E; simpl.
  - by eapply Hst.
  - apply unique_ids_nil.
Qed.

(** A store stays well-formed when one collection is replaced by a
    well-formed one. *)
Lemma store_unique_insert st cols c docs :
  store_unique is_id st →
  (∀ c', c' ≠ c → cols !! c' = collections st !! c' ∨ cols !! c' = Some []) →
  unique_ids is_id docs →
  store_unique is_id (set_collections (<[c := docs]> cols) st).
Proof.
  intros Hst Hcols Hd c' docs'. simpl.
  destruct (decide (c = c')) as [->|Hne].
  - rewrite lookup_insert_eq. by intros [= <-].
  - rewrite lookup_insert_ne by done. intros Hl.
    destruct (Hcols c' (not_eq_sym Hne)) as [Heq|Heq]; rewrite Heq in Hl.
    + by eapply Hst.
    + injection Hl as <-. apply unique_ids_nil.
Qed.

Lemma ensure_other c c' (cols : gmap string (list doc)) :
  c' ≠ c → ensure c cols !! c' = cols !! c'.
Proof.
  intros Hne. unfold ensure. destruct (cols !! c); [done|].
  by rewrite lookup_insert_ne.
Qed.

Lemma store_unique_ensure st c :
  store_unique is_id st →
  store_unique is_id (set_collections (ensure c (collections st)) st).
Proof.
  intros Hst c' docs. simpl. unfold ensure.
  destruct (collections st !! c) eqn:E; [apply Hst|].
  destruct (decide (c = c')) as [->|Hne].
  - rewrite lookup_insert_eq. intros [= <-]. apply unique_ids_nil.
  - rewrite lookup_insert_ne by done. apply Hst.
Qed.

Lemma dispatchAdded_unique st m :
  is_id (m_id m) = true → keeps_id m → store_unique is_id st →
  store_unique is_id (dispatchAdded coerce st m).1.
Proof.
  intros Hid Hk Hst c docs Hl.
  destruct (decide (c = m_collection m)) as [->|Hne].
  - pose proof (dispatchAdded_docs coerce st m) as Hd.
    unfold docs_of at 1 in Hd. rewrite Hl in Hd. simpl in Hd. subst docs.
    apply unique_ids_added; [done..|]. by apply store_unique_docs_of.
  - rewrite dispatchAdded_other in Hl by done. by eapply Hst.
Qed.

Lemma dispatchChanged_unique st m :
  is_id (m_id m) = true → keeps_id m → store_unique is_id st →
  store_unique is_id (dispatchChanged coerce st m).1.
Proof.
  intros Hid Hk Hst.
  destruct (findIndex coerce (m_id m) (docs_of st (m_collection m)))
    as [[i t]|] eqn:Hf.
  - rewrite (dispatchChanged_found _ _ _ _ _ Hf).
    apply store_unique_insert; [done | |].
    + intros c' Hne. left. by apply ensure_other.
    + apply findIndex_Some in Hf as (Hi & _).
      apply unique_ids_changed; [done..|]. by apply store_unique_docs_of.
  - rewrite (dispatchChanged_fallback _ _ _ Hf).
    apply dispatchAdded_unique; [done..|]. by apply store_unique_ensure.
Qed.

Lemma dispatchRemoved_unique st m :
  store_unique is_id st → store_unique is_id (dispatchRemoved coerce st m).1.
Proof.
  intros Hst.
  destruct (findIndex coerce (m_id m) (docs_of st (m_collection m)))
    as [[i t]|] eqn:Hf.
  - rewrite (dispatchRemoved_found _ _ _ _ _ Hf).
    apply store_unique_insert; [done | |].
    + intros c' Hne. left. by apply ensure_other.
    + apply unique_ids_delete. by apply store_unique_docs_of.
  - rewrite (dispatchRemoved_absent _ _ _ Hf). by apply store_unique_ensure.
Qed.

Lemma apply_diff_unique st d :
  diff_ok is_id d → store_unique is_id st →
  store_unique is_id (apply_diff coerce st d).1.
Proof.
  intros [Hid Hk] Hst. destruct d as [m|m|m]; simpl in *.
  - by apply dispatchAdded_unique.
  - by apply dispatchChanged_unique.
  - by apply dispatchRemoved_unique.
Qed.

Lemma apply_diffs_unique ds st :
  Forall (diff_ok is_id) ds → store_unique is_id st →
  store_unique is_id (apply_diffs coerce st ds).
Proof.
  unfold apply_diffs. revert st.
  induction ds as [|d ds IH]; intros st Hds Hst; simpl; [done|].
  apply Forall_cons in Hds as [Hd Hds].
  apply IH; [done|]. by apply apply_diff_unique.
Qed.
End Uniqueness.

Lemma is_string_eq coerce a b :
  is_string a = true → is_string b = true →
  (loose_eq coerce a b = true ↔ a = b).
Proof.
  destruct a, b; simpl; try discriminate. intros _ _.
  rewrite bool_decide_eq_true. split; congruence.
Qed.

Lemma tasks_store_unique : store_unique is_string tasks_store.
Proof.
  intros c docs Hl.
  change (collections tasks_store)
    with ({[ "tasks" := [task_a; task_b] ]} : gmap string (list doc)) in Hl.
  apply lookup_singleton_Some in Hl as [<- <-]. unfold unique_ids.
  assert (ids [task_a; task_b] = [VStr "a"; VStr "b"]) as ->
    by (vm_compute; reflexivity).
  split.
  - apply NoDup_cons. split; [|apply NoDup_singleton].
    by intros [=]%list_elem_of_singleton.
  - repeat constructor.
Qed.

(** C4, as amended.  Take identifiers from a class on which [==] is
    identity (the strings, say), and diffs whose [fields] and [cleared]
    payloads do not name ["_id"].  Starting from a store in which no two
    Documents of a collection share an identifier, that still holds after
    every prefix of every sequence of added, changed and removed diffs.  In
    particular an [added] message whose identifier is already present at
    index [i] removes that stale Document and then appends the new one. *)
Theorem identifiers_stay_unique coerce is_id st ds :
  (∀ a b, is_id a = true → is_id b = true →
          (loose_eq coerce a b = true ↔ a = b)) →
  store_unique is_id st →
  Forall (diff_ok is_id) ds →
  (∀ pre, pre `prefix_of` ds → store_unique is_id (apply_diffs coerce st pre)) ∧
  (∀ m i t,
     findIndex coerce (m_id m) (docs_of st (m_collection m)) = Some (i, t) →
     docs_of (dispatchAdded coerce st m).1 (m_collection m) =
       delete i (docs_of st (m_collection m)) ++ [newObj m]).
Proof.
  intros Heq Hst Hds. split.
  - intros pre [suf ->]. apply Forall_app in Hds as [Hpre _].
    by apply apply_diffs_unique.
  - intros m i t Hf. rewrite dispatchAdded_docs. unfold evict. by rewrite Hf.
Qed.

Lemma sample_diffs_ok :
  Forall (diff_ok is_string)
         [Changed retitle_a; Added add_a_again; Removed remove_b].
Proof.
  repeat apply Forall_cons_2; [| | |apply Forall_nil_2];
    (split; [reflexivity|]); (split; [by vm_compute|]); simpl.
  - by intros [=]%list_elem_of_singleton.
  - apply not_elem_of_nil.
  - apply not_elem_of_nil.
Qed.

Lemma identifiers_stay_unique_witness :
  store_unique is_string
    (apply_diffs no_coerce tasks_store
       [Changed retitle_a; Added add_a_again; Removed remove_b]).
Proof.
  refine (proj1 (identifiers_stay_unique no_coerce is_string tasks_store
                   [Changed retitle_a; Added add_a_again; Removed remove_b]
                   (is_string_eq no_coerce) tasks_store_unique sample_diffs_ok)
                _ _).
  reflexivity.
Defined.

(** The claim C4 as stated fails: a [changed] message may name ["_id"] in
    its [fields], and [Object.assign] then overwrites the identifier of the
    live Document with one that another Document already has. *)
Lemma identifiers_collide_counterexample :
  store_unique is_string tasks_store ∧
  docs_of (apply_diffs no_coerce tasks_store [Changed rename_a_to_b]) "tasks" =
    [ {[ "_id" := VStr "b"; "title" := VStr "x" ]}; task_b ] ∧
  ¬ NoDup (ids (docs_of (apply_diffs no_coerce tasks_store [Changed rename_a_to_b])
                        "tasks")).
Proof.
  split; [apply tasks_store_unique|].
  assert (docs_of (apply_diffs no_coerce tasks_store [Changed rename_a_to_b]) "tasks" =
          [ {[ "_id" := VStr "b"; "title" := VStr "x" ]}; task_b ]) as ->
    by (vm_compute; reflexivity).
  split; [done|].
  intros Hnd. apply NoDup_cons in Hnd as [Hnotin _]. apply Hnotin.
  vm_compute. left.
Qed.

(** ** The frame of a [changed] diff *)

(** C5, as amended.  A [changed] diff whose identifier matches the Document
    [t] at index [i] replaces it in place by a Document in which exactly the
    keys named in [cleared] are deleted, the keys named in [fields] and not
    in [cleared] have their new values, and every other key is as in [t];
    its identifier is unchanged when neither payload names ["_id"].  Every
    other Document of the collection, every other collection and the
    listener registry are unchanged. *)
Theorem changed_frame coerce st m i t :
  findIndex coerce (m_id m) (docs_of st (m_collection m)) = Some (i, t) →
  let st' := (dispatchChanged coerce st m).1 in
  docs_of st' (m_collection m) !! i = Some (changedObj m t) ∧
  (∀ k, changedObj m t !! k =
        if decide (k ∈ default [] (m_cleared m)) then None
        else match default ∅ (m_fields m) !! k with
             | Some v => Some v
             | None => t !! k
             end) ∧
  (keeps_id m → prop (changedObj m t) "_id" = prop t "_id") ∧
  length (docs_of st' (m_collection m)) = length (docs_of st (m_collection m)) ∧
  (∀ j, j ≠ i →
        docs_of st' (m_collection m) !! j = docs_of st (m_collection m) !! j) ∧
  (∀ c, c ≠ m_collection m → collections st' !! c = collections st !! c) ∧
  onChangeFuncs st' = onChangeFuncs st.
Proof.
  intros Hf st'. unfold st'.
  rewrite (dispatchChanged_docs _ _ _ _ _ Hf). split_and!.
  - apply list_lookup_insert_eq. by eapply findIndex_lt.
  - apply changedObj_lookup.
  - apply prop_changedObj_id.
  - apply length_insert.
  - intros j Hj. by apply list_lookup_insert_ne.
  - intros c Hc. rewrite (dispatchChanged_found _ _ _ _ _ Hf). simpl.
    rewrite lookup_insert_ne by done. by apply ensure_other.
  - by rewrite (dispatchChanged_found _ _ _ _ _ Hf).
Qed.

Lemma changed_frame_witness :
  docs_of (dispatchChanged no_coerce tasks_store retitle_a).1 "tasks" !! 0 =
    Some (changedObj retitle_a task_a).
Proof.
  refine (proj1 (changed_frame no_coerce tasks_store retitle_a 0 task_a _)).
  by vm_compute.
Defined.

(** The claim C5 as stated fails twice over.  A key named in both payloads
    is deleted, not set: [set_and_clear_title] leaves Document "a" without
    a title.  And a [fields] payload that names ["_id"] changes the
    identifier: [rename_a_to_b] turns Document "a" into a Document "b". *)
Lemma changed_frame_counterexample :
  (findIndex no_coerce (m_id set_and_clear_title) (docs_of tasks_store "tasks")
     = Some (0, task_a) ∧
   default ∅ (m_fields set_and_clear_title) !! "title" = Some (VStr "y") ∧
   docs_of (dispatchChanged no_coerce tasks_store set_and_clear_title).1 "tasks" !! 0
     = Some {[ "_id" := VStr "a" ]}) ∧
  (findIndex no_coerce (m_id rename_a_to_b) (docs_of tasks_store "tasks")
     = Some (0, task_a) ∧
   prop task_a "_id" = VStr "a" ∧
   docs_of (dispatchChanged no_coerce tasks_store rename_a_to_b).1 "tasks" !! 0
     = Some {[ "_id" := VStr "b"; "title" := VStr "x" ]} ∧
   prop {[ "_id" := VStr "b"; "title" := VStr "x" ]} "_id" = VStr "b").
Proof. repeat split; by vm_compute. Qed.

(** ** When a predicate-bearing listener fires, and with what *)

Section Predicates.
Variable coerce : value → value → bool.

Lemma dispatchAdded_trace st m :
  let docs' := docs_of (dispatchAdded coerce st m).1 (m_collection m) in
  (dispatchAdded coerce st m).2 =
    forEach_listener (onChangeFuncs st) (m_collection m)
      (Envelope None (Some (fullCopy_doc (newObj m))) None)
      (λ p, if p (fullCopy_doc (newObj m)) (length docs' - 1) docs'
            then Some (Bare (addedChange m)) else None).
Proof.
  unfold docs_of, dispatchAdded. simpl. by rewrite lookup_insert_eq.
Qed.

Lemma dispatchAdded_last st m :
  let docs' := docs_of (dispatchAdded coerce st m).1 (m_collection m) in
  docs' !! (length docs' - 1) = Some (newObj m).
Proof.
  cbv zeta. rewrite dispatchAdded_docs, length_app. simpl.
  rewrite lookup_app_r by lia.
  by replace (_ + 1 - 1 - _) with 0 by lia.
Qed.

Lemma dispatchRemoved_trace st m i t :
  findIndex coerce (m_id m) (docs_of st (m_collection m)) = Some (i, t) →
  let docs' := docs_of (dispatchRemoved coerce st m).1 (m_collection m) in
  docs' = delete i (docs_of st (m_collection m)) ∧
  (dispatchRemoved coerce st m).2 =
    forEach_listener (onChangeFuncs st) (m_collection m)
      (Envelope None None (Some t))
      (λ p, if p t i docs'
            then Some (Bare {| prev := Some t; next := None; fields := None;
                               fieldsChanged := None; fieldsRemoved := None;
                               predicatePassed := None |})
            else None).
Proof.
  intros Hf. cbv zeta.
  assert (docs_of (dispatchRemoved coerce st m).1 (m_collection m) =
          delete i (docs_of st (m_collection m))) as Hd.
  { rewrite (dispatchRemoved_found _ _ _ _ _ Hf).
    unfold docs_of at 1. simpl. by rewrite lookup_insert_eq. }
  rewrite Hd. split; [done|]. unfold dispatchRemoved. unfold docs_of in Hf.
  by rewrite ensure_lookup, Hf.
Qed.

Lemma is_Some_if {A} (b : bool) (x : A) :
  is_Some (if b then Some x else None) ↔ b = true.
Proof.
  destruct b; split; intros H; done.
Qed.
End Predicates.

(** C6.  Let the listener at position [k] be registered on the collection
    of the diff with predicate [p].  An [added] diff calls it iff [p] holds
    of (the copy of) the new Document, at its insertion index in the live
    array.  A [changed] diff on an existing Document calls it iff [p] holds
    of the copy taken before the change or of the copy taken after it.  A
    [removed] diff on an existing Document calls it iff [p] holds of the
    removed Document, at its former index in the array it left. *)
Theorem predicate_listener_fires coerce st m k l p :
  onChangeFuncs st !! k = Some l →
  l_collection l = m_collection m →
  l_filter l = Some p →
  (let docs' := docs_of (dispatchAdded coerce st m).1 (m_collection m) in
   docs' !! (length docs' - 1) = Some (newObj m) ∧
   (invoked k (dispatchAdded coerce st m).2 ↔
    p (fullCopy_doc (newObj m)) (length docs' - 1) docs' = true)) ∧
  (∀ i t,
     findIndex coerce (m_id m) (docs_of st (m_collection m)) = Some (i, t) →
     let docs' := docs_of (dispatchChanged coerce st m).1 (m_collection m) in
     docs' !! i = Some (changedObj m t) ∧
     (invoked k (dispatchChanged coerce st m).2 ↔
      p (fullCopy_doc t) i docs' = true ∨
      p (fullCopy_doc (changedObj m t)) i docs' = true)) ∧
  (∀ i t,
     findIndex coerce (m_id m) (docs_of st (m_collection m)) = Some (i, t) →
     let docs' := docs_of (dispatchRemoved coerce st m).1 (m_collection m) in
     docs' = delete i (docs_of st (m_collection m)) ∧
     (invoked k (dispatchRemoved coerce st m).2 ↔ p t i docs' = true)).
Proof.
  intros Hl Hc Hf. split; [|split].
  - cbv zeta. split; [apply dispatchAdded_last|].
    rewrite dispatchAdded_trace.
    rewrite (invoked_forEach _ _ _ _ _ _ _ Hl Hc Hf). apply is_Some_if.
  - intros i t Hfind docs'.
    pose proof (dispatchChanged_docs _ _ _ _ _ Hfind) as Hd. fold docs' in Hd.
    split.
    { rewrite Hd. apply list_lookup_insert_eq. by eapply findIndex_lt. }
    rewrite (dispatchChanged_found_trace _ _ _ _ _ Hfind). cbv zeta.
    rewrite (invoked_forEach _ _ _ _ _ _ _ Hl Hc Hf), is_Some_if, <- Hd.
    apply orb_true_iff.
  - intros i t Hfind docs'.
    destruct (dispatchRemoved_trace _ _ _ _ _ Hfind) as [Hd Htr].
    split; [done|]. rewrite Htr.
    rewrite (invoked_forEach _ _ _ _ _ _ _ Hl Hc Hf). apply is_Some_if.
Qed.

Lemma predicate_listener_fires_witness :
  let docs' := docs_of (dispatchAdded no_coerce watched_store add_a_again).1 "tasks" in
  docs' !! (length docs' - 1) = Some (newObj add_a_again) ∧
  (invoked 1 (dispatchAdded no_coerce watched_store add_a_again).2 ↔
   titled_z (fullCopy_doc (newObj add_a_again)) (length docs' - 1) docs' = true).
Proof.
  exact (proj1 (predicate_listener_fires no_coerce watched_store add_a_again
                  1 z_listener titled_z eq_refl eq_refl eq_refl)).
Defined.

(** C8.  On an [added] diff, a listener with a predicate that accepts the
    new Document receives the bare change object, never the
    [{changed, added, removed}] envelope of a listener without predicate:
    [prev] is [false], [next] is a deep copy of the new Document (the last
    of its collection), and [fields] flags exactly the field names of the
    message with 1. *)
Theorem filtered_added_payload coerce st m k l p :
  onChangeFuncs st !! k = Some l →
  l_collection l = m_collection m →
  l_filter l = Some p →
  (let docs' := docs_of (dispatchAdded coerce st m).1 (m_collection m) in
   p (fullCopy_doc (newObj m)) (length docs' - 1) docs' = true) →
  ∃ c fl,
    (∀ pl, (k, pl) ∈ (dispatchAdded coerce st m).2 ↔ pl = Bare c) ∧
    prev c = None ∧
    next c = Some (fullCopy_doc (newObj m)) ∧
    fullCopy_doc (newObj m) = newObj m ∧
    last (docs_of (dispatchAdded coerce st m).1 (m_collection m)) = Some (newObj m) ∧
    fields c = Some fl ∧
    (∀ name, fl !! name = (λ _, 1%Z) <$> (default ∅ (m_fields m) !! name)) ∧
    fieldsRemoved c = Some [].
Proof.
  intros Hl Hc Hf Hp. exists (addedChange m), (flag_fields (m_fields m)).
  split_and!; try done; [| |by rewrite dispatchAdded_docs, last_snoc|].
  - intros pl. rewrite dispatchAdded_trace, forEach_listener_elem. split.
    + intros (l' & Hl' & _ & Hpl). rewrite Hl in Hl'. injection Hl' as <-.
      rewrite Hf in Hpl. cbv zeta in Hp. rewrite Hp in Hpl. congruence.
    + intros ->. exists l. rewrite Hf. cbv zeta in Hp. by rewrite Hp.
  - apply fullCopy_doc_id.
  - intros name. unfold flag_fields. destruct (m_fields m) as [f|]; simpl.
    + by rewrite lookup_fmap.
    + by rewrite !lookup_empty.
Qed.

Lemma filtered_added_payload_witness :
  ∃ c fl,
    (∀ pl, (1, pl) ∈ (dispatchAdded no_coerce watched_store add_a_again).2 ↔
           pl = Bare c) ∧
    prev c = None ∧
    next c = Some (fullCopy_doc (newObj add_a_again)) ∧
    fullCopy_doc (newObj add_a_again) = newObj add_a_again ∧
    last (docs_of (dispatchAdded no_coerce watched_store add_a_again).1
                  (m_collection add_a_again)) = Some (newObj add_a_again) ∧
    fields c = Some fl ∧
    (∀ name, fl !! name =
             (λ _, 1%Z) <$> (default ∅ (m_fields add_a_again) !! name)) ∧
    fieldsRemoved c = Some [].
Proof.
  apply (filtered_added_payload no_coerce watched_store add_a_again
           1 z_listener titled_z eq_refl eq_refl eq_refl).
  by vm_compute.
Defined.

(** ** fetch: filter, sort, skip, limit *)

Lemma fullCopy_docs_id (docs : list doc) : fullCopy_doc <$> docs = docs.
Proof.
  induction docs as [|d docs IH]; [done|].
  by rewrite fmap_cons, fullCopy_doc_id, IH.
Qed.

Lemma insert_sorted_Permutation cmp x l : insert_sorted cmp x l ≡ₚ x :: l.
Proof.
  induction l as [|y l IH]; simpl; [done|].
  destruct (cmp x y <=? 0)%Z; [done|].
  rewrite IH. apply Permutation_swap.
Qed.

(** Sorting rearranges, it neither drops nor invents Documents. *)
Lemma array_sort_Permutation cmp l : array_sort cmp l ≡ₚ l.
Proof.
  unfold array_sort. induction l as [|x l IH]; simpl; [done|].
  by rewrite insert_sorted_Permutation, IH.
Qed.

(** Under a comparator that orders any two Documents one way or the other,
    the sort leaves every Document in front of one it does not exceed. *)
Lemma insert_sorted_Sorted cmp x l :
  (∀ a b, (0 < cmp a b)%Z → (cmp b a ≤ 0)%Z) →
  Sorted (λ a b, (cmp a b ≤ 0)%Z) l →
  Sorted (λ a b, (cmp a b ≤ 0)%Z) (insert_sorted cmp x l).
Proof.
  intros Htotal. induction l as [|y l IH]; intros Hs; simpl.
  - by repeat constructor.
  - destruct (Z.leb_spec (cmp x y) 0) as [Hle|Hgt].
    + constructor; [done | by constructor].
    + apply Sorted_inv in Hs as [Hs Hhd]. constructor; [by apply IH|].
      destruct l as [|z l]; simpl.
      * constructor. by apply Htotal.
      * apply HdRel_inv in Hhd.
        destruct (cmp x z <=? 0)%Z; constructor; [by apply Htotal | done].
Qed.

Lemma array_sort_Sorted cmp l :
  (∀ a b, (0 < cmp a b)%Z → (cmp b a ≤ 0)%Z) →
  Sorted (λ a b, (cmp a b ≤ 0)%Z) (array_sort cmp l).
Proof.
  intros Htotal. unfold array_sort. induction l as [|x l IH]; simpl.
  - constructor.
  - by apply insert_sorted_Sorted.
Qed.

(** [splice(0, skip)] discards the first [skip] elements. *)
Lemma splice_skip (l : list doc) n :
  splice l (NFin 0) (Some n) = discard_first (Some n) l.
Proof.
  unfold splice, splice_start, splice_count, discard_first.
  replace (Z.to_nat (Z.min 0 (Z.of_nat (length l)))) with 0 by lia.
  simpl. rewrite Nat.sub_0_r. destruct n as [z| |].
  - destruct (decide (z ≤ Z.of_nat (length l))%Z) as [Hle|Hgt].
    + f_equal. lia.
    + rewrite !drop_ge; [done | lia | lia].
  - by rewrite drop_all.
  - done.
Qed.

(** [splice(limit)] with a count keeps the first [limit] elements. *)
Lemma splice_limit (l : list doc) n :
  is_count (Some n) → splice l n None = truncate_to (Some n) l.
Proof.
  unfold splice, splice_start, splice_count, truncate_to, is_count.
  destruct n as [z| |]; [|intros _|done].
  - intros Hz. rewrite (proj2 (Z.ltb_ge z 0) Hz).
    rewrite drop_ge by lia. rewrite app_nil_r.
    destruct (decide (z ≤ Z.of_nat (length l))%Z) as [Hle|Hgt].
    + f_equal. lia.
    + rewrite !take_ge; [done | lia | lia].
  - rewrite firstn_all, drop_ge by lia. apply app_nil_r.
Qed.


(** ** Consistent comparators and the stable sort *)

Lemma consistent_gt_lt cmp a b : consistent cmp → (0 < cmp a b)%Z → (cmp b a < 0)%Z.
Proof.
  intros [Hrefl Hsym _ _ Hgt] Hab.
  destruct (Z.lt_trichotomy (cmp b a) 0) as [Hlt|[Heq|Hba]]; [done| |].
  - apply Hsym in Heq. lia.
  - pose proof (Hgt a b a Hab Hba). rewrite Hrefl in *. lia.
Qed.

Lemma consistent_lt_gt cmp a b : consistent cmp → (cmp a b < 0)%Z → (0 < cmp b a)%Z.
Proof.
  intros [Hrefl Hsym _ Hlt _] Hab.
  destruct (Z.lt_trichotomy (cmp b a) 0) as [Hba|[Heq|Hgt]]; [| |done].
  - pose proof (Hlt a b a Hab Hba). rewrite Hrefl in *. lia.
  - apply Hsym in Heq. lia.
Qed.

Lemma consistent_le_antisym cmp a b :
  consistent cmp → (cmp a b ≤ 0)%Z → (cmp b a ≤ 0)%Z → cmp a b = 0%Z.
Proof.
  intros Hc Hab Hba.
  destruct (Z.lt_trichotomy (cmp a b) 0) as [Hlt|[Heq|Hgt]]; [|done|lia].
  pose proof (consistent_lt_gt cmp a b Hc Hlt). lia.
Qed.

Lemma consistent_le_trans cmp a b c :
  consistent cmp → (cmp a b ≤ 0)%Z → (cmp b c ≤ 0)%Z → (cmp a c ≤ 0)%Z.
Proof.
  intros Hc Hab Hbc. pose proof Hc as [Hrefl Hsym Heq Hlt Hgt].
  destruct (Z.lt_trichotomy (cmp a c) 0) as [Hac|[Hac|Hac]]; [lia | lia |].
  exfalso. pose proof (consistent_gt_lt cmp a c Hc Hac) as Hca.
  destruct (Z.lt_trichotomy (cmp a b) 0) as [Hab'|[Hab'|Hab']]; [| |lia].
  - pose proof (Hlt c a b Hca Hab') as Hcb.
    pose proof (consistent_lt_gt cmp c b Hc Hcb). lia.
  - destruct (Z.lt_trichotomy (cmp b c) 0) as [Hbc'|[Hbc'|Hbc']]; [| |lia].
    + pose proof (Hlt b c a Hbc' Hca) as Hba. apply Hsym in Hab'. lia.
    + pose proof (Heq a b c Hab' Hbc'). lia.
Qed.

(** Documents that compare equal to [x] do not exceed what [x]'s equals
    exceed. *)
Lemma consistent_class cmp x a y :
  consistent cmp → cmp x a = 0%Z → (0 < cmp a y)%Z → cmp x y ≠ 0%Z.
Proof.
  intros [_ Hsym Heq _ _] Hxa Hay Hxy.
  apply Hsym in Hxa. pose proof (Heq a x y Hxa Hxy). lia.
Qed.

(** Insertion keeps the Documents that compare equal in their order. *)
Lemma insert_sorted_stable cmp a l x :
  consistent cmp →
  filter (λ y, cmp x y = 0%Z) (insert_sorted cmp a l) =
  filter (λ y, cmp x y = 0%Z) (a :: l).
Proof.
  intros Hc. induction l as [|y l IH]; simpl; [done|].
  destruct (Z.leb_spec (cmp a y) 0) as [Hle|Hgt]; [done|].
  rewrite (filter_cons _ y), IH, !filter_cons.
  destruct (decide (cmp x a = 0%Z)) as [Hxa|Hxa]; [|done].
  destruct (decide (cmp x y = 0%Z)) as [Hxy|Hxy]; [|done].
  by destruct (consistent_class cmp x a y Hc Hxa Hgt).
Qed.

Lemma array_sort_stable cmp l x :
  consistent cmp →
  filter (λ y, cmp x y = 0%Z) (array_sort cmp l) = filter (λ y, cmp x y = 0%Z) l.
Proof.
  intros Hc. unfold array_sort. induction l as [|a l IH]; simpl; [done|].
  by rewrite insert_sorted_stable, !filter_cons, IH.
Qed.

(** For a consistent comparator the model's sort is the stable sort. *)
Lemma array_sort_stably_sorted cmp l :
  consistent cmp → stably_sorted cmp l (array_sort cmp l).
Proof.
  intros Hc. split; [apply array_sort_Permutation|]. split.
  - apply array_sort_Sorted. intros a b Hab.
    pose proof (consistent_gt_lt cmp a b Hc Hab). lia.
  - intros x. by apply array_sort_stable.
Qed.

(** The stable sort by a consistent comparator is one list. *)
Lemma stably_sorted_unique cmp l s1 s2 :
  consistent cmp → stably_sorted cmp l s1 → stably_sorted cmp l s2 → s1 = s2.
Proof.
  intros Hc (Hp1 & Hs1 & Hf1) (Hp2 & Hs2 & Hf2).
  assert (s1 ≡ₚ s2) as Hp by (by rewrite Hp1, Hp2).
  assert (∀ x, filter (λ y, cmp x y = 0%Z) s1 = filter (λ y, cmp x y = 0%Z) s2) as Hf
    by (intros x; by rewrite Hf1, Hf2).
  assert (Transitive (λ a b : doc, (cmp a b ≤ 0)%Z)) as Htrans
    by (intros a b c; apply consistent_le_trans; done).
  apply Sorted_StronglySorted in Hs1; [|done].
  apply Sorted_StronglySorted in Hs2; [|done].
  clear Hp1 Hp2 Hf1 Hf2 l. revert s2 Hp Hf Hs2.
  induction Hs1 as [|a t1 Ht1 IH Ha]; intros s2 Hp Hf Hs2.
  - by apply Permutation_nil_l in Hp.
  - destruct s2 as [|b t2]; [by apply Permutation_nil_r in Hp|].
    apply StronglySorted_inv in Hs2 as [Ht2 Hb].
    assert (cmp a b = 0%Z) as Hab.
    { assert (a ∈ b :: t2) as Hin1 by (rewrite <- Hp; by left).
      assert (b ∈ a :: t1) as Hin2 by (rewrite Hp; by left).
      apply elem_of_cons in Hin1 as [Heq|Hin1]; [rewrite Heq; apply (cmp_refl cmp Hc)|].
      apply elem_of_cons in Hin2 as [Heq|Hin2]; [rewrite Heq; apply (cmp_refl cmp Hc)|].
      rewrite Forall_forall in Ha, Hb.
      apply (consistent_le_antisym cmp a b Hc); [by apply Ha | by apply Hb]. }
    pose proof (Hf a) as Hfa. rewrite !filter_cons in Hfa.
    rewrite (decide_True _ _ (cmp_refl cmp Hc a)), (decide_True _ _ Hab) in Hfa.
    injection Hfa as <- _.
    f_equal. apply IH.
    + by apply Permutation_cons_inv in Hp.
    + intros x. specialize (Hf x). rewrite !filter_cons in Hf.
      destruct (decide (cmp x a = 0%Z)); [by injection Hf | done].
    + done.
Qed.

(** ** The stages of fetch *)

Lemma imap_filter_pairs (q : nat → doc → bool) (l : list doc) n :
  omap id (imap (λ i d, if q (n + i) d then Some d else None) l) =
  (filter (λ id : nat * doc, q id.1 id.2 = true) (imap (λ i d, (n + i, d)) l)).*2.
Proof.
  revert n. induction l as [|x l IH]; intros n; [done|].
  rewrite !imap_cons, filter_cons.
  rewrite (imap_ext ((λ i d, if q (n + i) d then Some d else None) ∘ S)
             (λ i d, if q (S n + i) d then Some d else None) l)
    by (intros i d _; simpl; by rewrite Nat.add_succ_r).
  rewrite (imap_ext ((λ i d, (n + i, d)) ∘ S) (λ i d, (S n + i, d)) l)
    by (intros i d _; simpl; by rewrite Nat.add_succ_r).
  rewrite Nat.add_0_r. cbn [fst snd].
  destruct (q n x) eqn:Hq.
  - rewrite decide_True by done. rewrite fmap_cons, <- IH. done.
  - rewrite decide_False by done. rewrite <- IH. done.
Qed.

(** [Array.prototype.filter] keeps the Documents for which the callback
    holds, in their order. *)
Lemma array_filter_matching p l : array_filter p l = matching (Fn p) l.
Proof.
  unfold array_filter, matching.
  apply (imap_filter_pairs (λ i d, p d i l) l 0).
Qed.

Lemma ascending_by_v_consistent : consistent ascending_by_v.
Proof. split; unfold ascending_by_v; intros; lia. Qed.

(** C9, as amended.  For a stored collection, a filter and a sort that are
    functions or absent, a comparator that is consistent and a [limit]
    that is a count, [fetch] works on a deep copy of the stored sequence:
    it keeps the Documents for which the filter holds, in their order,
    sorts them stably by the comparator, discards the first [skip]
    elements and truncates to [limit] elements.  The sorted sequence is
    one list, so this fixes the result.  On the Documents {id:1,v:3},
    {id:2,v:1}, {id:3,v:2} with an ascending sort by [v], skip 1 and
    limit 1 it returns {id:3,v:2} alone. *)
Theorem fetch_filter_sort_skip_limit col settings stored :
  collections (_server col) !! _name col = Some stored →
  _filter col ≠ On →
  sort_of settings ≠ On →
  (∀ cmp, sort_of settings = Fn cmp → consistent cmp) →
  is_count (settings ≫= limit) →
  let copy := fullCopy_doc <$> stored in
  copy = stored ∧
  (∃ sorted, in_order (sort_of settings) (matching (_filter col) copy) sorted) ∧
  (∀ sorted,
     in_order (sort_of settings) (matching (_filter col) copy) sorted →
     fetch col settings =
       Returns (truncate_to (settings ≫= limit)
                  (discard_first (settings ≫= skip) sorted))) ∧
  fetch v_collection (Some v_settings) =
    Returns [ {[ "id" := VNum 3; "v" := VNum 2 ]} ].
Proof.
  intros Hstored Hfilter Hsort Hcons Hlimit copy.
  split; [apply fullCopy_docs_id|].
  assert (in_order (sort_of settings) (matching (_filter col) copy)
            (order_by (sort_of settings) (matching (_filter col) copy))) as Hmodel.
  { destruct (sort_of settings) as [| |cmp] eqn:Hs; simpl; [done | done |].
    apply array_sort_stably_sorted. by apply Hcons. }
  split; [by eexists|]. split; [|by vm_compute].
  intros sorted Hsorted.
  assert (sorted = order_by (sort_of settings) (matching (_filter col) copy)) as ->.
  { destruct (sort_of settings) as [| |cmp] eqn:Hs; simpl in *; [done | done |].
    eapply stably_sorted_unique; [by apply Hcons | done | done]. }
  unfold fetch. rewrite Hstored. fold copy. fold (sort_of settings).
  destruct (_filter col) as [| |p]; [|done|];
    (destruct (sort_of settings) as [| |cmp]; [|done|]);
    simpl; rewrite ?array_filter_matching; simpl; f_equal;
    (destruct (settings ≫= skip) as [n|]; [rewrite splice_skip|]);
    (destruct (settings ≫= limit) as [k|]; [rewrite splice_limit by done|]);
    done.
Qed.

Lemma fetch_filter_sort_skip_limit_witness :
  fetch filtered_collection (Some v_settings) =
    Returns [ {[ "id" := VNum 1; "v" := VNum 3 ]} ].
Proof.
  refine (eq_trans
    (proj1 (proj2 (proj2
       (fetch_filter_sort_skip_limit filtered_collection (Some v_settings) v_docs
          eq_refl _ _ _ _)))
       (array_sort ascending_by_v (matching (Fn above_one) (fullCopy_doc <$> v_docs)))
       (array_sort_stably_sorted _ _ ascending_by_v_consistent)) _).
  - discriminate.
  - discriminate.
  - intros cmp [= <-]. apply ascending_by_v_consistent.
  - simpl. lia.
  - by vm_compute.
Defined.

(** The claim C9 as stated fails: not for every settings object does
    [fetch] return the Documents filtered, sorted, skipped and truncated.
    With a limit of -1 it returns all Documents but the last, where
    truncating to the limit leaves none; and with [true] for [sort], which
    the declared type of the settings admits, it throws. *)
Lemma fetch_filter_sort_skip_limit_counterexample :
  fetch v_collection (Some all_but_last) =
    Returns [ {[ "id" := VNum 1; "v" := VNum 3 ]}; {[ "id" := VNum 2; "v" := VNum 1 ]} ] ∧
  truncate_to (Some (NFin (-1)))
    (discard_first None (order_by Off (matching Off (fullCopy_doc <$> v_docs)))) = [] ∧
  fetch v_collection (Some sort_true) = Throws "TypeError".
Proof. repeat split; by vm_compute. Qed.

Local Open Scope nat_scope.

(** ** connect *)

Lemma settle_fresh s c :
  promises (settle (length (promises c)) s (new_promise c).1)
    !! length (promises c) = Some s.
Proof.
  unfold settle, new_promise. simpl.
  rewrite lookup_app_r, Nat.sub_diag by done. simpl.
  assert (<[length (promises c) := s]> (promises c ++ [Pending]) !! length (promises c)
          = Some s) as H.
  { apply list_lookup_insert_eq. rewrite length_app. simpl. lia. }
  by destruct s.
Qed.

(** Settling a future touches the futures and their callbacks only. *)
Lemma settle_frame p s c :
  ddpConnection (settle p s c) = ddpConnection c ∧
  subs (settle p s c) = subs c ∧
  data (settle p s c) = data c ∧
  connected (settle p s c) = connected c ∧
  tryingToConnect (settle p s c) = tryingToConnect c ∧
  listeners (settle p s c) = listeners c ∧
  timers (settle p s c) = timers c ∧
  notified (settle p s c) = notified c ∧
  _id (settle p s c) = _id c ∧
  _opGenId (settle p s c) = _opGenId c.
Proof.
  unfold settle. destruct (promises c !! p) as [[| |]|]; destruct s; done.
Qed.

(** C2, as amended.  When the connected flag is set, [connect()] returns a
    future that is already resolved and registers neither a listener nor a
    timer; it asks the transport to connect exactly when the
    [tryingToConnect] flag is clear, and leaves that flag set. *)
Theorem connect_when_connected c :
  connected c = true →
  promises (connect c).1 !! (connect c).2 = Some (Resolved VUndefined) ∧
  calls (ddpConnection (connect c).1) =
    calls (ddpConnection c) ++ (if tryingToConnect c then [] else [TConnect]) ∧
  tryingToConnect (connect c).1 = true ∧
  listeners (connect c).1 = listeners c ∧
  timers (connect c).1 = timers c.
Proof.
  intros Hc. unfold connect. simpl.
  destruct (tryingToConnect c) eqn:Ht; simpl; rewrite Hc; simpl; unfold resolve.
  - pose proof (settle_fresh (Resolved VUndefined)
      (set_willTryToReconnect (default true (autoReconnect (_opts c))) c)) as Hp.
    match goal with |- context [settle ?p ?s ?c0] =>
      destruct (settle_frame p s c0) as (-> & _ & _ & _ & -> & -> & -> & _) end.
    simpl. by rewrite app_nil_r.
  - pose proof (settle_fresh (Resolved VUndefined)
      (set_tryingToConnect true
         (request TConnect
            (set_willTryToReconnect (default true (autoReconnect (_opts c))) c)))) as Hp.
    match goal with |- context [settle ?p ?s ?c0] =>
      destruct (settle_frame p s c0) as (-> & _ & _ & _ & -> & -> & -> & _) end.
    done.
Qed.

Lemma connect_when_connected_witness :
  promises (connect online_client).1 !! (connect online_client).2
    = Some (Resolved VUndefined).
Proof.
  refine (proj1 (connect_when_connected online_client _)). by vm_compute.
Defined.

(** The claim C2 as stated fails: once the transport has reported the
    connection, [connected] is set and [tryingToConnect] is clear, and
    [connect()] then does call the transport's [connect]. *)
Lemma connect_contacts_transport_counterexample :
  connected online_client = true ∧
  calls (ddpConnection online_client) = [] ∧
  promises (connect online_client).1 !! (connect online_client).2
    = Some (Resolved VUndefined) ∧
  calls (ddpConnection (connect online_client).1) = [TConnect].
Proof. repeat split; by vm_compute. Qed.

(** ** What the listeners and the microtasks leave alone *)

Lemma foldl_preserves {A B C} (proj : A → C) (f : A → B → A) (l : list B) a :
  (∀ a b, proj (f a b) = proj a) → proj (foldl f a l) = proj a.
Proof.
  intros Hf. revert a. induction l as [|b l IH]; intros a; simpl; [done|].
  by rewrite IH, Hf.
Qed.

Lemma settle_subs p s c : subs (settle p s c) = subs c.
Proof. apply settle_frame. Qed.

Lemma settle_data p s c : data (settle p s c) = data c.
Proof. apply settle_frame. Qed.

Lemma settle_listeners p s c : listeners (settle p s c) = listeners c.
Proof. apply settle_frame. Qed.

Lemma settle_notified p s c : notified (settle p s c) = notified c.
Proof. apply settle_frame. Qed.

Lemma restartSubs_frame c :
  subs (restartSubs c) = subs c ∧ data (restartSubs c) = data c ∧
  promises (restartSubs c) = promises c ∧ listeners (restartSubs c) = listeners c ∧
  notified (restartSubs c) = notified c.
Proof.
  unfold restartSubs. split_and!.
  - rewrite (foldl_preserves subs); [done|]. intros a b. by destruct (isOn b).
  - rewrite (foldl_preserves data); [done|]. intros a b. by destruct (isOn b).
  - rewrite (foldl_preserves promises); [done|]. intros a b. by destruct (isOn b).
  - rewrite (foldl_preserves listeners); [done|]. intros a b. by destruct (isOn b).
  - rewrite (foldl_preserves notified); [done|]. intros a b. by destruct (isOn b).
Qed.

Lemma run_continuation_frame k c :
  subs (run_continuation k c) = subs c ∧ data (run_continuation k c) = data c ∧
  promises (run_continuation k c) = promises c ∧
  listeners (run_continuation k c) = listeners c ∧
  notified (run_continuation k c) = notified c.
Proof.
  destruct k. unfold run_continuation.
  by destruct (restartSubs_frame
    (emit {| ev_name := ClientReady; ev_msg := MNone; ev_tag := None |} c))
    as (-> & -> & -> & -> & ->).
Qed.

Lemma run_microtasks_frame c :
  subs (run_microtasks c) = subs c ∧ data (run_microtasks c) = data c ∧
  promises (run_microtasks c) = promises c ∧
  listeners (run_microtasks c) = listeners c ∧
  notified (run_microtasks c) = notified c.
Proof.
  unfold run_microtasks. split_and!.
  - rewrite (foldl_preserves subs); [done|]. intros. apply run_continuation_frame.
  - rewrite (foldl_preserves data); [done|]. intros. apply run_continuation_frame.
  - rewrite (foldl_preserves promises); [done|]. intros. apply run_continuation_frame.
  - rewrite (foldl_preserves listeners); [done|]. intros. apply run_continuation_frame.
  - rewrite (foldl_preserves notified); [done|]. intros. apply run_continuation_frame.
Qed.

(** A listener registered with [on] never touches the store, the
    subscriptions or the log of change notifications. *)
Lemma run_listener_frame e c p :
  subs (run_listener e c p) = subs c ∧ data (run_listener e c p) = data c ∧
  notified (run_listener e c p) = notified c.
Proof.
  unfold run_listener.
  destruct (list_find _ _) as [[i el]|]; [|done].
  case_bool_decide; [|done].
  destruct (el_handler el) as [| |tag total|methodId]; unfold resolve.
  - by rewrite settle_subs, settle_data, settle_notified.
  - by rewrite settle_subs, settle_data, settle_notified.
  - case_bool_decide; [|done].
    destruct (Nat.eqb _ _); [|done].
    by rewrite settle_subs, settle_data, settle_notified.
  - destruct (ev_msg e) as [|id error result|]; try done.
    case_bool_decide; [|done].
    destruct error as [err|]; [destruct (to_boolean err)|]; simpl;
      by rewrite settle_subs, settle_data, settle_notified.
Qed.

Lemma run_listeners_frame e ps c :
  subs (foldl (run_listener e) c ps) = subs c ∧
  data (foldl (run_listener e) c ps) = data c ∧
  notified (foldl (run_listener e) c ps) = notified c.
Proof.
  split_and!.
  - rewrite (foldl_preserves subs); [done|]. intros. apply run_listener_frame.
  - rewrite (foldl_preserves data); [done|]. intros. apply run_listener_frame.
  - rewrite (foldl_preserves notified); [done|]. intros. apply run_listener_frame.
Qed.

(** ** sub and the call it makes *)

Lemma apply_frame name params b c :
  subs (apply name params b c).1 = subs c ∧
  data (apply name params b c).1 = data c ∧
  calls (ddpConnection (apply name params b c).1) =
    calls (ddpConnection c) ++ [TMethod name (default [] params) b] ∧
  promises (apply name params b c).1 = promises c ++ [Pending] ∧
  thens (apply name params b c).1 = thens c ∧
  (apply name params b c).2 = length (promises c).
Proof. unfold apply. simpl. by destruct (truthy (maxTimeout c)). Qed.

Lemma deliver_result_frame coerce c id error result :
  let e := {| ev_name := ResultEv; ev_msg := MResult id error result; ev_tag := None |} in
  subs (deliver coerce c e) = subs c ∧ data (deliver coerce c e) = data c.
Proof.
  intros e. unfold deliver.
  destruct (run_microtasks_frame
    (foldl (run_listener e) (constructor_listeners coerce e c)
       (el_promise <$> listeners c))) as (-> & -> & _).
  destruct (run_listeners_frame e (el_promise <$> listeners c)
              (constructor_listeners coerce e c)) as (-> & -> & _).
  done.
Qed.

(** C10.  Whatever the registry holds, [sub(pubname, args)] first asks the
    transport to call the method "foo" with arguments [123, 2] (not at the
    beginning of the queue).  The future of that call is pending, nothing is
    attached to it, and whatever result or error comes back for it leaves
    the subscriptions and the store as they are: the result is dropped. *)
Theorem sub_calls_foo isEqual name a c :
  (∃ rest,
     calls (ddpConnection (sub isEqual name a c).1) =
       calls (ddpConnection c) ++ TMethod "foo" [VNum 123; VNum 2] false :: rest) ∧
  promises (sub isEqual name a c).1 = promises c ++ [Pending] ∧
  thens (sub isEqual name a c).1 = thens c ∧
  (∀ coerce id error result,
     let e := {| ev_name := ResultEv; ev_msg := MResult id error result;
                 ev_tag := None |} in
     subs (deliver coerce (sub isEqual name a c).1 e) = subs (sub isEqual name a c).1 ∧
     data (deliver coerce (sub isEqual name a c).1 e) = data (sub isEqual name a c).1).
Proof.
  split_and!; [| | |intros; apply deliver_result_frame];
    unfold sub;
    destruct (apply_frame "foo" (Some [VNum 123; VNum 2]) false c)
      as (Hs & Hd & Hc & Hp & Ht & Hk);
    destruct (apply "foo" (Some [VNum 123; VNum 2]) false c) as [c1 k];
    simpl in *;
    destruct (list_find _ (subs c1)) as [[i s]|]; simpl;
    try destruct (isStopped s); simpl; rewrite ?Hc, ?Hp, ?Ht; try done.
  - exists [TSub (pubname s) (args s)]. by rewrite <- app_assoc.
  - by exists [].
  - exists [TSub name (array_or_empty a)]. by rewrite <- app_assoc.
Qed.

(** ** Subscriptions are interned by name and arguments *)

Section Interning.
Variable isEqual : list value → list value → bool.
Hypothesis isEqual_equiv : Equivalence (λ a b, isEqual a b = true).



End Interning.




(** The example of the specification: [subscribe("feed", 1, 2)] twice gives
    the Subscription at position 0 both times, [subscribe("feed", 1, 3)]
    the one at position 1. *)
Example subscribe_feed :
  let c1 := (subscribe structural_eq "feed" [VNum 1; VNum 2] fresh_client).1 in
  let c2 := (subscribe structural_eq "feed" [VNum 1; VNum 2] c1).1 in
  (subscribe structural_eq "feed" [VNum 1; VNum 2] fresh_client).2 = 0 ∧
  (subscribe structural_eq "feed" [VNum 1; VNum 2] c1).2 = 0 ∧
  (subscribe structural_eq "feed" [VNum 1; VNum 3] c2).2 = 1.
Proof. repeat split; by vm_compute. Qed.

(** ** Delivery of a diff applies its dispatcher to the store *)

Section DeliverDiff.
Variable coerce : value → value → bool.

Lemma deliver_diff c e f m :
  dispatcher coerce (ev_name e) = Some f → ev_msg e = MDiff m →
  data (deliver coerce c e) = (f (data c) m).1 ∧
  notified (deliver coerce c e) = notified c ++ (f (data c) m).2 ∧
  subs (deliver coerce c e) = subs c.
Proof.
  intros Hf Hm. unfold deliver.
  destruct (run_microtasks_frame
    (foldl (run_listener e) (constructor_listeners coerce e c)
       (el_promise <$> listeners c))) as (-> & -> & _ & _ & ->).
  destruct (run_listeners_frame e (el_promise <$> listeners c)
              (constructor_listeners coerce e c)) as (-> & -> & ->).
  unfold constructor_listeners, dispatch. rewrite Hm.
  destruct (ev_name e); simpl in Hf; try done; injection Hf as <-.
  - by destruct (dispatchAdded coerce (data c) m).
  - by destruct (dispatchChanged coerce (data c) m).
  - by destruct (dispatchRemoved coerce (data c) m).
Qed.
End DeliverDiff.

(** ** The counting listener of a bulk operation *)

Lemma filter_head_find {A} (P : A → Prop) `{∀ x, Decision (P x)} (l : list A) x r :
  filter P l = x :: r → ∃ i, list_find P l = Some (i, x).
Proof.
  induction l as [|y l IH]; [done|].
  rewrite filter_cons. simpl. destruct (decide (P y)) as [Hy|Hy].
  - intros [= -> _]. by exists 0.
  - intros [i Hi]%IH. exists (S i). by rewrite Hi.
Qed.

Lemma filter_other_promise p p' (l : list eventListener) :
  p' ≠ p →
  filter (λ el, el_promise el = p) (filter (λ el, el_promise el ≠ p') l) =
  filter (λ el, el_promise el = p) l.
Proof.
  intros Hne. rewrite list_filter_filter. apply list_filter_iff.
  intros el. split; [tauto | intros ->; done].
Qed.

Lemma filter_own_promise p (l : list eventListener) :
  filter (λ el, el_promise el = p) (filter (λ el, el_promise el ≠ p) l) = [].
Proof.
  rewrite list_filter_filter.
  induction l as [|el l IH]; [done|].
  rewrite filter_cons_False; [done | tauto].
Qed.

Lemma filter_recount_other p p' n (l : list eventListener) :
  p' ≠ p →
  filter (λ el, el_promise el = p) (recount p' n <$> l) =
  filter (λ el, el_promise el = p) l.
Proof.
  intros Hne. induction l as [|el l IH]; [done|].
  rewrite fmap_cons, !filter_cons, IH.
  assert (el_promise (recount p' n el) = el_promise el) as Hsame.
  { unfold recount. by case_bool_decide. }
  destruct (decide (el_promise el = p')) as [Hel|Hel].
  - rewrite !decide_False; [done | congruence | congruence].
  - unfold recount. by rewrite bool_decide_eq_false_2.
Qed.

Lemma filter_recount_own p n (l : list eventListener) :
  filter (λ el, el_promise el = p) (recount p n <$> l) =
  recount p n <$> filter (λ el, el_promise el = p) l.
Proof.
  induction l as [|el l IH]; [done|].
  rewrite fmap_cons, !filter_cons, IH.
  assert (el_promise (recount p n el) = el_promise el) as Hsame.
  { unfold recount. by case_bool_decide. }
  rewrite Hsame. by destruct (decide (el_promise el = p)).
Qed.

Lemma settle_other_promise p p' s c :
  p' ≠ p → promises (settle p' s c) !! p = promises c !! p.
Proof.
  intros Hne. unfold settle.
  destruct (promises c !! p') as [[| |]|]; try done.
  destruct s; simpl; by rewrite list_lookup_insert_ne.
Qed.

Lemma settle_pending p s c :
  promises c !! p = Some Pending → promises (settle p s c) !! p = Some s.
Proof.
  intros Hp. unfold settle. rewrite Hp.
  assert (<[p := s]> (promises c) !! p = Some s) as H.
  { apply list_lookup_insert_eq. by eapply lookup_lt_Some. }
  by destruct s.
Qed.

Lemma settle_length p s c : length (promises (settle p s c)) = length (promises c).
Proof.
  unfold settle. destruct (promises c !! p) as [[| |]|]; try done.
  destruct s; simpl; by rewrite length_insert.
Qed.

(** The closure of another future leaves what belongs to [p] alone. *)
Lemma run_listener_other e c p p' :
  p' ≠ p → mine p (run_listener e c p') = mine p c.
Proof.
  intros Hne. unfold run_listener.
  destruct (list_find _ _) as [[i el]|]; [|done].
  case_bool_decide; [|done].
  destruct (el_handler el) as [| |tag total|methodId]; unfold resolve, mine.
  - rewrite settle_listeners, settle_other_promise by done. simpl.
    by rewrite filter_other_promise.
  - rewrite settle_listeners, settle_other_promise by done. simpl.
    by rewrite filter_other_promise.
  - case_bool_decide; [|done].
    destruct (Nat.eqb _ _).
    + rewrite settle_listeners, settle_other_promise by done. simpl.
      rewrite filter_other_promise by done.
      by rewrite (filter_recount_other p p').
    + simpl. by rewrite (filter_recount_other p p').
  - destruct (ev_msg e) as [|id error result|]; try done.
    case_bool_decide; [|done].
    destruct error as [err|]; [destruct (to_boolean err)|]; simpl;
      rewrite filter_other_promise by done;
      by rewrite settle_listeners, settle_other_promise.
Qed.

Lemma run_listener_own e c n tag total k p :
  mine p c = ([tagged_listener n tag total k p], Some Pending) →
  mine p (run_listener e c p) = counted n tag total k p e.
Proof.
  intros Hmine. injection Hmine as Hl Hp.
  destruct (filter_head_find _ _ _ _ Hl) as [i Hfind].
  unfold run_listener, counted. rewrite Hfind.
  change (el_event (tagged_listener n tag total k p)) with n.
  change (el_handler (tagged_listener n tag total k p)) with (OnTagged tag total).
  change (el_counter (tagged_listener n tag total k p)) with k.
  cbv iota beta. unfold is_tagged.
  case_bool_decide as Hn.
  - case_bool_decide as Ht.
    + rewrite decide_True by done.
      destruct (Nat.eqb_spec (S k) total) as [Hk|Hk].
      * rewrite decide_True by done. unfold resolve, mine.
        rewrite settle_listeners. simpl. rewrite filter_own_promise.
        by rewrite settle_pending.
      * rewrite decide_False by done. unfold mine. simpl.
        rewrite filter_recount_own, Hl, Hp. simpl. unfold recount. simpl.
        by rewrite bool_decide_eq_true_2.
    + rewrite decide_False by tauto. unfold mine. by rewrite Hl, Hp.
  - rewrite decide_False by (intros [? _]; done). unfold mine. by rewrite Hl, Hp.
Qed.

Lemma run_listeners_absent e ps c p :
  p ∉ ps → mine p (foldl (run_listener e) c ps) = mine p c.
Proof.
  revert c. induction ps as [|q ps IH]; intros c Hnotin; simpl; [done|].
  rewrite IH by set_solver. apply run_listener_other. set_solver.
Qed.

Lemma filter_singleton_split {A} (P : A → Prop) `{∀ x, Decision (P x)} (l : list A) x :
  filter P l = [x] →
  ∃ l1 l2, l = l1 ++ x :: l2 ∧ Forall (λ y, ¬ P y) l1 ∧ Forall (λ y, ¬ P y) l2.
Proof.
  induction l as [|y l IH]; [done|].
  rewrite filter_cons. destruct (decide (P y)) as [Hy|Hy].
  - intros [= -> Hnil]. exists [], l. split; [done|]. split; [done|].
    apply Forall_forall. intros z Hz Pz.
    by eapply (filter_nil_not_elem_of P l z).
  - intros (l1 & l2 & -> & H1 & H2)%IH. exists (y :: l1), l2.
    split; [done|]. split; [by constructor | done].
Qed.

Section Counting.
Variable coerce : value → value → bool.

Lemma constructor_listeners_diff e c :
  is_diff_event e →
  listeners (constructor_listeners coerce e c) = listeners c ∧
  promises (constructor_listeners coerce e c) = promises c.
Proof.
  intros [Hn [m Hm]]. unfold constructor_listeners, dispatch. rewrite Hm.
  destruct Hn as [-> | [-> | ->]].
  - by destruct (dispatchAdded coerce (data c) m).
  - by destruct (dispatchChanged coerce (data c) m).
  - by destruct (dispatchRemoved coerce (data c) m).
Qed.

Lemma mine_ext p c c' :
  listeners c' = listeners c → promises c' = promises c → mine p c' = mine p c.
Proof. intros Hl Hp. unfold mine. by rewrite Hl, Hp. Qed.

(** One diff event, while the listener of [p] is counting. *)
Lemma deliver_counting e c n tag total k p :
  is_diff_event e →
  mine p c = ([tagged_listener n tag total k p], Some Pending) →
  mine p (deliver coerce c e) = counted n tag total k p e.
Proof.
  intros He Hmine. unfold deliver.
  rewrite (mine_ext p (foldl (run_listener e) (constructor_listeners coerce e c)
                         (el_promise <$> listeners c)) (run_microtasks _));
    [|apply run_microtasks_frame..].
  destruct (constructor_listeners_diff e c He) as [Hl Hp].
  pose proof (mine_ext p c _ Hl Hp) as Hc.
  injection Hmine as Hf Hpend.
  destruct (filter_singleton_split _ _ _ Hf) as (l1 & l2 & Hsplit & H1 & H2).
  rewrite Hsplit, fmap_app, fmap_cons, foldl_app. simpl.
  rewrite run_listeners_absent.
  - apply run_listener_own. rewrite run_listeners_absent, Hc.
    + unfold mine. by rewrite Hf, Hpend.
    + intros (el & Hel & Hin)%list_elem_of_fmap.
      rewrite Forall_forall in H1. by apply (H1 el Hin).
  - intros (el & Hel & Hin)%list_elem_of_fmap.
    rewrite Forall_forall in H2. by apply (H2 el Hin).
Qed.

(** One diff event, once the listener of [p] is gone. *)
Lemma deliver_settled e c p :
  is_diff_event e → (mine p c).1 = [] → mine p (deliver coerce c e) = mine p c.
Proof.
  intros He Hnil. unfold deliver.
  rewrite (mine_ext p (foldl (run_listener e) (constructor_listeners coerce e c)
                         (el_promise <$> listeners c)) (run_microtasks _));
    [|apply run_microtasks_frame..].
  destruct (constructor_listeners_diff e c He) as [Hl Hp].
  rewrite run_listeners_absent; [by apply mine_ext|].
  intros (el & Hel & Hin)%list_elem_of_fmap.
  eapply (filter_nil_not_elem_of _ _ el Hnil); done.
Qed.
End Counting.

Lemma tagged_count_cons n tag e es :
  tagged_count n tag (e :: es) =
  (if decide (is_tagged n tag e) then 1 else 0) + tagged_count n tag es.
Proof.
  unfold tagged_count. rewrite filter_cons.
  by destruct (decide (is_tagged n tag e)).
Qed.

Section Streams.
Variable coerce : value → value → bool.

Lemma deliver_all_settled es c p :
  Forall is_diff_event es → (mine p c).1 = [] →
  mine p (deliver_all coerce c es) = mine p c.
Proof.
  unfold deliver_all. revert c.
  induction es as [|e es IH]; intros c Hes Hnil; cbn [foldl]; [done|].
  apply Forall_cons in Hes as [He Hes].
  rewrite IH; [by apply deliver_settled | done |].
  by rewrite deliver_settled.
Qed.

(** The future of a bulk operation over a stream of diff events: it is
    resolved exactly when the operation counts Documents at all and the
    stream holds that many tagged notifications. *)
Lemma deliver_all_counting es c n tag total k p :
  Forall is_diff_event es →
  mine p c = ([tagged_listener n tag total k p], Some Pending) →
  (total ≠ 0 → k < total) →
  (mine p (deliver_all coerce c es)).2 =
    Some (if decide (total ≠ 0 ∧ total ≤ k + tagged_count n tag es)
          then Resolved VUndefined else Pending).
Proof.
  unfold deliver_all. revert c k.
  induction es as [|e es IH]; intros c k Hes Hmine Hk; cbn [foldl].
  - rewrite Hmine. cbn [snd]. rewrite decide_False; [done|].
    unfold tagged_count. simpl. intros [H0 Hle]. specialize (Hk H0). lia.
  - apply Forall_cons in Hes as [He Hes].
    pose proof (deliver_counting coerce e c n tag total k p He Hmine) as Hstep.
    rewrite tagged_count_cons. unfold counted in Hstep.
    destruct (decide (is_tagged n tag e)) as [Htag|Htag].
    + destruct (decide (S k = total)) as [Hlast|Hmore].
      * pose proof (deliver_all_settled es (deliver coerce c e) p Hes) as Hs.
        unfold deliver_all in Hs. rewrite Hs, Hstep by (by rewrite Hstep).
        cbn [snd]. rewrite decide_True; [done | lia].
      * rewrite (IH _ (S k) Hes Hstep) by (intros H0; specialize (Hk H0); lia).
        repeat case_decide; try done; lia.
    + rewrite (IH _ k Hes Hstep Hk). repeat case_decide; try done; lia.
Qed.

(** Delivering the messages of a bulk operation applies its dispatcher
    to the store, message after message. *)
Lemma deliver_all_bulk n tag f ms c :
  dispatcher coerce n = Some f →
  data (deliver_all coerce c (tagged_event n tag <$> ms)) =
    foldl (λ st m, (f st m).1) (data c) ms.
Proof.
  intros Hf. unfold deliver_all. revert c.
  induction ms as [|m ms IH]; intros c; [done|].
  rewrite fmap_cons. simpl. rewrite IH.
  by destruct (deliver_diff coerce c (tagged_event n tag m) f m Hf eq_refl) as (-> & _).
Qed.
End Streams.

Lemma totalDocuments_length make cs :
  totalDocuments cs = length (bulk_messages make cs).
Proof.
  unfold totalDocuments, bulk_messages.
  assert (∀ k, foldl (λ n cd, n + length cd.2) k cs =
               k + length (cs ≫= λ '(collection, docs), make collection <$> docs)) as H.
  { induction cs as [|[col docs] cs IH]; intros k.
    - simpl. lia.
    - rewrite bind_cons, length_app, length_fmap. cbn [foldl snd].
      rewrite IH. lia. }
  apply (H 0).
Qed.

Lemma tagged_count_bulk n make tag cs :
  tagged_count n tag (bulk_events n make tag cs) = totalDocuments cs.
Proof.
  rewrite (totalDocuments_length make). unfold bulk_events, tagged_count.
  induction (bulk_messages make cs) as [|m ms IH]; [done|].
  rewrite fmap_cons, filter_cons_True by done. simpl. by rewrite IH.
Qed.

Lemma bulk_events_diff n make tag cs :
  n = AddedEv ∨ n = ChangedEv ∨ n = RemovedEv →
  Forall is_diff_event (bulk_events n make tag cs).
Proof.
  intros Hn. unfold bulk_events. apply Forall_fmap, Forall_forall.
  intros m _. split; [done | by exists m].
Qed.

Lemma foldl_emit_frame es c :
  listeners (foldl (λ c e, emit e c) c es) = listeners c ∧
  promises (foldl (λ c e, emit e c) c es) = promises c ∧
  data (foldl (λ c e, emit e c) c es) = data c ∧
  emitted (ddpConnection (foldl (λ c e, emit e c) c es)) =
    emitted (ddpConnection c) ++ es.
Proof.
  revert c. induction es as [|e es IH]; intros c; simpl.
  - by rewrite app_nil_r.
  - destruct (IH (emit e c)) as (-> & -> & -> & ->). simpl.
    by rewrite <- app_assoc.
Qed.

(** A listener just registered for a fresh future is alone in owning it. *)
Lemma mine_registered n h c :
  listeners_known c →
  let p := length (promises c) in
  mine p (on n h p (new_promise c).1) =
    ([ {| el_event := n; el_handler := h; el_counter := 0; el_promise := p |} ],
     Some Pending).
Proof.
  intros Hknown p. unfold mine, on, new_promise. simpl.
  rewrite filter_app, filter_cons_True, filter_nil by done.
  rewrite lookup_app_r, Nat.sub_diag by done. simpl. f_equal.
  assert (filter (λ el, el_promise el = p) (listeners c) = []) as ->; [|done].
  unfold listeners_known in Hknown. induction Hknown as [|el l Hel _ IH]; [done|].
  rewrite filter_cons_False; [done | unfold p; lia].
Qed.

(** ** importData *)

Lemma importData_registers parse data_ cs c :
  match data_ with inl s => parse s | inr d => Some d end = Some cs →
  let tag := pretty (_id c) +:+ "-" +:+ pretty (_opGenId c) in
  (importData parse data_ c).2 = length (promises c) ∧
  data (importData parse data_ c).1 = data c ∧
  emitted (ddpConnection (importData parse data_ c).1) =
    emitted (ddpConnection c) ++ bulk_events AddedEv added_message tag cs ∧
  (listeners_known c →
   mine (length (promises c)) (importData parse data_ c).1 =
     ([tagged_listener AddedEv tag (totalDocuments cs) 0 (length (promises c))],
      Some Pending)).
Proof.
  intros Hcs tag. unfold importData. simpl. rewrite Hcs. simpl.
  match goal with |- context [foldl _ ?c0 ?es] =>
    destruct (foldl_emit_frame es c0) as (Hl & Hp & Hd & He) end.
  split; [done|]. split; [by rewrite Hd|]. split; [by rewrite He|].
  intros Hknown. unfold mine. rewrite Hl, Hp.
  apply (mine_registered AddedEv (OnTagged tag (totalDocuments cs)) c Hknown).
Qed.

(** C3, as amended.  [importData], given a text that decodes or a raw
    mapping, queues one [added] message per Document of the data set, each
    tagged with the operation's id, and returns a pending future.  Over any
    stream of diff events that future is resolved exactly when the data set
    is not empty and the stream holds as many [added] notifications with
    that tag as the data set has Documents.  Once the queued messages have
    been delivered, the store is the store as it was with those messages
    applied in order by [dispatchAdded]. *)
Theorem importData_counts_and_applies coerce parse data_ cs c es :
  match data_ with inl s => parse s | inr d => Some d end = Some cs →
  listeners_known c →
  Forall is_diff_event es →
  let c1 := (importData parse data_ c).1 in
  let p := (importData parse data_ c).2 in
  let tag := pretty (_id c) +:+ "-" +:+ pretty (_opGenId c) in
  let ms := bulk_messages added_message cs in
  promises c1 !! p = Some Pending ∧
  emitted (ddpConnection c1) =
    emitted (ddpConnection c) ++ (tagged_event AddedEv tag <$> ms) ∧
  length ms = totalDocuments cs ∧
  promises (deliver_all coerce c1 es) !! p =
    Some (if decide (totalDocuments cs ≠ 0 ∧
                     totalDocuments cs ≤ tagged_count AddedEv tag es)
          then Resolved VUndefined else Pending) ∧
  data (deliver_all coerce c1 (tagged_event AddedEv tag <$> ms)) =
    foldl (λ st m, (dispatchAdded coerce st m).1) (data c) ms.
Proof.
  intros Hcs Hknown Hes c1 p tag ms.
  destruct (importData_registers parse data_ cs c Hcs) as (Hp & Hd & He & Hmine).
  specialize (Hmine Hknown). fold c1 in Hd, He, Hmine. fold p in Hp.
  fold tag in He, Hmine. rewrite <- Hp in Hmine.
  split_and!.
  - by injection Hmine.
  - done.
  - symmetry. apply totalDocuments_length.
  - pose proof (deliver_all_counting coerce es c1 AddedEv tag (totalDocuments cs)
                  0 p Hes Hmine) as H.
    simpl in H. apply H. lia.
  - rewrite (deliver_all_bulk coerce AddedEv tag (dispatchAdded coerce)) by done.
    by rewrite Hd.
Qed.

Lemma stocked_client_known : listeners_known stocked_client.
Proof. by vm_compute. Qed.

Lemma importData_counts_and_applies_witness :
  let c1 := (importData no_parse (inr tasks_data) stocked_client).1 in
  let p := (importData no_parse (inr tasks_data) stocked_client).2 in
  promises (deliver_all no_coerce c1 (bulk_events AddedEv added_message "0-0" tasks_data))
    !! p = Some (Resolved VUndefined).
Proof.
  exact (proj1 (proj2 (proj2 (proj2
    (importData_counts_and_applies no_coerce no_parse (inr tasks_data) tasks_data
       stocked_client (bulk_events AddedEv added_message "0-0" tasks_data)
       eq_refl stocked_client_known
       (bulk_events_diff AddedEv added_message "0-0" tasks_data (or_introl eq_refl))))))).
Defined.

(** The claim C3 as stated fails: [importData] adds to what the store
    holds.  With Documents "a" and "b" stored, importing a data set whose
    only Document is "c" resolves after one tagged notification, and a
    fetch of the collection then returns three Documents, not the one
    imported. *)
Lemma importData_keeps_old_documents_counterexample :
  let c1 := (importData no_parse (inr tasks_data) stocked_client).1 in
  let p := (importData no_parse (inr tasks_data) stocked_client).2 in
  let c2 := deliver_emitted no_coerce c1 in
  docs_of (data stocked_client) "tasks" = [task_a; task_b] ∧
  length (emitted (ddpConnection c1)) = 1 ∧
  promises c2 !! p = Some (Resolved VUndefined) ∧
  fetch {| _name := "tasks"; _filter := Off; _server := data c2 |} None =
    Returns [task_a; task_b; {[ "_id" := VStr "c"; "title" := VStr "t" ]}] ∧
  [task_a; task_b; {[ "_id" := VStr "c"; "title" := VStr "t" ]}] ≠ [task_c].
Proof. repeat split; by vm_compute. Qed.

(** ** clearData *)

Lemma loose_eq_undefined coerce x :
  nullish x = false → loose_eq coerce x VUndefined = false.
Proof. by destruct x. Qed.

(** A [removed] message without identifier finds nothing to remove among
    Documents that have one. *)
Lemma dispatchRemoved_undefined coerce st col :
  is_Some (collections st !! col) →
  (∀ d, d ∈ docs_of st col → nullish (prop d "_id") = false) →
  (dispatchRemoved coerce st
     {| m_collection := col; m_id := VUndefined; m_fields := None; m_cleared := None |}).1
  = st.
Proof.
  intros [docs Hdocs] Hids.
  rewrite dispatchRemoved_absent.
  - simpl. unfold ensure. rewrite Hdocs. by destruct st.
  - simpl. apply findIndex_None. intros y Hy.
    apply loose_eq_undefined. by apply Hids.
Qed.

Lemma clearData_registers c :
  totalDocuments (map_to_list (collections (data c))) ≠ 0 →
  let tag := pretty (_id c) +:+ "-" +:+ pretty (_opGenId c) in
  let cs := map_to_list (collections (data c)) in
  (clearData c).2 = length (promises c) ∧
  data (clearData c).1 = data c ∧
  emitted (ddpConnection (clearData c).1) =
    emitted (ddpConnection c) ++ bulk_events RemovedEv removed_message tag cs ∧
  (listeners_known c →
   mine (length (promises c)) (clearData c).1 =
     ([tagged_listener RemovedEv tag (totalDocuments cs) 0 (length (promises c))],
      Some Pending)).
Proof.
  intros Htotal tag cs. unfold clearData. simpl.
  destruct (Nat.eqb_spec (totalDocuments (map_to_list (collections (data c)))) 0)
    as [H0|_]; [done|]. simpl.
  match goal with |- context [foldl _ ?c0 ?es] =>
    destruct (foldl_emit_frame es c0) as (Hl & Hp & Hd & He) end.
  split; [done|]. split; [by rewrite Hd|]. split; [by rewrite He|].
  intros Hknown. unfold mine. rewrite Hl, Hp.
  apply (mine_registered RemovedEv (OnTagged tag (totalDocuments cs)) c Hknown).
Qed.

(** What [clearData] does to a store whose Documents carry their identifier
    under ["_id"], as [dispatchAdded] leaves them, and have no field
    ["id"]: it queues one [removed] message per Document, each with
    [doc.id], that is [undefined], for identifier; once these have been
    delivered its future is resolved and the store is exactly as before. *)
Theorem clearData_leaves_documents coerce c :
  (∀ col docs d, collections (data c) !! col = Some docs → d ∈ docs →
                 d !! "id" = None ∧ nullish (prop d "_id") = false) →
  listeners_known c →
  totalDocuments (map_to_list (collections (data c))) ≠ 0 →
  let tag := pretty (_id c) +:+ "-" +:+ pretty (_opGenId c) in
  let evs := bulk_events RemovedEv removed_message tag
               (map_to_list (collections (data c))) in
  emitted (ddpConnection (clearData c).1) = emitted (ddpConnection c) ++ evs ∧
  Forall (λ e, ∃ col, ev_msg e = MDiff {| m_collection := col; m_id := VUndefined;
                                          m_fields := None; m_cleared := None |}) evs ∧
  promises (deliver_all coerce (clearData c).1 evs) !! (clearData c).2
    = Some (Resolved VUndefined) ∧
  data (deliver_all coerce (clearData c).1 evs) = data c.
Proof.
  intros Hdocs Hknown Htotal tag evs.
  destruct (clearData_registers c Htotal) as (Hp & Hd & He & Hmine).
  specialize (Hmine Hknown). fold tag in He, Hmine. rewrite <- Hp in Hmine.
  assert (Forall (λ m, ∃ col docs d,
                    collections (data c) !! col = Some docs ∧ d ∈ docs ∧
                    m = {| m_collection := col; m_id := VUndefined;
                           m_fields := None; m_cleared := None |})
                 (bulk_messages removed_message (map_to_list (collections (data c)))))
    as Hms.
  { apply Forall_forall. intros m Hm. unfold bulk_messages in Hm.
    apply list_elem_of_bind in Hm as ([col docs] & Hm & Hin).
    apply list_elem_of_fmap in Hm as (d & -> & Hd').
    apply elem_of_map_to_list in Hin. exists col, docs, d.
    split; [done|]. split; [done|]. unfold removed_message, prop.
    by rewrite (proj1 (Hdocs col docs d Hin Hd')). }
  split_and!.
  - done.
  - unfold evs, bulk_events. apply Forall_fmap.
    eapply Forall_impl; [exact Hms|]. intros m (col & docs & d & _ & _ & ->). by exists col.
  - pose proof (deliver_all_counting coerce evs (clearData c).1 RemovedEv tag
                  (totalDocuments (map_to_list (collections (data c)))) 0
                  (clearData c).2
                  (bulk_events_diff RemovedEv removed_message tag _
                     (or_intror (or_intror eq_refl))) Hmine) as H.
    simpl in H. rewrite H by lia. unfold evs. rewrite tagged_count_bulk.
    by rewrite decide_True.
  - unfold evs, bulk_events.
    rewrite (deliver_all_bulk coerce RemovedEv tag (dispatchRemoved coerce)) by done.
    rewrite Hd.
    induction Hms as [|m ms (col & docs & d & Hcol & Hin & ->) _ IH]; [done|].
    simpl. rewrite dispatchRemoved_undefined; [done | by eexists |].
    intros d' Hd'. unfold docs_of in Hd'. rewrite Hcol in Hd'.
    by apply (Hdocs col docs d' Hcol).
Qed.

Lemma stocked_client_documents :
  docs_of (data stocked_client) "tasks" = [task_a; task_b].
Proof. by vm_compute. Qed.

(** C1, at the failing input.  The client holds Documents "a" and "b" of
    "tasks", both put there by [added] messages.  [clearData] queues two
    [removed] messages whose identifier is [undefined]; when both have come
    back its future is resolved, and "tasks" still holds "a" and "b". *)
Theorem clearData_removes_nothing :
  docs_of (data stocked_client) "tasks" = [task_a; task_b] ∧
  emitted (ddpConnection (clearData stocked_client).1) =
    [ tagged_event RemovedEv "0-0"
        {| m_collection := "tasks"; m_id := VUndefined;
           m_fields := None; m_cleared := None |};
      tagged_event RemovedEv "0-0"
        {| m_collection := "tasks"; m_id := VUndefined;
           m_fields := None; m_cleared := None |} ] ∧
  promises (deliver_emitted no_coerce (clearData stocked_client).1)
    !! (clearData stocked_client).2 = Some (Resolved VUndefined) ∧
  docs_of (data (deliver_emitted no_coerce (clearData stocked_client).1)) "tasks"
    = [task_a; task_b].
Proof. repeat split; by vm_compute. Qed.

(** * Further properties of the dispatchers *)

(** The positions a [forEach] over the listeners reports, counted from
    [n], increase strictly. *)
Lemma imap_positions_sorted {A} (F : nat → A → option (nat * payload)) (ls : list A) n :
  (∀ k x y, F k x = Some y → y.1 = k) →
  StronglySorted lt ((omap id (imap (λ k, F (n + k)) ls)).*1) ∧
  Forall (λ k, n ≤ k) ((omap id (imap (λ k, F (n + k)) ls)).*1).
Proof.
  intros HF. revert n. induction ls as [|x ls IH]; intros n.
  - split; constructor.
  - rewrite imap_cons.
    assert (imap ((λ k, F (n + k)) ∘ S) ls = imap (λ k, F (S n + k)) ls) as ->.
    { apply imap_ext. intros i y _. simpl. f_equal. lia. }
    destruct (IH (S n)) as [IHs IHf]. cbn [omap list_omap].
    replace (n + 0) with n by lia.
    destruct (F n x) as [[k pl]|] eqn:E; simpl.
    + apply HF in E. simpl in E. subst k. split.
      * constructor; [done|]. eapply Forall_impl; [exact IHf|]. simpl. lia.
      * constructor; [lia|]. eapply Forall_impl; [exact IHf|]. simpl. lia.
    + split; [done|]. eapply Forall_impl; [exact IHf|]. simpl. lia.
Qed.

Lemma forEach_listener_sorted ls col plain filtered :
  StronglySorted lt (forEach_listener ls col plain filtered).*1.
Proof.
  unfold forEach_listener.
  apply (imap_positions_sorted
           (λ k l, if bool_decide (l_collection l = col) then
                     match l_filter l with
                     | None => Some (k, plain)
                     | Some p => (λ pl, (k, pl)) <$> filtered p
                     end
                   else None) ls 0).
  intros k l y. case_bool_decide; [|done].
  destruct (l_filter l) as [p|]; [|by intros [= <-]].
  destruct (filtered p); simpl; [by intros [= <-] | done].
Qed.

(** Every dispatcher reports through one [forEach] over the registry, for
    the collection of its message. *)
Lemma apply_diff_trace coerce st d :
  ∃ plain filtered,
    (apply_diff coerce st d).2 =
      forEach_listener (onChangeFuncs st) (m_collection (diff_message d)) plain filtered
    ∨ (apply_diff coerce st d).2 = [].
Proof.
  destruct d as [m|m|m]; simpl.
  - eexists _, _. left. apply dispatchAdded_trace.
  - destruct (findIndex coerce (m_id m) (docs_of st (m_collection m)))
      as [[i t]|] eqn:Hf.
    + eexists _, _. left. apply (dispatchChanged_found_trace _ _ _ _ _ Hf).
    + rewrite (dispatchChanged_fallback _ _ _ Hf). eexists _, _. left.
      exact (dispatchAdded_trace coerce
               (set_collections (ensure (m_collection m) (collections st)) st) m).
  - destruct (findIndex coerce (m_id m) (docs_of st (m_collection m)))
      as [[i t]|] eqn:Hf.
    + eexists _, _. left. apply (dispatchRemoved_trace _ _ _ _ _ Hf).
    + rewrite (dispatchRemoved_absent _ _ _ Hf). eexists (Envelope None None None), (λ _, None).
      by right.
Qed.

(** X1.  Whatever the diff, only listeners registered on the collection of
    the message are called, each at most once, and in the order of their
    registration. *)
Theorem dispatch_calls_collection_listeners_in_order coerce st d :
  (∀ k pl, (k, pl) ∈ (apply_diff coerce st d).2 →
           ∃ l, onChangeFuncs st !! k = Some l ∧
                l_collection l = m_collection (diff_message d)) ∧
  StronglySorted lt (apply_diff coerce st d).2.*1.
Proof.
  destruct (apply_diff_trace coerce st d) as (plain & filtered & [-> | ->]).
  - split; [|apply forEach_listener_sorted].
    intros k pl (l & Hl & Hc & _)%forEach_listener_elem. by exists l.
  - split; [|constructor]. intros k pl Hin. by apply elem_of_nil in Hin.
Qed.

(** X3.  A [removed] message whose identifier matches no Document of its
    collection calls no listener and leaves the Documents of every
    collection, and the registry, as they are. *)
Theorem removed_unknown_is_silent coerce st m :
  findIndex coerce (m_id m) (docs_of st (m_collection m)) = None →
  (dispatchRemoved coerce st m).2 = [] ∧
  (∀ c, docs_of (dispatchRemoved coerce st m).1 c = docs_of st c) ∧
  onChangeFuncs (dispatchRemoved coerce st m).1 = onChangeFuncs st.
Proof.
  intros Hf. rewrite (dispatchRemoved_absent _ _ _ Hf). split; [done|].
  split; [|done]. intros c. apply docs_of_ensure.
Qed.

Lemma removed_unknown_is_silent_witness :
  (dispatchRemoved no_coerce watched_store remove_z).2 = [].
Proof.
  refine (proj1 (removed_unknown_is_silent no_coerce watched_store remove_z _)).
  by vm_compute.
Defined.

Lemma evict_absent coerce id docs :
  findIndex coerce id docs = None → evict coerce id docs = docs.
Proof. intros Hf. unfold evict. by rewrite Hf. Qed.

(** X4.  A [changed] message whose identifier matches no Document is
    handled as an [added] one: the Document made of its identifier and
    fields is appended to the collection, the [cleared] payload is ignored,
    and the listeners are called exactly as [dispatchAdded] calls them. *)
Theorem changed_unknown_is_added coerce st m :
  findIndex coerce (m_id m) (docs_of st (m_collection m)) = None →
  docs_of (dispatchChanged coerce st m).1 (m_collection m) =
    docs_of st (m_collection m) ++ [newObj m] ∧
  (∀ c, c ≠ m_collection m →
        docs_of (dispatchChanged coerce st m).1 c = docs_of st c) ∧
  (dispatchChanged coerce st m).2 = (dispatchAdded coerce st m).2.
Proof.
  intros Hf. rewrite (dispatchChanged_fallback _ _ _ Hf).
  set (st' := set_collections (ensure (m_collection m) (collections st)) st).
  assert (∀ c, docs_of st' c = docs_of st c) as Hsame
    by (intros c; apply docs_of_ensure).
  split; [|split].
  - rewrite dispatchAdded_docs, Hsame. by rewrite evict_absent.
  - intros c Hc. unfold docs_of at 1. rewrite dispatchAdded_other by done.
    apply Hsame.
  - rewrite !dispatchAdded_trace. cbv zeta.
    rewrite !dispatchAdded_docs, Hsame. done.
Qed.

Lemma changed_unknown_is_added_witness :
  docs_of (dispatchChanged no_coerce watched_store change_z).1 "tasks" =
    docs_of watched_store "tasks" ++ [newObj change_z].
Proof.
  refine (proj1 (changed_unknown_is_added no_coerce watched_store change_z _)).
  by vm_compute.
Defined.

Lemma delete_last_snoc {A} (l : list A) x : delete (length l) (l ++ [x]) = l.
Proof. induction l as [|y l IH]; simpl; [done | by rewrite IH]. Qed.

Lemma dispatchRemoved_docs coerce st m :
  docs_of (dispatchRemoved coerce st m).1 (m_collection m) =
    evict coerce (m_id m) (docs_of st (m_collection m)).
Proof.
  unfold evict.
  destruct (findIndex coerce (m_id m) (docs_of st (m_collection m)))
    as [[i t]|] eqn:Hf.
  - rewrite (dispatchRemoved_found _ _ _ _ _ Hf). unfold docs_of at 1. simpl.
    by rewrite lookup_insert_eq.
  - rewrite (dispatchRemoved_absent _ _ _ Hf). apply docs_of_ensure.
Qed.

(** X5.  Adding a Document whose identifier is new to the collection and
    then removing it by that identifier gives back the Documents the
    collection had, provided the identifier [==] itself and the [fields]
    payload does not name ["_id"]. *)
Theorem added_then_removed coerce st m :
  findIndex coerce (m_id m) (docs_of st (m_collection m)) = None →
  loose_eq coerce (m_id m) (m_id m) = true →
  default ∅ (m_fields m) !! "_id" = None →
  docs_of (dispatchRemoved coerce (dispatchAdded coerce st m).1 (removal_of m)).1
          (m_collection m)
    = docs_of st (m_collection m).
Proof.
  intros Hnew Hrefl Hkeep.
  pose proof (dispatchRemoved_docs coerce (dispatchAdded coerce st m).1 (removal_of m))
    as Hd.
  change (m_collection (removal_of m)) with (m_collection m) in Hd.
  change (m_id (removal_of m)) with (m_id m) in Hd.
  rewrite Hd, dispatchAdded_docs, (evict_absent _ _ _ Hnew).
  unfold evict.
  assert (findIndex coerce (m_id m) (docs_of st (m_collection m) ++ [newObj m])
          = Some (length (docs_of st (m_collection m)), newObj m)) as ->.
  { apply findIndex_Some. split_and!.
    - rewrite lookup_app_r, Nat.sub_diag by done. done.
    - by rewrite prop_newObj_id.
    - intros j y Hj Hlt. rewrite lookup_app_l in Hj by done.
      apply list_elem_of_lookup_2 in Hj.
      by apply (proj1 (findIndex_None coerce _ _) Hnew). }
  apply delete_last_snoc.
Qed.

Lemma added_then_removed_witness :
  docs_of (dispatchRemoved no_coerce (dispatchAdded no_coerce tasks_store change_z).1
             (removal_of change_z)).1 "tasks"
    = docs_of tasks_store "tasks".
Proof.
  apply (added_then_removed no_coerce tasks_store change_z); by vm_compute.
Defined.

(** X6.  In a collection whose identifiers are pairwise distinct and drawn
    from a class on which [==] is identity, no Document with the
    identifier of a [removed] message is left once the message is
    applied. *)
Theorem removed_leaves_no_such_document coerce is_id st m :
  (∀ a b, is_id a = true → is_id b = true →
          (loose_eq coerce a b = true ↔ a = b)) →
  store_unique is_id st →
  is_id (m_id m) = true →
  m_id m ∉ ids (docs_of (dispatchRemoved coerce st m).1 (m_collection m)).
Proof.
  intros Heq Hst Hid. rewrite dispatchRemoved_docs.
  apply (evict_fresh coerce is_id Heq); [done|].
  by apply store_unique_docs_of.
Qed.

Lemma removed_leaves_no_such_document_witness :
  m_id remove_b ∉ ids (docs_of (dispatchRemoved no_coerce tasks_store remove_b).1
                               (m_collection remove_b)).
Proof.
  exact (removed_leaves_no_such_document no_coerce is_string tasks_store remove_b
           (is_string_eq no_coerce) tasks_store_unique eq_refl).
Defined.

Lemma forEach_listener_nil col plain filtered :
  forEach_listener [] col plain filtered = [].
Proof. done. Qed.

(** X7.  After [stopChangeListeners()] no diff calls a listener any more,
    while the store takes every diff exactly as it would have. *)
Theorem stopChangeListeners_silences coerce st d :
  (apply_diff coerce (stopChangeListeners st) d).2 = [] ∧
  collections (apply_diff coerce (stopChangeListeners st) d).1 =
    collections (apply_diff coerce st d).1.
Proof.
  split.
  - by destruct (apply_diff_trace coerce (stopChangeListeners st) d)
      as (plain & filtered & [-> | ->]).
  - destruct d as [m|m|m]; simpl.
    + done.
    + unfold dispatchChanged. simpl.
      destruct (findIndex _ _ _) as [[i t]|]; [|done].
      by destruct (clear_fields _ _).
    + unfold dispatchRemoved. simpl.
      by destruct (findIndex _ _ _) as [[i t]|].
Qed.

(** * Further properties of fetch *)

Lemma fetch_unfold col settings :
  fetch col settings =
  match _filter col with
  | On => Throws "TypeError"
  | _ =>
      match sort_of settings with
      | On => Throws "TypeError"
      | _ =>
          let l := order_by (sort_of settings)
                     (keep_matching (_filter col)
                        (fullCopy_doc <$> docs_of (_server col) (_name col))) in
          let l := match settings ≫= skip with
                   | Some n => splice l (NFin 0) (Some n)
                   | None => l
                   end in
          Returns (match settings ≫= limit with
                   | Some n => splice l n None
                   | None => l
                   end)
      end
  end.
Proof.
  unfold fetch, sort_of, docs_of.
  destruct (collections (_server col) !! _name col);
    destruct (_filter col); try done;
    by destruct (match settings with Some s => sort s | None => Off end).
Qed.

(** X8.  On a collection whose name is a key of the store, or a name no
    object inherits, [fetch] throws exactly when [true] stands where the
    filter of the collection or the comparator of the settings should be,
    and what it throws is a [TypeError]; in every other case it returns. *)
Theorem fetch_throws_only_on_true col settings :
  own_lookup (collections (_server col)) (_name col) →
  (∀ e, fetch col settings = Throws e → e = "TypeError") ∧
  ((∃ e, fetch col settings = Throws e) ↔
   _filter col = On ∨ sort_of settings = On).
Proof.
  intros _. rewrite fetch_unfold. split.
  - intros e. destruct (_filter col); [|congruence|];
      destruct (sort_of settings); simpl; congruence.
  - split.
    + intros [e He]. destruct (_filter col); [|by left|];
        (destruct (sort_of settings); [done | by right | done]).
    + intros [-> | Hs]; [by eexists|].
      rewrite Hs. destruct (_filter col); by eexists.
Qed.

Lemma v_collection_own : own_lookup (collections (_server v_collection)) "vs".
Proof. left. exists v_docs. by vm_compute. Qed.

Lemma fetch_throws_only_on_true_witness :
  ∃ e, fetch v_collection (Some sort_true) = Throws e.
Proof.
  exact (proj2 (proj2 (fetch_throws_only_on_true v_collection (Some sort_true)
                         v_collection_own))
               (or_intror eq_refl)).
Defined.

Lemma imap_filter_sublist {A} (keep : nat → A → bool) (l : list A) :
  omap id (imap (λ i d, if keep i d then Some d else None) l) `sublist_of` l.
Proof.
  revert keep. induction l as [|x l IH]; intros keep; [done|].
  rewrite imap_cons. cbn [omap list_omap].
  pose proof (IH (λ i d, keep (S i) d)) as IH'.
  destruct (keep 0 x); simpl; [by apply sublist_skip | by apply sublist_cons].
Qed.

Lemma array_filter_sublist p l : array_filter p l `sublist_of` l.
Proof.
  unfold array_filter.
  apply (imap_filter_sublist (λ i d, p d i l) l).
Qed.

Lemma splice_sublist {A} (l : list A) start count : splice l start count `sublist_of` l.
Proof.
  unfold splice.
  set (s := splice_start (length l) start).
  set (n := splice_count (length l - s) count).
  rewrite <- (take_drop s l) at 3.
  apply sublist_app; [done|].
  rewrite <- drop_drop. apply sublist_drop.
Qed.

Lemma keep_matching_submseteq f l : keep_matching f l ⊆+ l.
Proof.
  destruct f as [| |p]; simpl; try done.
  apply sublist_submseteq, array_filter_sublist.
Qed.

Lemma order_by_Permutation s l : order_by s l ≡ₚ l.
Proof. destruct s as [| |cmp]; simpl; try done. apply array_sort_Permutation. Qed.

Lemma skipped_submseteq (skip_ : option num) (l : list doc) :
  match skip_ with Some n => splice l (NFin 0) (Some n) | None => l end ⊆+ l.
Proof. destruct skip_; [apply sublist_submseteq, splice_sublist | done]. Qed.

Lemma limited_submseteq (limit_ : option num) (l : list doc) :
  match limit_ with Some n => splice l n None | None => l end ⊆+ l.
Proof. destruct limit_; [apply sublist_submseteq, splice_sublist | done]. Qed.

(** X9.  What [fetch] returns is drawn from the stored Documents of the
    collection: each Document at most as often as it is stored, and
    nothing else. *)
Theorem fetch_returns_stored_documents col settings r :
  fetch col settings = Returns r →
  r ⊆+ docs_of (_server col) (_name col).
Proof.
  rewrite fetch_unfold, fullCopy_docs_id. intros Hr.
  assert (r = match settings ≫= limit with
              | Some n =>
                  splice (match settings ≫= skip with
                          | Some n => splice (order_by (sort_of settings)
                                                (keep_matching (_filter col)
                                                   (docs_of (_server col) (_name col))))
                                             (NFin 0) (Some n)
                          | None => order_by (sort_of settings)
                                      (keep_matching (_filter col)
                                         (docs_of (_server col) (_name col)))
                          end) n None
              | None => match settings ≫= skip with
                        | Some n => splice (order_by (sort_of settings)
                                              (keep_matching (_filter col)
                                                 (docs_of (_server col) (_name col))))
                                           (NFin 0) (Some n)
                        | None => order_by (sort_of settings)
                                    (keep_matching (_filter col)
                                       (docs_of (_server col) (_name col)))
                        end
              end) as ->.
  { destruct (_filter col); [|done|];
      (destruct (sort_of settings); [|done|]); by injection Hr. }
  etrans; [apply limited_submseteq|].
  etrans; [apply skipped_submseteq|].
  rewrite order_by_Permutation. apply keep_matching_submseteq.
Qed.

Lemma fetch_returns_stored_documents_witness :
  [ ({[ "id" := VNum 3; "v" := VNum 2 ]} : doc) ] ⊆+
    docs_of (_server v_collection) (_name v_collection).
Proof.
  apply (fetch_returns_stored_documents v_collection (Some v_settings)).
  by vm_compute.
Defined.

Lemma Sorted_drop {A} (R : A → A → Prop) (l : list A) n :
  Sorted R l → Sorted R (drop n l).
Proof.
  revert l. induction n as [|n IH]; intros l Hs; [by rewrite drop_0|].
  destruct l as [|x l]; [done|]. simpl. apply IH. by apply Sorted_inv in Hs as [? _].
Qed.

Lemma Sorted_take {A} (R : A → A → Prop) (l : list A) n :
  Sorted R l → Sorted R (take n l).
Proof.
  revert l. induction n as [|n IH]; intros l Hs; [constructor|].
  destruct l as [|x l]; [done|]. simpl.
  apply Sorted_inv in Hs as [Hs Hhd]. constructor; [by apply IH|].
  destruct n, l; simpl; try constructor. by apply HdRel_inv in Hhd.
Qed.

Lemma splice_start_le len start : splice_start len start ≤ len.
Proof.
  unfold splice_start.
  destruct start as [z| |]; [|lia..]. destruct (Z.ltb_spec z 0); lia.
Qed.

Lemma splice_to_end {A} (l : list A) n :
  splice l n None = take (splice_start (length l) n) l.
Proof.
  unfold splice. simpl.
  pose proof (splice_start_le (length l) n) as Hle.
  rewrite drop_ge by lia. apply app_nil_r.
Qed.

Lemma splice_from_start {A} (l : list A) n :
  ∃ k, splice l (NFin 0) (Some n) = drop k l.
Proof.
  unfold splice.
  assert (splice_start (length l) (NFin 0) = 0) as -> by (simpl; lia).
  by eexists.
Qed.

(** X10.  With a consistent comparator, what [fetch] returns from a
    collection whose name is a key of the store, or a name no object
    inherits, is sorted by the comparator: every Document is followed by
    one it does not exceed, whatever the filter, [skip] and [limit]. *)
Theorem fetch_returns_sorted col settings cmp r :
  own_lookup (collections (_server col)) (_name col) →
  sort_of settings = Fn cmp →
  consistent cmp →
  fetch col settings = Returns r →
  Sorted (λ a b, (cmp a b ≤ 0)%Z) r.
Proof.
  intros _ Hs Hcons. rewrite fetch_unfold, Hs. simpl.
  set (sorted := array_sort cmp _).
  assert (Sorted (λ a b, (cmp a b ≤ 0)%Z) sorted) as Hsorted
    by (by apply array_sort_stably_sorted).
  assert (Sorted (λ a b, (cmp a b ≤ 0)%Z)
            (match settings ≫= skip with
             | Some n => splice sorted (NFin 0) (Some n)
             | None => sorted
             end)) as Hskipped.
  { destruct (settings ≫= skip) as [n|]; [|done].
    destruct (splice_from_start sorted n) as [k ->]. by apply Sorted_drop. }
  destruct (_filter col); [|done|]; intros [= <-];
    (destruct (settings ≫= limit) as [n|]; [|done]);
    rewrite splice_to_end; by apply Sorted_take.
Qed.

Lemma fetch_returns_sorted_witness :
  Sorted (λ a b, (ascending_by_v a b ≤ 0)%Z) [ {[ "id" := VNum 3; "v" := VNum 2 ]} ].
Proof.
  apply (fetch_returns_sorted v_collection (Some v_settings) ascending_by_v).
  - exact v_collection_own.
  - reflexivity.
  - exact ascending_by_v_consistent.
  - by vm_compute.
Defined.



Lemma splice_nil {A} start count : splice (@nil A) start count = [].
Proof. unfold splice. by rewrite take_nil, drop_nil. Qed.

(** X12.  [fetch] on a collection the store has no key for, under a name
    that no object inherits, returns the empty array, whatever the filter
    and the settings (short of [true] for the filter or the comparator). *)
Theorem fetch_unknown_collection col settings :
  collections (_server col) !! _name col = None →
  inherited (_name col) = false →
  _filter col ≠ On →
  sort_of settings ≠ On →
  fetch col settings = Returns [].
Proof.
  intros Hnone _ Hf Hs. rewrite fetch_unfold. unfold docs_of. rewrite Hnone.
  change (fullCopy_doc <$> default [] None) with (@nil doc).
  assert (order_by (sort_of settings) (keep_matching (_filter col) []) = []) as ->.
  { by destruct (_filter col), (sort_of settings). }
  cbv zeta.
  assert (match settings ≫= skip with
          | Some n => splice (@nil doc) (NFin 0) (Some n)
          | None => []
          end = []) as ->.
  { destruct (settings ≫= skip); [apply splice_nil | done]. }
  assert (match settings ≫= limit with
          | Some n => splice (@nil doc) n None
          | None => []
          end = []) as ->.
  { destruct (settings ≫= limit); [apply splice_nil | done]. }
  destruct (_filter col); [|done|]; by destruct (sort_of settings).
Qed.

Lemma fetch_unknown_collection_witness :
  fetch unknown_collection (Some v_settings) = Returns [].
Proof.
  apply (fetch_unknown_collection unknown_collection (Some v_settings)).
  - by vm_compute.
  - by vm_compute.
  - discriminate.
  - discriminate.
Defined.

(** * Further properties of the client *)

Local Open Scope nat_scope.

(** ** Views that the listeners of other futures preserve *)

Lemma elem_of_filter_other (p p' : nat) (l : list nat) :
  p' ≠ p → p ∈ filter (λ q, q ≠ p') l ↔ p ∈ l.
Proof. intros Hne. rewrite list_elem_of_filter. split; [tauto | intros; split; congruence]. Qed.

Lemma settle_timers p s c : timers (settle p s c) = timers c.
Proof. apply settle_frame. Qed.

Lemma run_listener_other_timer e c p p' :
  p' ≠ p → p ∈ timers (run_listener e c p') ↔ p ∈ timers c.
Proof.
  intros Hne. unfold run_listener.
  destruct (list_find _ _) as [[i el]|]; [|done].
  case_bool_decide; [|done].
  destruct (el_handler el) as [| |tag total|methodId]; unfold resolve.
  - rewrite settle_timers. by apply elem_of_filter_other.
  - by rewrite settle_timers.
  - case_bool_decide; [|done]. cbv zeta. destruct (Nat.eqb _ _); [|done].
    by rewrite settle_timers.
  - destruct (ev_msg e) as [|id error result|]; try done.
    case_bool_decide; [|done]. cbv zeta. unfold stop.
    change (timers (set_listeners ?x ?c)) with (timers c).
    destruct error as [err|]; [destruct (to_boolean err)|];
      rewrite settle_timers; by apply elem_of_filter_other.
Qed.

Lemma run_listener_other_owned e c p p' :
  p' ≠ p → owned p (run_listener e c p') = owned p c.
Proof.
  intros Hne. unfold owned. rewrite run_listener_other by done. f_equal.
  apply bool_decide_ext. by apply run_listener_other_timer.
Qed.

Lemma run_listeners_absent_owned e ps c p :
  p ∉ ps → owned p (foldl (run_listener e) c ps) = owned p c.
Proof.
  revert c. induction ps as [|q ps IH]; intros c Hnotin; simpl; [done|].
  rewrite IH by set_solver. apply run_listener_other_owned. set_solver.
Qed.

Lemma run_microtasks_owned p c : owned p (run_microtasks c) = owned p c.
Proof.
  unfold owned, mine.
  destruct (run_microtasks_frame c) as (_ & _ & -> & -> & _). do 2 f_equal.
  unfold run_microtasks.
  rewrite (foldl_preserves timers); [done|].
  intros a []. unfold run_continuation, restartSubs.
  rewrite (foldl_preserves timers); [done|]. intros a' b. by destruct (isOn b).
Qed.

Lemma clearData_owned p c :
  p < length (promises c) → owned p (clearData c).1 = owned p c.
Proof.
  intros Hp. unfold clearData. simpl.
  assert (∀ l : list promise_state, (promises c ++ l) !! p = promises c !! p) as Happ
    by (intros l; by apply lookup_app_l).
  destruct (Nat.eqb _ 0).
  - unfold owned, mine, resolve. simpl.
    rewrite settle_listeners, settle_timers, settle_other_promise by lia.
    simpl. by rewrite Happ.
  - simpl.
    match goal with |- context [foldl _ ?c0 ?es] =>
      destruct (foldl_emit_frame es c0) as (Hl & Hpr & _) end.
    unfold owned, mine. rewrite Hl, Hpr. simpl.
    rewrite filter_app, filter_cons_False, filter_nil, app_nil_r by (simpl; lia).
    rewrite Happ. do 2 f_equal.
    rewrite (foldl_preserves timers); done.
Qed.

Lemma then_owned p q k c : owned p (then_ q k c) = owned p c.
Proof. unfold then_. by destruct (promises c !! q) as [[| |]|]. Qed.

Lemma run_continuation_owned p k c : owned p (run_continuation k c) = owned p c.
Proof.
  unfold owned, mine.
  destruct (run_continuation_frame k c) as (_ & _ & -> & -> & _). do 2 f_equal.
  destruct k. unfold run_continuation, restartSubs.
  rewrite (foldl_preserves timers); [done|]. intros a' b. by destruct (isOn b).
Qed.

Section Owned.
Variable coerce : value → value → bool.

(** The listeners the constructor registers leave the futures already
    handed out, their listeners and their timers alone. *)
Lemma constructor_listeners_owned e c p :
  p < length (promises c) →
  owned p (constructor_listeners coerce e c) = owned p c.
Proof.
  intros Hp. unfold constructor_listeners, dispatch.
  destruct (ev_name e).
  - destruct (clearDataOnReconnection _).
    + pose proof (clearData_owned p (set_tryingToConnect false (set_connected true c)) Hp)
        as H.
      destruct (clearData _) as [c' p']. simpl in H. by rewrite then_owned, H.
    + by rewrite run_continuation_owned.
  - done.
  - destruct (ev_msg e) as [m| |]; [|done..].
    by destruct (dispatchAdded coerce (data c) m).
  - destruct (ev_msg e) as [m| |]; [|done..].
    by destruct (dispatchChanged coerce (data c) m).
  - destruct (ev_msg e) as [m| |]; [|done..].
    by destruct (dispatchRemoved coerce (data c) m).
  - done.
  - done.
Qed.

(** Any event, once no listener belongs to [p]. *)
Lemma deliver_absent e c p :
  (mine p c).1 = [] → p < length (promises c) →
  owned p (deliver coerce c e) = owned p c.
Proof.
  intros Hnil Hp. unfold deliver.
  rewrite run_microtasks_owned, run_listeners_absent_owned.
  - by apply constructor_listeners_owned.
  - intros (el & Hel & Hin)%list_elem_of_fmap.
    eapply (filter_nil_not_elem_of _ _ el Hnil); done.
Qed.

(** Any event, while exactly the listener [el] belongs to [p]: what its
    closure does decides. *)
Lemma deliver_own e c p el r :
  filter (λ x, el_promise x = p) (listeners c) = [el] →
  p < length (promises c) →
  (∀ c0, owned p c0 = owned p c → owned p (run_listener e c0 p) = r) →
  owned p (deliver coerce c e) = r.
Proof.
  intros Hf Hp Hstep. unfold deliver. rewrite run_microtasks_owned.
  assert (el_promise el = p) as Hel.
  { assert (el ∈ filter (λ x, el_promise x = p) (listeners c)) as Hin
      by (rewrite Hf; set_solver).
    by apply list_elem_of_filter in Hin as [? _]. }
  destruct (filter_singleton_split _ _ _ Hf) as (l1 & l2 & Hsplit & H1 & H2).
  rewrite Hsplit, fmap_app, fmap_cons, foldl_app. simpl. rewrite Hel.
  rewrite run_listeners_absent_owned.
  - apply Hstep. rewrite run_listeners_absent_owned.
    + by apply constructor_listeners_owned.
    + intros (x & Hx & Hin)%list_elem_of_fmap.
      rewrite Forall_forall in H1. by apply (H1 x Hin).
  - intros (x & Hx & Hin)%list_elem_of_fmap.
    rewrite Forall_forall in H2. by apply (H2 x Hin).
Qed.
End Owned.

(** ** The connection flags *)

Lemma settle_flags p s c :
  connected (settle p s c) = connected c ∧
  willTryToReconnect (settle p s c) = willTryToReconnect c ∧
  tryingToConnect (settle p s c) = tryingToConnect c ∧
  tryingToDisconnect (settle p s c) = tryingToDisconnect c ∧
  maxTimeout (settle p s c) = maxTimeout c.
Proof. unfold settle. destruct (promises c !! p) as [[| |]|]; destruct s; done. Qed.

(** A closure registered since the constructor never sets a flag: it
    leaves [connected] and [willTryToReconnect] alone and can only clear
    [tryingToConnect] and [tryingToDisconnect]. *)
Lemma run_listener_flags e c p :
  connected (run_listener e c p) = connected c ∧
  willTryToReconnect (run_listener e c p) = willTryToReconnect c ∧
  (tryingToConnect c = false → tryingToConnect (run_listener e c p) = false) ∧
  (tryingToDisconnect c = false → tryingToDisconnect (run_listener e c p) = false).
Proof.
  unfold run_listener.
  destruct (list_find _ _) as [[i el]|]; [|done].
  case_bool_decide; [|done].
  destruct (el_handler el) as [| |tag total|methodId]; unfold resolve.
  - by destruct (settle_flags p (Resolved VUndefined)
       (set_tryingToConnect false (stop p (clearTimeout p c)))) as (-> & -> & -> & -> & _).
  - by destruct (settle_flags p (Resolved VUndefined)
       (set_tryingToDisconnect false (stop p c))) as (-> & -> & -> & -> & _).
  - case_bool_decide; [|done]. cbv zeta. destruct (Nat.eqb _ _); [|done].
    match goal with |- context [settle p ?s ?c0] =>
      by destruct (settle_flags p s c0) as (-> & -> & -> & -> & _) end.
  - destruct (ev_msg e) as [|id error result|]; try done.
    case_bool_decide; [|done]. cbv zeta. unfold stop.
    destruct error as [err|]; [destruct (to_boolean err)|];
      match goal with |- context [settle p ?s ?c0] =>
        change (connected (set_listeners ?x ?c1)) with (connected c1);
        change (willTryToReconnect (set_listeners ?x ?c1)) with (willTryToReconnect c1);
        change (tryingToConnect (set_listeners ?x ?c1)) with (tryingToConnect c1);
        change (tryingToDisconnect (set_listeners ?x ?c1)) with (tryingToDisconnect c1);
        by destruct (settle_flags p s c0) as (-> & -> & -> & -> & _) end.
Qed.

Lemma run_listeners_flags e ps c :
  connected (foldl (run_listener e) c ps) = connected c ∧
  willTryToReconnect (foldl (run_listener e) c ps) = willTryToReconnect c ∧
  (tryingToConnect c = false → tryingToConnect (foldl (run_listener e) c ps) = false) ∧
  (tryingToDisconnect c = false →
   tryingToDisconnect (foldl (run_listener e) c ps) = false).
Proof.
  revert c. induction ps as [|q ps IH]; intros c; [done|]. cbn [foldl].
  destruct (IH (run_listener e c q)) as (-> & -> & H1 & H2).
  destruct (run_listener_flags e c q) as (-> & -> & H3 & H4).
  split_and!; [done | done | intros; by apply H1, H3 | intros; by apply H2, H4].
Qed.

Lemma restartSubs_flags c :
  connected (restartSubs c) = connected c ∧
  willTryToReconnect (restartSubs c) = willTryToReconnect c ∧
  tryingToConnect (restartSubs c) = tryingToConnect c ∧
  tryingToDisconnect (restartSubs c) = tryingToDisconnect c ∧
  timers (restartSubs c) = timers c.
Proof.
  unfold restartSubs. split_and!.
  - rewrite (foldl_preserves connected); [done|]. intros a b. by destruct (isOn b).
  - rewrite (foldl_preserves willTryToReconnect); [done|]. intros a b. by destruct (isOn b).
  - rewrite (foldl_preserves tryingToConnect); [done|]. intros a b. by destruct (isOn b).
  - rewrite (foldl_preserves tryingToDisconnect); [done|]. intros a b. by destruct (isOn b).
  - rewrite (foldl_preserves timers); [done|]. intros a b. by destruct (isOn b).
Qed.

Lemma run_continuation_flags k c :
  connected (run_continuation k c) = connected c ∧
  willTryToReconnect (run_continuation k c) = willTryToReconnect c ∧
  tryingToConnect (run_continuation k c) = tryingToConnect c ∧
  tryingToDisconnect (run_continuation k c) = tryingToDisconnect c.
Proof.
  destruct k. unfold run_continuation.
  by destruct (restartSubs_flags
    (emit {| ev_name := ClientReady; ev_msg := MNone; ev_tag := None |} c))
    as (-> & -> & -> & -> & _).
Qed.

Lemma run_microtasks_flags c :
  connected (run_microtasks c) = connected c ∧
  willTryToReconnect (run_microtasks c) = willTryToReconnect c ∧
  tryingToConnect (run_microtasks c) = tryingToConnect c ∧
  tryingToDisconnect (run_microtasks c) = tryingToDisconnect c.
Proof.
  unfold run_microtasks. split_and!.
  - rewrite (foldl_preserves connected); [done|]. intros. apply run_continuation_flags.
  - rewrite (foldl_preserves willTryToReconnect); [done|].
    intros. apply run_continuation_flags.
  - rewrite (foldl_preserves tryingToConnect); [done|].
    intros. apply run_continuation_flags.
  - rewrite (foldl_preserves tryingToDisconnect); [done|].
    intros. apply run_continuation_flags.
Qed.

Lemma clearData_flags c :
  connected (clearData c).1 = connected c ∧
  willTryToReconnect (clearData c).1 = willTryToReconnect c ∧
  tryingToConnect (clearData c).1 = tryingToConnect c ∧
  tryingToDisconnect (clearData c).1 = tryingToDisconnect c.
Proof.
  unfold clearData. simpl. destruct (Nat.eqb _ 0); simpl.
  - unfold resolve.
    match goal with |- context [settle ?p ?s ?c0] =>
      by destruct (settle_flags p s c0) as (-> & -> & -> & -> & _) end.
  - split_and!.
    + rewrite (foldl_preserves connected); done.
    + rewrite (foldl_preserves willTryToReconnect); done.
    + rewrite (foldl_preserves tryingToConnect); done.
    + rewrite (foldl_preserves tryingToDisconnect); done.
Qed.

Lemma then_flags q k c :
  connected (then_ q k c) = connected c ∧
  willTryToReconnect (then_ q k c) = willTryToReconnect c ∧
  tryingToConnect (then_ q k c) = tryingToConnect c ∧
  tryingToDisconnect (then_ q k c) = tryingToDisconnect c.
Proof. unfold then_. by destruct (promises c !! q) as [[| |]|]. Qed.

Section Flags.
Variable coerce : value → value → bool.

Lemma constructor_listeners_flags e c :
  willTryToReconnect (constructor_listeners coerce e c) = willTryToReconnect c ∧
  (ev_name e = Connected →
   connected (constructor_listeners coerce e c) = true ∧
   tryingToConnect (constructor_listeners coerce e c) = false) ∧
  (ev_name e = Disconnected →
   connected (constructor_listeners coerce e c) = false ∧
   tryingToDisconnect (constructor_listeners coerce e c) = false ∧
   tryingToConnect (constructor_listeners coerce e c) = willTryToReconnect c).
Proof.
  unfold constructor_listeners, dispatch.
  destruct (ev_name e); try (split_and!; done).
  - destruct (clearDataOnReconnection _).
    + pose proof (clearData_flags (set_tryingToConnect false (set_connected true c))) as H.
      destruct (clearData _) as [c' p']. simpl in H.
      destruct (then_flags p' ReadyAndRestart c') as (-> & -> & -> & _).
      destruct H as (-> & -> & -> & _). split_and!; done.
    + destruct (run_continuation_flags ReadyAndRestart
        (set_tryingToConnect false (set_connected true c))) as (-> & -> & -> & _).
      split_and!; done.
  - destruct (ev_msg e) as [m| |]; [|split_and!; done..].
    destruct (dispatchAdded coerce (data c) m). split_and!; done.
  - destruct (ev_msg e) as [m| |]; [|split_and!; done..].
    destruct (dispatchChanged coerce (data c) m). split_and!; done.
  - destruct (ev_msg e) as [m| |]; [|split_and!; done..].
    destruct (dispatchRemoved coerce (data c) m). split_and!; done.
Qed.

(** The flags after an event has been delivered. *)
Lemma deliver_flags e c :
  willTryToReconnect (deliver coerce c e) = willTryToReconnect c ∧
  (ev_name e = Connected →
   connected (deliver coerce c e) = true ∧ tryingToConnect (deliver coerce c e) = false) ∧
  (ev_name e = Disconnected →
   connected (deliver coerce c e) = false ∧
   tryingToDisconnect (deliver coerce c e) = false ∧
   (willTryToReconnect c = false → tryingToConnect (deliver coerce c e) = false)).
Proof.
  unfold deliver.
  match goal with |- context [run_microtasks ?c0] =>
    destruct (run_microtasks_flags c0) as (-> & -> & -> & ->) end.
  destruct (run_listeners_flags e (el_promise <$> listeners c)
              (constructor_listeners coerce e c)) as (-> & -> & H1 & H2).
  destruct (constructor_listeners_flags e c) as (-> & HC & HD).
  split_and!; [done | |].
  - intros He. destruct (HC He) as [-> Ht]. auto.
  - intros He. destruct (HD He) as (-> & Htd & Htc). split_and!; [done | auto |].
    intros Hw. apply H1. by rewrite Htc.
Qed.
End Flags.

(** ** The closures of connect, disconnect and apply *)

Lemma not_elem_of_filter_own (p : nat) (l : list nat) : p ∉ filter (λ q, q ≠ p) l.
Proof. rewrite list_elem_of_filter. tauto. Qed.

Lemma run_listener_connectionHandler e c p b :
  owned p c = ([connectionHandler p], Some Pending, b) →
  ev_name e = Connected →
  owned p (run_listener e c p) = ([], Some (Resolved VUndefined), false).
Proof.
  intros Hown He. injection Hown as Hl Hp _.
  destruct (filter_head_find _ _ _ _ Hl) as [i Hfind].
  unfold run_listener. rewrite Hfind.
  change (el_event (connectionHandler p)) with Connected.
  change (el_handler (connectionHandler p)) with OnConnected. cbv iota beta.
  rewrite bool_decide_eq_true_2 by done.
  unfold owned, mine, resolve.
  rewrite settle_listeners, settle_timers, settle_pending by done. simpl.
  rewrite filter_own_promise. do 2 f_equal.
  rewrite bool_decide_eq_false_2; [done | apply not_elem_of_filter_own].
Qed.

Lemma run_listener_disconnectionHandler e c p b :
  owned p c = ([disconnectionHandler p], Some Pending, b) →
  ev_name e = Disconnected →
  owned p (run_listener e c p) = ([], Some (Resolved VUndefined), b).
Proof.
  intros Hown He. injection Hown as Hl Hp Hb.
  destruct (filter_head_find _ _ _ _ Hl) as [i Hfind].
  unfold run_listener. rewrite Hfind.
  change (el_event (disconnectionHandler p)) with Disconnected.
  change (el_handler (disconnectionHandler p)) with OnDisconnected. cbv iota beta.
  rewrite bool_decide_eq_true_2 by done.
  unfold owned, mine, resolve.
  rewrite settle_listeners, settle_timers, settle_pending by done. simpl.
  by rewrite filter_own_promise, Hb.
Qed.

Lemma run_listener_onMethodResult e c p mid b :
  owned p c = ([onMethodResult mid p], Some Pending, b) →
  owned p (run_listener e c p) =
    match answer mid e with
    | Pending => ([onMethodResult mid p], Some Pending, b)
    | s => ([], Some s, false)
    end.
Proof.
  intros Hown. pose proof Hown as Hsame. injection Hown as Hl Hp Hb.
  destruct (filter_head_find _ _ _ _ Hl) as [i Hfind].
  unfold run_listener, answer. rewrite Hfind.
  change (el_event (onMethodResult mid p)) with ResultEv.
  change (el_handler (onMethodResult mid p)) with (OnMethodResult mid). cbv iota beta.
  destruct (decide (ResultEv = ev_name e)) as [Hn|Hn].
  - rewrite bool_decide_eq_true_2 by done.
    rewrite <- Hn. destruct (ev_msg e) as [|id error result|]; [exact Hsame| |exact Hsame].
    destruct (decide (id = mid)) as [Hid|Hid];
      [rewrite !bool_decide_eq_true_2 by done
      |rewrite !bool_decide_eq_false_2 by done; exact Hsame].
    cbv zeta.
    assert (∀ s, s ≠ Pending →
              owned p (stop p (settle p s (clearTimeout p c))) = ([], Some s, false))
      as Hsettle.
    { intros s Hs. unfold owned, mine, stop. simpl.
      rewrite settle_listeners, settle_timers, settle_pending by done. simpl.
      rewrite filter_own_promise. do 2 f_equal.
      rewrite bool_decide_eq_false_2; [done | apply not_elem_of_filter_own]. }
    unfold outcome_of.
    destruct error as [err|]; [destruct (to_boolean err)|]; simpl; by rewrite Hsettle.
  - rewrite bool_decide_eq_false_2 by done. destruct (ev_name e); done || exact Hsame.
Qed.

Section Futures.
Variable coerce : value → value → bool.

(** No event touches a future whose listener is gone. *)
Lemma deliver_all_absent es c p s :
  mine p c = ([], Some s) → owned p (deliver_all coerce c es) = owned p c.
Proof.
  unfold deliver_all. revert c.
  induction es as [|e es IH]; intros c Hmine; cbn [foldl]; [done|].
  assert (owned p (deliver coerce c e) = owned p c) as Hstep.
  { apply deliver_absent; [by rewrite Hmine|].
    apply (lookup_lt_Some _ _ s). by injection Hmine. }
  pose proof (f_equal fst Hstep) as Hm.
  change (mine p (deliver coerce c e) = mine p c) in Hm.
  rewrite IH; [done|]. by rewrite Hm.
Qed.
End Futures.

Lemma filter_known c :
  listeners_known c →
  filter (λ el, el_promise el = length (promises c)) (listeners c) = [].
Proof.
  unfold listeners_known. induction 1 as [|el l Hel _ IH]; [done|].
  rewrite filter_cons_False; [done | lia].
Qed.

Lemma fresh_lookup (l : list promise_state) : (l ++ [Pending]) !! length l = Some Pending.
Proof. by rewrite lookup_app_r, Nat.sub_diag. Qed.

Lemma elem_of_timers_snoc (p : nat) (l : list nat) : bool_decide (p ∈ l ++ [p]) = true.
Proof. apply bool_decide_eq_true_2. set_solver. Qed.

(** What [connect] leaves behind on a client that is not connected. *)
Lemma connect_registers c :
  connected c = false → listeners_known c →
  let p := length (promises c) in
  (connect c).2 = p ∧
  mine p (connect c).1 = ([connectionHandler p], Some Pending) ∧
  timers (connect c).1 = timers c ++ (if truthy (maxTimeout c) then [p] else []) ∧
  calls (ddpConnection (connect c).1) =
    calls (ddpConnection c) ++ (if tryingToConnect c then [] else [TConnect]) ∧
  connected (connect c).1 = false ∧
  length (promises (connect c).1) = S p.
Proof.
  intros Hc Hknown p. subst p. unfold connect, new_promise. simpl.
  destruct (tryingToConnect c); simpl; rewrite Hc; simpl;
    destruct (truthy (maxTimeout c)); unfold mine; simpl;
    rewrite filter_app, (filter_known c Hknown), fresh_lookup, ?app_nil_r, length_app;
    simpl; rewrite filter_cons_True, filter_nil by done;
    (split_and!; [done..|lia]).
Qed.

(** What [disconnect] leaves behind on a connected client. *)
Lemma disconnect_registers c :
  connected c = true → listeners_known c →
  let p := length (promises c) in
  (disconnect c).2 = p ∧
  mine p (disconnect c).1 = ([disconnectionHandler p], Some Pending) ∧
  willTryToReconnect (disconnect c).1 = false ∧
  length (promises (disconnect c).1) = S p.
Proof.
  intros Hc Hknown p. subst p. unfold disconnect, new_promise. simpl.
  destruct (tryingToDisconnect c); simpl; rewrite Hc; simpl; unfold mine; simpl;
    rewrite filter_app, (filter_known c Hknown), fresh_lookup, length_app;
    simpl; rewrite filter_cons_True, filter_nil by done;
    (split_and!; [done..|lia]).
Qed.

(** What [apply] leaves behind. *)
Lemma apply_registers name params b c :
  listeners_known c →
  let p := length (promises c) in
  let methodId := pretty (nextId (ddpConnection c)) in
  (apply name params b c).2 = p ∧
  mine p (apply name params b c).1 = ([onMethodResult methodId p], Some Pending) ∧
  timers (apply name params b c).1 =
    timers c ++ (if truthy (maxTimeout c) then [p] else []) ∧
  length (promises (apply name params b c).1) = S p.
Proof.
  intros Hknown p methodId. subst p methodId. unfold apply, new_promise. simpl.
  destruct (truthy (maxTimeout c)); unfold mine; simpl;
    rewrite filter_app, (filter_known c Hknown), fresh_lookup, ?app_nil_r, length_app;
    simpl; rewrite filter_cons_True, filter_nil by done;
    (split_and!; [done..|lia]).
Qed.

Lemma timed_client_known : listeners_known timed_client.
Proof. by vm_compute. Qed.

Lemma fresh_client_known : listeners_known fresh_client.
Proof. by vm_compute. Qed.

Lemma online_client_known : listeners_known online_client.
Proof. by vm_compute. Qed.

Section ConnectionFutures.
Variable coerce : value → value → bool.

(** X13.  [connect] on a client that is not connected returns a pending
    future and asks the transport to connect exactly when no attempt is
    under way; the next [connected] event resolves the future, removes its
    listener, clears its timeout, and leaves [connected] set and
    [tryingToConnect] clear, whatever other listeners are registered. *)
Theorem connect_then_connected c e :
  connected c = false → listeners_known c → ev_name e = Connected →
  let c1 := (connect c).1 in
  let p := (connect c).2 in
  let c2 := deliver coerce c1 e in
  promises c1 !! p = Some Pending ∧
  calls (ddpConnection c1) =
    calls (ddpConnection c) ++ (if tryingToConnect c then [] else [TConnect]) ∧
  promises c2 !! p = Some (Resolved VUndefined) ∧
  filter (λ el, el_promise el = p) (listeners c2) = [] ∧
  (p ∉ timers c2) ∧
  connected c2 = true ∧ tryingToConnect c2 = false.
Proof.
  intros Hc Hknown He c1 p c2.
  destruct (connect_registers c Hc Hknown) as (Hp & Hmine & _ & Hcalls & _ & Hlen).
  fold c1 in Hmine, Hcalls, Hlen. fold p in Hp. rewrite <- Hp in Hmine, Hlen.
  assert (owned p c2 = ([], Some (Resolved VUndefined), false)) as Hown.
  { apply (deliver_own coerce e c1 p (connectionHandler p)).
    - by injection Hmine.
    - lia.
    - intros c0 H0. apply (run_listener_connectionHandler e c0 p (bool_decide (p ∈ timers c1)));
        [|done].
      rewrite H0. unfold owned. by rewrite Hmine. }
  injection Hown as Hl Hpr Ht.
  destruct (deliver_flags coerce e c1) as (_ & HC & _). destruct (HC He) as [Hcon Htry].
  split_and!; try done.
  - by injection Hmine.
  - by apply bool_decide_eq_false in Ht.
Qed.

(** X14.  [disconnect] on a connected client returns a future that the
    next [disconnected] event resolves; after that event the listener is
    gone, the client is neither connected nor trying to connect or to
    disconnect, and it will not try to reconnect. *)
Theorem disconnect_then_disconnected c e :
  connected c = true → listeners_known c → ev_name e = Disconnected →
  let c1 := (disconnect c).1 in
  let p := (disconnect c).2 in
  let c2 := deliver coerce c1 e in
  promises c1 !! p = Some Pending ∧
  promises c2 !! p = Some (Resolved VUndefined) ∧
  filter (λ el, el_promise el = p) (listeners c2) = [] ∧
  connected c2 = false ∧ tryingToDisconnect c2 = false ∧
  tryingToConnect c2 = false ∧ willTryToReconnect c2 = false.
Proof.
  intros Hc Hknown He c1 p c2.
  destruct (disconnect_registers c Hc Hknown) as (Hp & Hmine & Hw & Hlen).
  fold c1 in Hmine, Hw, Hlen. fold p in Hp. rewrite <- Hp in Hmine, Hlen.
  assert (owned p c2 = ([], Some (Resolved VUndefined), bool_decide (p ∈ timers c1)))
    as Hown.
  { apply (deliver_own coerce e c1 p (disconnectionHandler p)).
    - by injection Hmine.
    - lia.
    - intros c0 H0. apply run_listener_disconnectionHandler; [|done].
      rewrite H0. unfold owned. by rewrite Hmine. }
  injection Hown as Hl Hpr.
  destruct (deliver_flags coerce e c1) as (Hwill & _ & HD).
  destruct (HD He) as (Hcon & Htd & Htc).
  split_and!; try done.
  - by injection Hmine.
  - by apply Htc.
  - unfold c2. by rewrite Hwill.
Qed.

(** X16.  With a maximum wait configured, when the timeout of a
    [connect] future fires before any [connected] event, the future is
    rejected with MAX_TIMEOUT_REACHED, its listener is removed and
    [tryingToConnect] is cleared; no later event changes the future. *)
Theorem connect_timeout c es :
  connected c = false → listeners_known c → truthy (maxTimeout c) = true →
  let c1 := (connect c).1 in
  let p := (connect c).2 in
  let c2 := fire_timeout p c1 in
  promises c2 !! p = Some (Rejected MAX_TIMEOUT_REACHED) ∧
  filter (λ el, el_promise el = p) (listeners c2) = [] ∧
  tryingToConnect c2 = false ∧
  promises (deliver_all coerce c2 es) !! p = Some (Rejected MAX_TIMEOUT_REACHED).
Proof.
  intros Hc Hknown Hmax c1 p c2.
  destruct (connect_registers c Hc Hknown) as (Hp & Hmine & Ht & _).
  fold c1 in Hmine, Ht. fold p in Hp. rewrite <- Hp in Hmine, Ht. rewrite Hmax in Ht.
  injection Hmine as Hl Hpend.
  destruct (filter_head_find _ _ _ _ Hl) as [i Hfind].
  assert (c2 = settle p (Rejected MAX_TIMEOUT_REACHED)
                 (set_tryingToConnect false (stop p (clearTimeout p c1)))) as Hc2.
  { unfold c2, fire_timeout. rewrite Ht, elem_of_timers_snoc.
    change (listeners (clearTimeout p c1)) with (listeners c1). by rewrite Hfind. }
  assert (mine p c2 = ([], Some (Rejected MAX_TIMEOUT_REACHED))) as Hmine2.
  { rewrite Hc2. unfold mine. rewrite settle_listeners, settle_pending by done.
    simpl. by rewrite filter_own_promise. }
  pose proof (f_equal fst (deliver_all_absent coerce es c2 p _ Hmine2)) as Hlater.
  change (mine p (deliver_all coerce c2 es) = mine p c2) in Hlater.
  rewrite Hmine2 in Hlater.
  split_and!.
  - by injection Hmine2.
  - by injection Hmine2.
  - rewrite Hc2. by destruct (settle_flags p (Rejected MAX_TIMEOUT_REACHED)
      (set_tryingToConnect false (stop p (clearTimeout p c1)))) as (_ & _ & -> & _).
  - by injection Hlater.
Qed.

(** X17.  The future of [apply] after the next event: a [result] message
    whose id is the call's correlation id settles it, rejected with the
    error when the message has one that is truthy, and resolved with the
    result otherwise (no error, or one that is [0], the empty text,
    [false] or [null]); every other event leaves it pending.  Once settled
    its listener and timeout are gone and no later event changes it. *)
Theorem apply_answer name params b c e es :
  listeners_known c →
  let c1 := (apply name params b c).1 in
  let p := (apply name params b c).2 in
  let methodId := pretty (nextId (ddpConnection c)) in
  let c2 := deliver coerce c1 e in
  promises c2 !! p = Some (answer methodId e) ∧
  (answer methodId e ≠ Pending →
   filter (λ el, el_promise el = p) (listeners c2) = [] ∧ (p ∉ timers c2) ∧
   promises (deliver_all coerce c2 es) !! p = Some (answer methodId e)).
Proof.
  intros Hknown c1 p methodId c2.
  destruct (apply_registers name params b c Hknown) as (Hp & Hmine & _ & Hlen).
  fold c1 in Hmine, Hlen. fold p in Hp. fold methodId in Hmine.
  rewrite <- Hp in Hmine, Hlen.
  assert (owned p c2 =
            match answer methodId e with
            | Pending => ([onMethodResult methodId p], Some Pending,
                          bool_decide (p ∈ timers c1))
            | s => ([], Some s, false)
            end) as Hown.
  { apply (deliver_own coerce e c1 p (onMethodResult methodId p)).
    - by injection Hmine.
    - lia.
    - intros c0 H0. apply run_listener_onMethodResult.
      rewrite H0. unfold owned. by rewrite Hmine. }
  split.
  - destruct (answer methodId e); by injection Hown.
  - intros Hs.
    assert (owned p c2 = ([], Some (answer methodId e), false)) as Hown'
      by (by destruct (answer methodId e)).
    injection Hown' as Hl Hpr Ht.
    assert (mine p c2 = ([], Some (answer methodId e))) as Hmine2
      by (unfold mine; by rewrite Hl, Hpr).
    pose proof (f_equal fst (deliver_all_absent coerce es c2 p _ Hmine2)) as Hlater.
    change (mine p (deliver_all coerce c2 es) = mine p c2) in Hlater.
    rewrite Hmine2 in Hlater.
    split_and!; [done | by apply bool_decide_eq_false in Ht | by injection Hlater].
Qed.

(** X18.  With a maximum wait configured, when the timeout of an [apply]
    future fires before its result has come, the future is rejected with
    MAX_TIMEOUT_REACHED and its listener is removed, so that the result,
    should it come later, is ignored. *)
Theorem apply_timeout name params b c es :
  listeners_known c → truthy (maxTimeout c) = true →
  let c1 := (apply name params b c).1 in
  let p := (apply name params b c).2 in
  let c2 := fire_timeout p c1 in
  promises c2 !! p = Some (Rejected MAX_TIMEOUT_REACHED) ∧
  filter (λ el, el_promise el = p) (listeners c2) = [] ∧
  promises (deliver_all coerce c2 es) !! p = Some (Rejected MAX_TIMEOUT_REACHED).
Proof.
  intros Hknown Hmax c1 p c2.
  destruct (apply_registers name params b c Hknown) as (Hp & Hmine & Ht & _).
  fold c1 in Hmine, Ht. fold p in Hp. rewrite <- Hp in Hmine, Ht. rewrite Hmax in Ht.
  injection Hmine as Hl Hpend.
  destruct (filter_head_find _ _ _ _ Hl) as [i Hfind].
  assert (c2 = settle p (Rejected MAX_TIMEOUT_REACHED) (stop p (clearTimeout p c1)))
    as Hc2.
  { unfold c2, fire_timeout. rewrite Ht, elem_of_timers_snoc.
    change (listeners (clearTimeout p c1)) with (listeners c1). by rewrite Hfind. }
  assert (mine p c2 = ([], Some (Rejected MAX_TIMEOUT_REACHED))) as Hmine2.
  { rewrite Hc2. unfold mine. rewrite settle_listeners, settle_pending by done.
    simpl. by rewrite filter_own_promise. }
  pose proof (f_equal fst (deliver_all_absent coerce es c2 p _ Hmine2)) as Hlater.
  change (mine p (deliver_all coerce c2 es) = mine p c2) in Hlater.
  rewrite Hmine2 in Hlater.
  split_and!; [by injection Hmine2 | by injection Hmine2 | by injection Hlater].
Qed.

End ConnectionFutures.

Lemma connect_then_connected_witness :
  promises (deliver no_coerce (connect fresh_client).1 connected_event)
    !! (connect fresh_client).2 = Some (Resolved VUndefined).
Proof.
  exact (proj1 (proj2 (proj2
    (connect_then_connected no_coerce fresh_client connected_event eq_refl fresh_client_known
       eq_refl)))).
Defined.

Lemma disconnect_then_disconnected_witness :
  promises (deliver no_coerce (disconnect online_client).1 disconnected_event)
    !! (disconnect online_client).2 = Some (Resolved VUndefined).
Proof.
  exact (proj1 (proj2
    (disconnect_then_disconnected no_coerce online_client disconnected_event eq_refl
       online_client_known eq_refl))).
Defined.

Lemma connect_timeout_witness :
  promises (deliver_all no_coerce (fire_timeout (connect timed_client).2
                                     (connect timed_client).1) [connected_event])
    !! (connect timed_client).2 = Some (Rejected MAX_TIMEOUT_REACHED).
Proof.
  exact (proj2 (proj2 (proj2
    (connect_timeout no_coerce timed_client [connected_event] eq_refl timed_client_known eq_refl)))).
Defined.

Lemma apply_answer_witness :
  promises (deliver no_coerce (apply "sum" (Some [VNum 1]) false online_client).1
              (result_event "0" (Some (VNum 0)) (VNum 7)))
    !! (apply "sum" (Some [VNum 1]) false online_client).2 = Some (Resolved (VNum 7)).
Proof.
  exact (proj1
    (apply_answer no_coerce "sum" (Some [VNum 1]) false online_client
       (result_event "0" (Some (VNum 0)) (VNum 7)) [] online_client_known)).
Defined.

Lemma apply_timeout_witness :
  promises (deliver_all no_coerce
              (fire_timeout (apply "sum" None false timed_client).2
                 (apply "sum" None false timed_client).1)
              [result_event "0" None (VNum 7)])
    !! (apply "sum" None false timed_client).2 = Some (Rejected MAX_TIMEOUT_REACHED).
Proof.
  exact (proj2 (proj2
    (apply_timeout no_coerce "sum" None false timed_client [result_event "0" None (VNum 7)]
       timed_client_known eq_refl))).
Defined.

(** X15.  [disconnect] clears [willTryToReconnect], asks the transport to
    disconnect exactly when no disconnection is under way, and sets
    [tryingToDisconnect]; its future is resolved at once when the client is
    not connected and pending behind a [disconnected] listener otherwise.
    It never arms a timeout, whatever [maxTimeout] is. *)
Theorem disconnect_call c :
  let c1 := (disconnect c).1 in
  let p := (disconnect c).2 in
  p = length (promises c) ∧
  willTryToReconnect c1 = false ∧ tryingToDisconnect c1 = true ∧
  connected c1 = connected c ∧
  calls (ddpConnection c1) =
    calls (ddpConnection c) ++ (if tryingToDisconnect c then [] else [TDisconnect]) ∧
  promises c1 !! p = Some (if connected c then Pending else Resolved VUndefined) ∧
  listeners c1 = listeners c ++ (if connected c then [disconnectionHandler p] else []) ∧
  timers c1 = timers c.
Proof.
  unfold disconnect, new_promise. simpl.
  destruct (tryingToDisconnect c) eqn:Ht, (connected c) eqn:Hc; simpl;
    rewrite ?Hc, ?Ht; simpl; rewrite ?app_nil_r, ?fresh_lookup; unfold resolve;
    try match goal with |- context [settle ?p ?s ?c0] =>
      destruct (settle_flags p s c0) as (-> & -> & _ & -> & _);
      destruct (settle_frame p s c0) as (-> & _ & _ & _ & _ & -> & -> & _)
    end;
    split_and!; try done; apply settle_pending; simpl; apply fresh_lookup.
Qed.

(** ** Bulk operations *)

(** X19.  [clearData] on a store without Documents (no collection, or
    only empty ones) resolves its future at once: it registers no listener,
    queues no message and draws no operation id. *)
Theorem clearData_empty c :
  totalDocuments (map_to_list (collections (data c))) = 0 →
  let c1 := (clearData c).1 in
  let p := (clearData c).2 in
  promises c1 !! p = Some (Resolved VUndefined) ∧
  listeners c1 = listeners c ∧
  ddpConnection c1 = ddpConnection c ∧
  _opGenId c1 = _opGenId c ∧
  data c1 = data c.
Proof.
  intros Htotal. unfold clearData. simpl. rewrite Htotal. simpl. unfold resolve.
  split; [apply settle_fresh|].
  match goal with |- context [settle ?p ?s ?c0] =>
    by destruct (settle_frame p s c0) as (-> & _ & -> & _ & _ & -> & _ & _ & _ & ->) end.
Qed.

Lemma clearData_empty_witness :
  docs_of (data emptied_client) "tasks" = [] ∧
  collections (data emptied_client) !! "tasks" = Some [] ∧
  promises (clearData emptied_client).1 !! (clearData emptied_client).2
    = Some (Resolved VUndefined).
Proof.
  split; [by vm_compute|]. split; [by vm_compute|].
  exact (proj1 (clearData_empty emptied_client eq_refl)).
Defined.

Section Own.
Variable coerce : value → value → bool.

(** As [deliver_own], for the listeners and the state of the future only. *)
Lemma deliver_own_mine e c p el r :
  filter (λ x, el_promise x = p) (listeners c) = [el] →
  p < length (promises c) →
  (∀ c0, mine p c0 = mine p c → mine p (run_listener e c0 p) = r) →
  mine p (deliver coerce c e) = r.
Proof.
  intros Hf Hp Hstep. unfold deliver.
  rewrite (mine_ext p (foldl (run_listener e) (constructor_listeners coerce e c)
                         (el_promise <$> listeners c)) (run_microtasks _));
    [|apply run_microtasks_frame..].
  assert (el_promise el = p) as Hel.
  { assert (el ∈ filter (λ x, el_promise x = p) (listeners c)) as Hin
      by (rewrite Hf; set_solver).
    by apply list_elem_of_filter in Hin as [? _]. }
  pose proof (f_equal fst (constructor_listeners_owned coerce e c p Hp)) as Hc.
  change (mine p (constructor_listeners coerce e c) = mine p c) in Hc.
  destruct (filter_singleton_split _ _ _ Hf) as (l1 & l2 & Hsplit & H1 & H2).
  rewrite Hsplit, fmap_app, fmap_cons, foldl_app. simpl. rewrite Hel.
  rewrite run_listeners_absent.
  - apply Hstep. rewrite run_listeners_absent; [done|].
    intros (x & Hx & Hin)%list_elem_of_fmap.
    rewrite Forall_forall in H1. by apply (H1 x Hin).
  - intros (x & Hx & Hin)%list_elem_of_fmap.
    rewrite Forall_forall in H2. by apply (H2 x Hin).
Qed.

(** A counting listener that waits for zero notifications waits for ever. *)
Lemma deliver_all_counting_zero es c n tag k p :
  mine p c = ([tagged_listener n tag 0 k p], Some Pending) →
  ∃ k', mine p (deliver_all coerce c es) = ([tagged_listener n tag 0 k' p], Some Pending).
Proof.
  unfold deliver_all. revert c k.
  induction es as [|e es IH]; intros c k Hmine; cbn [foldl]; [by exists k|].
  assert (mine p (deliver coerce c e) = counted n tag 0 k p e) as Hstep.
  { apply (deliver_own_mine e c p (tagged_listener n tag 0 k p)).
    - by injection Hmine.
    - apply (lookup_lt_Some _ _ Pending). by injection Hmine.
    - intros c0 H0. apply run_listener_own. by rewrite H0. }
  unfold counted in Hstep.
  destruct (decide (is_tagged n tag e)).
  - rewrite decide_False in Hstep by lia. by apply (IH _ (S k)).
  - by apply (IH _ k).
Qed.
End Own.

(** X20.  [importData] of a data set without Documents returns a future
    that nothing settles: whatever events follow, it stays pending and
    its listener stays registered. *)
Theorem importData_empty_never_resolves coerce parse data_ cs c es :
  match data_ with inl s => parse s | inr d => Some d end = Some cs →
  totalDocuments cs = 0 →
  listeners_known c →
  let c1 := (importData parse data_ c).1 in
  let p := (importData parse data_ c).2 in
  promises (deliver_all coerce c1 es) !! p = Some Pending ∧
  filter (λ el, el_promise el = p) (listeners (deliver_all coerce c1 es)) ≠ [].
Proof.
  intros Hcs Htotal Hknown c1 p.
  destruct (importData_registers parse data_ cs c Hcs) as (Hp & _ & _ & Hmine).
  specialize (Hmine Hknown). fold c1 in Hmine. fold p in Hp.
  rewrite <- Hp, Htotal in Hmine.
  destruct (deliver_all_counting_zero coerce es c1 _ _ _ _ Hmine) as [k' Hk'].
  injection Hk' as Hl Hpr. split; [done|]. by rewrite Hl.
Qed.

Lemma importData_empty_never_resolves_witness :
  promises (deliver_all no_coerce (importData no_parse (inr no_documents) online_client).1
              [connected_event; disconnected_event])
    !! (importData no_parse (inr no_documents) online_client).2 = Some Pending.
Proof.
  exact (proj1
    (importData_empty_never_resolves no_coerce no_parse (inr no_documents) no_documents
       online_client [connected_event; disconnected_event] eq_refl eq_refl
       online_client_known)).
Defined.

(** ** Operation tags *)

Lemma dashless_pretty_N_go x s : dashless s = true → dashless (pretty_N_go x s) = true.
Proof.
  revert s. induction (N.lt_wf_0 x) as [x _ IH]; intros s Hs.
  assert (x = 0 ∨ 0 < x)%N as [->|?] by lia.
  - by rewrite pretty_N_go_0.
  - rewrite pretty_N_go_step by done. apply IH.
    { by apply N.div_lt. }
    simpl. rewrite Hs, andb_true_r.
    unfold pretty_N_char. by repeat case_match.
Qed.

Lemma dashless_pretty (n : nat) : dashless (pretty n) = true.
Proof.
  unfold pretty, pretty_nat, pretty, pretty_N.
  case_decide; [done|]. by apply dashless_pretty_N_go.
Qed.

(** A text without "-", then "-", then anything, splits in one way. *)
Lemma dashed_inj s1 s2 t1 t2 :
  dashless s1 = true → dashless s2 = true →
  s1 +:+ "-" +:+ t1 = s2 +:+ "-" +:+ t2 → s1 = s2 ∧ t1 = t2.
Proof.
  revert s2. induction s1 as [|a s1 IH]; intros [|b s2] H1 H2 Heq; simpl in *.
  - by injection Heq.
  - injection Heq as <- _. done.
  - injection Heq as -> _. done.
  - injection Heq as -> Heq.
    apply andb_true_iff in H1 as [_ H1]. apply andb_true_iff in H2 as [_ H2].
    destruct (IH s2 H1 H2 Heq) as [-> ->]. done.
Qed.

(** X23.  The operation tag [this._id + "-" + this._opGenId()] names the
    instance and the operation: two draws give the same tag only for the
    same instance number and the same counter, and every draw moves the
    counter on by one. *)
Theorem operation_tags_unique c c' :
  (_id c, _opGenId c) ≠ (_id c', _opGenId c') →
  (uniqueId c).2 ≠ (uniqueId c').2 ∧
  _opGenId (uniqueId c).1 = S (_opGenId c) ∧ _id (uniqueId c).1 = _id c.
Proof.
  intros Hne. split; [|done]. unfold uniqueId. simpl. intros Heq.
  apply dashed_inj in Heq as [Hid Hop]; [|apply dashless_pretty..].
  apply (inj pretty) in Hid. apply (inj pretty) in Hop. congruence.
Qed.

Lemma operation_tags_unique_witness :
  (uniqueId fresh_client).2 ≠ (uniqueId (uniqueId fresh_client).1).2.
Proof.
  refine (proj1 (operation_tags_unique fresh_client (uniqueId fresh_client).1 _)).
  by vm_compute.
Defined.

(** * Export, import and the operation tags *)

Lemma stored_shape_id (d : doc) : stored_shape d → is_Some (d !! "_id").
Proof.
  intros [_ Hn]. unfold prop in Hn. destruct (d !! "_id"); [by eexists | done].
Qed.

(** The [added] message [importData] makes of a Document in stored shape
    describes that very Document: its ["_id"] field overrides the
    identifier of the message. *)
Lemma newObj_added_message col d : stored_shape d → newObj (added_message col d) = d.
Proof.
  intros Hd. destruct (stored_shape_id d Hd) as [x Hx]. destruct Hd as [Hid _].
  unfold newObj, added_message, assign. simpl.
  rewrite delete_id by done.
  apply map_eq. intros k. rewrite lookup_union.
  destruct (decide (k = "_id")) as [->|Hk].
  - rewrite Hx. by rewrite lookup_singleton_eq.
  - rewrite lookup_singleton_ne by done. by destruct (d !! k).
Qed.

Lemma added_message_undefined col d : stored_shape d → m_id (added_message col d) = VUndefined.
Proof. intros [Hid _]. unfold added_message, prop. simpl. by rewrite Hid. Qed.

Section RoundTrip.
Variable coerce : value → value → bool.

(** [added] messages without identifier, for Documents that bring their
    own, are appended to their collections. *)
Lemma foldl_added_docs ms st col :
  (∀ c d, d ∈ docs_of st c → nullish (prop d "_id") = false) →
  Forall (λ m, m_id m = VUndefined ∧ nullish (prop (newObj m) "_id") = false) ms →
  docs_of (foldl (λ st m, (dispatchAdded coerce st m).1) st ms) col =
    docs_of st col ++ (newObj <$> filter (λ m, m_collection m = col) ms).
Proof.
  revert st. induction ms as [|m ms IH]; intros st Hst Hms.
  - simpl. by rewrite app_nil_r.
  - apply Forall_cons in Hms as [[Hid Hnew] Hms]. cbn [foldl].
    assert (docs_of (dispatchAdded coerce st m).1 (m_collection m) =
              docs_of st (m_collection m) ++ [newObj m]) as Hown.
    { rewrite dispatchAdded_docs, evict_absent; [done|].
      apply findIndex_None. intros y Hy. rewrite Hid.
      apply loose_eq_undefined. by apply (Hst (m_collection m)). }
    assert (∀ c, c ≠ m_collection m →
                 docs_of (dispatchAdded coerce st m).1 c = docs_of st c) as Hother.
    { intros c Hc. unfold docs_of. by rewrite dispatchAdded_other. }
    rewrite IH; [|
      intros c d; destruct (decide (c = m_collection m)) as [->|Hc];
      [rewrite Hown; intros [Hd| ->%list_elem_of_singleton]%elem_of_app;
         [by apply (Hst (m_collection m)) | done]
      |rewrite Hother by done; apply Hst] | done].
    rewrite filter_cons. destruct (decide (m_collection m = col)) as [<-|Hc].
    + rewrite Hown, fmap_cons, <- app_assoc. done.
    + by rewrite Hother.
Qed.

Lemma imported_messages cs col :
  Forall (λ cd, Forall stored_shape cd.2) cs →
  newObj <$> filter (λ m, m_collection m = col) (bulk_messages added_message cs) =
    imported cs col.
Proof.
  unfold bulk_messages, imported.
  induction cs as [|[c docs] cs IH]; intros Hcs; [done|].
  apply Forall_cons in Hcs as [Hdocs Hcs]. simpl in Hdocs.
  rewrite !bind_cons, filter_app, fmap_app, IH by done. f_equal.
  destruct (decide (c = col)) as [Hc|Hc];
    induction Hdocs as [|d docs Hd _ IHd]; try done.
  - rewrite fmap_cons, filter_cons_True by done.
    by rewrite fmap_cons, IHd, newObj_added_message.
  - by rewrite fmap_cons, filter_cons_False by done.
Qed.

Lemma bulk_messages_shape cs :
  Forall (λ cd, Forall stored_shape cd.2) cs →
  Forall (λ m, m_id m = VUndefined ∧ nullish (prop (newObj m) "_id") = false)
         (bulk_messages added_message cs).
Proof.
  unfold bulk_messages. induction 1 as [|[c docs] cs Hdocs _ IH]; [constructor|].
  rewrite bind_cons. apply Forall_app. split; [|done].
  apply Forall_fmap. simpl in Hdocs. eapply Forall_impl; [exact Hdocs|].
  intros d Hd. simpl. split; [by apply (added_message_undefined c)|].
  rewrite newObj_added_message by done. apply Hd.
Qed.
End RoundTrip.

(** What a data set read off a mapping holds for a collection. *)
Lemma imported_map_to_list (m : gmap string (list doc)) col :
  imported (map_to_list m) col = default [] (m !! col).
Proof.
  assert (∀ l : dataset, NoDup l.*1 →
            (∀ docs, (col, docs) ∈ l → imported l col = docs) ∧
            (col ∉ l.*1 → imported l col = [])) as H.
  { induction l as [|[c docs] l IH]; intros Hnd.
    - split; [by intros docs ?%elem_of_nil | done].
    - rewrite fmap_cons in Hnd. apply NoDup_cons in Hnd as [Hc Hnd]. simpl in Hc.
      destruct (IH Hnd) as [IH1 IH2]. unfold imported in *. rewrite bind_cons.
      split.
      + intros docs' [[= <- <-]|Hin]%elem_of_cons.
        * rewrite decide_True by done. rewrite IH2 by done. apply app_nil_r.
        * rewrite decide_False; [by apply IH1|].
          intros ->. apply Hc. apply list_elem_of_fmap. by exists (col, docs').
      + rewrite fmap_cons. simpl. intros Hnotin.
        apply not_elem_of_cons in Hnotin as [Hne Hnotin].
        rewrite decide_False by done. by rewrite IH2. }
  destruct (H (map_to_list m) (NoDup_fst_map_to_list m)) as [H1 H2].
  destruct (m !! col) as [docs|] eqn:E; simpl.
  - apply H1. by apply elem_of_map_to_list.
  - apply H2. intros ([c docs] & -> & Hin)%list_elem_of_fmap.
    apply elem_of_map_to_list in Hin. simpl in *. congruence.
Qed.

Section Exports.
Variable coerce : value → value → bool.
Variable EJSON_parse : string → option dataset.
Variable EJSON_stringify : gmap string (list doc) → string.

(** X21.  A raw export imported into another client.  When every stored
    Document of the exporting client is identified under ["_id"] and has
    no key ["id"], as the dispatchers leave them, and the importing client
    holds identified Documents only, then once the messages [importData]
    queues have been delivered, every collection of the importing client
    holds what it held before followed by the exported Documents of that
    collection, in their order. *)
Theorem export_import_round_trip c c' raw :
  exportData EJSON_stringify (Some "raw") c = ExRaw raw →
  (∀ col docs d, collections (data c) !! col = Some docs → d ∈ docs → stored_shape d) →
  (∀ col d, d ∈ docs_of (data c') col → nullish (prop d "_id") = false) →
  let c1 := (importData EJSON_parse (inr (map_to_list raw)) c').1 in
  let tag := pretty (_id c') +:+ "-" +:+ pretty (_opGenId c') in
  let evs := bulk_events AddedEv added_message tag (map_to_list raw) in
  emitted (ddpConnection c1) = emitted (ddpConnection c') ++ evs ∧
  ∀ col, docs_of (data (deliver_all coerce c1 evs)) col =
         docs_of (data c') col ++ docs_of (data c) col.
Proof.
  intros Hraw Hc Hc' c1 tag evs.
  assert (raw = collections (data c)) as ->.
  { unfold exportData in Hraw. simpl in Hraw. injection Hraw as <-.
    apply map_eq. intros k. rewrite lookup_fmap.
    destruct (collections (data c) !! k); simpl; [by rewrite fullCopy_docs_id | done]. }
  destruct (importData_registers EJSON_parse (inr (map_to_list (collections (data c))))
              (map_to_list (collections (data c))) c' eq_refl) as (_ & Hd & He & _).
  fold c1 in Hd, He. split; [done|]. intros col.
  assert (Forall (λ cd : string * list doc, Forall stored_shape cd.2)
                 (map_to_list (collections (data c)))) as Hshape.
  { apply Forall_forall. intros [k docs] Hin%elem_of_map_to_list.
    apply Forall_forall. intros d Hdin. by apply (Hc k docs). }
  unfold evs, bulk_events.
  rewrite (deliver_all_bulk coerce AddedEv tag (dispatchAdded coerce)) by done.
  rewrite Hd, foldl_added_docs; [|done | by apply bulk_messages_shape].
  by rewrite imported_messages, imported_map_to_list.
Qed.

End Exports.

Lemma stocked_client_collections :
  collections (data stocked_client) = {[ "tasks" := [task_a; task_b] ]}.
Proof. by vm_compute. Qed.

Lemma stocked_client_shape col docs d :
  collections (data stocked_client) !! col = Some docs → d ∈ docs → stored_shape d.
Proof.
  rewrite stocked_client_collections.
  intros [<- <-]%lookup_singleton_Some Hd.
  apply elem_of_cons in Hd as [->|Hd]; [by vm_compute|].
  apply list_elem_of_singleton in Hd as ->. by vm_compute.
Qed.

Lemma fresh_client_identified col d :
  d ∈ docs_of (data fresh_client) col → nullish (prop d "_id") = false.
Proof. by intros ?%elem_of_nil. Qed.

Lemma export_import_round_trip_witness :
  let raw := (λ docs : list doc, fullCopy_doc <$> docs) <$>
               collections (data stocked_client) in
  let c1 := (importData no_parse (inr (map_to_list raw)) fresh_client).1 in
  let evs := bulk_events AddedEv added_message "0-0" (map_to_list raw) in
  docs_of (data (deliver_all no_coerce c1 evs)) "tasks" =
    docs_of (data fresh_client) "tasks" ++ docs_of (data stocked_client) "tasks".
Proof.
  exact (proj2
    (export_import_round_trip no_coerce no_parse no_stringify stocked_client fresh_client
       _ eq_refl stocked_client_shape fresh_client_identified) "tasks").
Defined.

(** ** Two bulk operations at once *)

Section Concurrent.
Variable EJSON_parse : string → option dataset.

Lemma importData_shape data_ cs c :
  match data_ with inl s => EJSON_parse s | inr d => Some d end = Some cs →
  let tag := pretty (_id c) +:+ "-" +:+ pretty (_opGenId c) in
  let p := length (promises c) in
  listeners (importData EJSON_parse data_ c).1 =
    listeners c ++ [tagged_listener AddedEv tag (totalDocuments cs) 0 p] ∧
  promises (importData EJSON_parse data_ c).1 = promises c ++ [Pending] ∧
  _id (importData EJSON_parse data_ c).1 = _id c ∧
  _opGenId (importData EJSON_parse data_ c).1 = S (_opGenId c).
Proof.
  intros Hcs tag p. unfold importData. simpl. rewrite Hcs. simpl.
  match goal with |- context [foldl _ ?c0 ?es] =>
    destruct (foldl_emit_frame es c0) as (-> & -> & _ & _) end.
  split_and!; [done | done | |].
  - rewrite (foldl_preserves _id); done.
  - rewrite (foldl_preserves _opGenId); done.
Qed.

(** [importData] leaves the futures handed out before, and their
    listeners, alone. *)
Lemma importData_other data_ cs c p :
  match data_ with inl s => EJSON_parse s | inr d => Some d end = Some cs →
  p < length (promises c) →
  mine p (importData EJSON_parse data_ c).1 = mine p c.
Proof.
  intros Hcs Hp. destruct (importData_shape data_ cs c Hcs) as (Hl & Hpr & _).
  unfold mine. rewrite Hl, Hpr, filter_app, lookup_app_l by done.
  rewrite filter_cons_False, filter_nil, app_nil_r; [done | simpl; lia].
Qed.

Lemma importData_known data_ cs c :
  match data_ with inl s => EJSON_parse s | inr d => Some d end = Some cs →
  listeners_known c → listeners_known (importData EJSON_parse data_ c).1.
Proof.
  intros Hcs Hknown. destruct (importData_shape data_ cs c Hcs) as (Hl & Hpr & _).
  unfold listeners_known in *. rewrite Hl, Hpr, length_app. simpl.
  apply Forall_app. split.
  - eapply Forall_impl; [exact Hknown|]. simpl. intros el Hel. lia.
  - apply Forall_singleton. simpl. lia.
Qed.
End Concurrent.

Lemma tagged_count_other n make tag tag' cs :
  tag ≠ tag' → tagged_count n tag' (bulk_events n make tag cs) = 0.
Proof.
  intros Hne. unfold bulk_events, tagged_count.
  induction (bulk_messages make cs) as [|m ms IH]; [done|].
  rewrite fmap_cons, filter_cons_False; [done|].
  unfold is_tagged. simpl. intros [_ [= ?]]. done.
Qed.

Lemma successive_tags_differ (i k : nat) :
  pretty i +:+ "-" +:+ pretty k ≠ pretty i +:+ "-" +:+ pretty (S k).
Proof.
  intros Heq. apply dashed_inj in Heq as [_ Hop]; [|apply dashless_pretty..].
  apply (inj pretty) in Hop. lia.
Qed.

(** X22.  Two imports under way at once do not count each other's
    notifications.  When [importData] is called twice in a row, the second
    call draws another tag; once the messages of the first have come back,
    the first future is resolved and the second is still pending. *)
Theorem bulk_operations_do_not_interfere coerce parse d1 d2 cs1 cs2 c :
  match d1 with inl s => parse s | inr d => Some d end = Some cs1 →
  match d2 with inl s => parse s | inr d => Some d end = Some cs2 →
  listeners_known c →
  totalDocuments cs1 ≠ 0 →
  let r1 := importData parse d1 c in
  let r2 := importData parse d2 r1.1 in
  let evs1 := bulk_events AddedEv added_message
                (pretty (_id c) +:+ "-" +:+ pretty (_opGenId c)) cs1 in
  promises (deliver_all coerce r2.1 evs1) !! r1.2 = Some (Resolved VUndefined) ∧
  promises (deliver_all coerce r2.1 evs1) !! r2.2 = Some Pending.
Proof.
  intros H1 H2 Hknown Htotal r1 r2 evs1.
  destruct (importData_registers parse d1 cs1 c H1) as (Hp1 & _ & _ & Hmine1).
  specialize (Hmine1 Hknown). fold r1 in Hp1, Hmine1.
  destruct (importData_shape parse d1 cs1 c H1) as (_ & Hpr1 & Hid1 & Hop1).
  fold r1 in Hpr1, Hid1, Hop1.
  pose proof (importData_known parse d1 cs1 c H1 Hknown) as Hknown1. fold r1 in Hknown1.
  destruct (importData_registers parse d2 cs2 r1.1 H2) as (Hp2 & _ & _ & Hmine2).
  specialize (Hmine2 Hknown1). fold r2 in Hp2, Hmine2.
  rewrite Hid1, Hop1 in Hmine2.
  assert (mine r1.2 r2.1 =
            ([tagged_listener AddedEv (pretty (_id c) +:+ "-" +:+ pretty (_opGenId c))
                (totalDocuments cs1) 0 r1.2], Some Pending)) as Hfirst.
  { unfold r2. rewrite (importData_other parse d2 cs2 r1.1 r1.2 H2).
    - by rewrite Hp1.
    - rewrite Hp1, Hpr1, length_app. simpl. lia. }
  rewrite <- Hp2 in Hmine2.
  assert (Forall is_diff_event evs1) as Hdiff
    by (apply bulk_events_diff; by left).
  split.
  - pose proof (deliver_all_counting coerce evs1 r2.1 _ _ _ _ _ Hdiff Hfirst) as H.
    unfold mine in H. simpl in H. rewrite H by lia.
    unfold evs1. rewrite tagged_count_bulk. by rewrite decide_True by (split; [done | lia]).
  - pose proof (deliver_all_counting coerce evs1 r2.1 _ _ _ _ _ Hdiff Hmine2) as H.
    unfold mine in H. simpl in H. rewrite H by lia.
    unfold evs1. rewrite tagged_count_other by apply successive_tags_differ.
    by rewrite decide_False by lia.
Qed.

Lemma bulk_operations_do_not_interfere_witness :
  let r1 := importData no_parse (inr tasks_data) online_client in
  let r2 := importData no_parse (inr tasks_data) r1.1 in
  let evs1 := bulk_events AddedEv added_message "0-0" tasks_data in
  promises (deliver_all no_coerce r2.1 evs1) !! r1.2 = Some (Resolved VUndefined) ∧
  promises (deliver_all no_coerce r2.1 evs1) !! r2.2 = Some Pending.
Proof.
  refine (bulk_operations_do_not_interfere no_coerce no_parse (inr tasks_data)
            (inr tasks_data) tasks_data tasks_data online_client eq_refl eq_refl
            online_client_known _).
  by vm_compute.
Defined.

(** ** The collection handle's import and export *)

Lemma forEach_passes f arr0 i arr :
  ((∃ j d, arr !! j = Some d ∧ Collection.passes f d (i + j) arr0 = true) →
   Collection.forEach (λ d i, if Collection.passes f d i arr0
                              then Collection.ddpConnection_emit else Returns tt) i arr
     = Throws "TypeError") ∧
  ((∀ j d, arr !! j = Some d → Collection.passes f d (i + j) arr0 = false) →
   Collection.forEach (λ d i, if Collection.passes f d i arr0
                              then Collection.ddpConnection_emit else Returns tt) i arr
     = Returns tt).
Proof.
  revert i. induction arr as [|d arr IH]; intros i.
  - split; [by intros (j & d & Hj & _) | done].
  - destruct (IH (S i)) as [IH1 IH2]. simpl.
    destruct (Collection.passes f d i arr0) eqn:Hd.
    + split; [done|]. intros H. specialize (H 0 d eq_refl).
      rewrite Nat.add_0_r in H. congruence.
    + split.
      * intros (j & d' & Hj & Hpass). destruct j as [|j].
        { injection Hj as <-. rewrite Nat.add_0_r in Hpass. congruence. }
        apply IH1. exists j, d'. split; [done|].
        by replace (S i + j) with (i + S j) by lia.
      * intros H. apply IH2. intros j d' Hj.
        replace (S i + j) with (i + S j) by lia. by apply H.
Qed.

(** X24.  [ddpCollection.importData] imports nothing.  Its
    [ddpConnection] field is never assigned, so the first Document of the
    named collection that passes the filter makes the call throw a
    [TypeError]; so does a collection name that is no key of the data but
    that every object inherits.  The call returns normally in every other
    case: no array under the collection's name, an empty one, the filter
    [true], or a predicate that rejects all its Documents. *)
Theorem collection_importData_outcome parse data_ c col :
  match data_ with inl s => parse s | inr d => Some d end = Some c →
  (Collection.importData parse data_ col = Throws "TypeError" ↔
   (∃ arr i d, c !! _name col = Some arr ∧ arr !! i = Some d ∧
               Collection.passes (_filter col) d i arr = true) ∨
   (c !! _name col = None ∧ inherited (_name col) = true)) ∧
  (Collection.importData parse data_ col = Returns tt ↔
   (∀ arr i d, c !! _name col = Some arr → arr !! i = Some d →
               Collection.passes (_filter col) d i arr = false) ∧
   (c !! _name col = None → inherited (_name col) = false)).
Proof.
  intros Hc. unfold Collection.importData. rewrite Hc.
  destruct (c !! _name col) as [arr|] eqn:Harr.
  - destruct (forEach_passes (_filter col) arr 0 arr) as [H1 H2]. simpl in H1, H2.
    assert ((∃ i d, arr !! i = Some d ∧ Collection.passes (_filter col) d i arr = true) ∨
            (∀ i d, arr !! i = Some d → Collection.passes (_filter col) d i arr = false))
      as [Hex|Hall].
    { destruct (decide (Exists (λ id, Collection.passes (_filter col) id.2 id.1 arr = true)
                          (imap pair arr))) as [Hex|Hno].
      - left. apply Exists_exists in Hex as ([i d] & Hin & Hp).
        apply elem_of_lookup_imap in Hin as (i' & d' & [= -> ->] & Hi). by exists i', d'.
      - right. intros i d Hi.
        destruct (Collection.passes (_filter col) d i arr) eqn:Hp; [|done].
        exfalso. apply Hno. apply Exists_exists. exists (i, d). split; [|done].
        apply elem_of_lookup_imap. by exists i, d. }
    + rewrite (H1 Hex). split.
      * split; [intros _|done]. left.
        destruct Hex as (i & d & Hi & Hp). by exists arr, i, d.
      * split; [done|]. intros [Hall _]. destruct Hex as (i & d & Hi & Hp).
        rewrite (Hall arr i d eq_refl Hi) in Hp. done.
    + rewrite (H2 Hall). split.
      * split; [done|]. intros [(arr' & i & d & [= <-] & Hi & Hp)|[? _]]; [|done].
        rewrite (Hall i d Hi) in Hp. done.
      * split; [|done]. intros _. split; [|done].
        intros arr' i d [= <-] Hi. by apply Hall.
  - destruct (inherited (_name col)) eqn:Hin.
    + split.
      * split; [intros _; by right | done].
      * split; [done|]. intros [_ H]. by specialize (H eq_refl).
    + split.
      * split; [done|]. intros [(arr & i & d & ? & _)|[_ ?]]; done.
      * split; [|done]. intros _. split; [|done]. by intros arr i d ?.
Qed.

Lemma collection_importData_outcome_witness :
  Collection.importData no_parse_map (inr tasks_import) tasks_collection
    = Throws "TypeError".
Proof.
  refine (proj2 (proj1 (collection_importData_outcome no_parse_map (inr tasks_import)
                          tasks_import tasks_collection eq_refl)) _).
  left.
  exists [ {[ "id" := VStr "c"; "fields" := VObj [("title", VStr "t")] ]} ], 0,
         {[ "id" := VStr "c"; "fields" := VObj [("title", VStr "t")] ]}.
  by vm_compute.
Defined.

(** X25.  On a collection whose name is a key of the store, or a name no
    object inherits, [ddpCollection.exportData] exports what [fetch()]
    returns, under the collection's name and under no other key (the empty
    array when the store has no such collection).  As [fetch] runs first,
    a filter [true] makes the call throw whatever the format; a format
    other than ["string"] and ["raw"] gives [undefined]. *)
Theorem collection_exportData_cases stringify format col :
  own_lookup (collections (_server col)) (_name col) →
  let docs := keep_matching (_filter col) (docs_of (_server col) (_name col)) in
  let collectionCopy : gmap string (list doc) := {[ _name col := docs ]} in
  Collection.exportData stringify format col =
    match _filter col with
    | On => Throws "TypeError"
    | _ =>
        Returns (match format with
                 | None => ExString (stringify collectionCopy)
                 | Some f =>
                     if bool_decide (f = "string") then ExString (stringify collectionCopy)
                     else if bool_decide (f = "raw") then ExRaw collectionCopy
                     else ExUndefined
                 end)
    end.
Proof.
  intros _ docs collectionCopy. unfold Collection.exportData.
  rewrite fetch_unfold, fullCopy_docs_id. subst collectionCopy docs.
  destruct (_filter col) as [| |p]; [|done|].
  all: simpl; f_equal.
  all: destruct format as [f|];
    [|by rewrite bool_decide_eq_true_2 by (by left)].
  all: destruct (decide (f = "string")) as [->|Hs];
    [by rewrite !bool_decide_eq_true_2 by (done || by right)|].
  all: rewrite (bool_decide_eq_false_2 (f = "string")) by done.
  all: rewrite (bool_decide_eq_false_2 (_ ∨ _)) by (intros [?|[= ?]]; done).
  all: destruct (decide (f = "raw")) as [->|Hr];
    [by rewrite !bool_decide_eq_true_2 by done|].
  all: rewrite (bool_decide_eq_false_2 (f = "raw")) by done.
  all: by rewrite bool_decide_eq_false_2 by (intros [= ?]; done).
Qed.

Lemma collection_exportData_cases_witness :
  Collection.exportData no_stringify (Some "raw") v_collection =
    Returns (ExRaw {[ "vs" := v_docs ]}).
Proof.
  exact (collection_exportData_cases no_stringify (Some "raw") v_collection
           v_collection_own).
Defined.
